(** * openclaw-lark-channel: the persistent queue and the outbound sender

    A shallow embedding of
    - [src/queue.ts]         (class [MessageQueue], the SQLite-backed queue),
    - [src/card-builder.ts]  ([selectMessageType]),
    - [src/channel.ts] and its compiled counterpart [dist/src/channel.js]
      ([calculateSendBackoff], [sendToLarkWithRetry], [processOutboundQueue]).

    Conventions of the embedding:
    - a JavaScript string is the list of its UTF-16 code units;
    - a JavaScript number that holds a row id, a retry count or a millisecond
      timestamp is an integer of [Z] (all values the code computes on them stay
      far below 2^53, where doubles are exact);
    - an SQLite table is the list of its rows in rowid order, together with the
      AUTOINCREMENT counter of the table;
    - SQL leaves the order of rows with equal [ORDER BY] keys to the query
      plan: the dequeues take the plan as a parameter ([QueryPlan]);
    - every [Date.now()] of a queue method is an explicit argument [now];
      the sender reads it from the clock of its world, which [sleep]
      advances;
    - while a tick of a consumer waits at an [await], the other callbacks of
      the event loop run: what they do to the store is a parameter of the
      tick ([others]). *)

From Stdlib Require Import ZArith NArith List Lia Bool String Ascii.
From Stdlib Require Import Sorted Permutation.
Import ListNotations.
Open Scope Z_scope.

(* ================================================================== *)
(** * JavaScript strings *)
(* ================================================================== *)

Module Js.

(** One UTF-16 code unit. *)
Definition codeUnit : Type := N.

Definition jsstring : Type := list codeUnit.

(** A string literal of the source, spelled with ASCII characters. *)
Definition lit (s : string) : jsstring :=
  map N_of_ascii (list_ascii_of_string s).

(** [a === b] on strings. *)
Fixpoint str_eqb (a b : jsstring) : bool :=
  match a, b with
  | [], [] => true
  | x :: a', y :: b' => N.eqb x y && str_eqb a' b'
  | _, _ => false
  end.

(** [s.length]. *)
Definition strLength (s : jsstring) : Z := Z.of_nat (List.length s).

(** Code unit of the line feed character. *)
Definition LF : codeUnit := 10%N.

(** [s.split('\n')]: the pieces between line feeds; never empty. *)
Fixpoint splitLF (s : jsstring) : list jsstring :=
  match s with
  | [] => [[]]
  | c :: s' =>
      if N.eqb c LF then [] :: splitLF s'
      else match splitLF s' with
           | [] => [[c]]
           | piece :: pieces => (c :: piece) :: pieces
           end
  end.

(** [x ?? d] for an optional value. *)
Definition orElse {A : Type} (x : option A) (d : A) : A :=
  match x with Some v => v | None => d end.

(** [\d] and [\w] of a regular expression without the [u] flag. *)
Definition isDigit (c : codeUnit) : bool :=
  (N.leb 48 c && N.leb c 57)%N.

Definition isWord (c : codeUnit) : bool :=
  isDigit c
  || (N.leb 65 c && N.leb c 90)%N
  || (N.leb 97 c && N.leb c 122)%N
  || N.eqb c 95.

End Js.

Import Js.

(* ================================================================== *)
(** * src/queue.ts *)
(* ================================================================== *)

Module Queue.

(** ** Config *)

Definition MAX_RETRIES : Z := 120.
Definition RETRY_BACKOFF_BASE_MS : Z := 1000.
Definition RETRY_BACKOFF_MAX_MS : Z := 120 * 60 * 1000.
Definition MESSAGE_TTL_MS : Z := 30 * 24 * 60 * 60 * 1000.
Definition DEDUP_WINDOW_MS : Z := 10 * 60 * 1000.

(** ** Helpers *)

(** [calculateBackoff(retries)]: [Math.pow] is exact on the integers that
    occur here.  The embedding is meant for [0 <= retries]; for a negative
    exponent JavaScript yields a fraction where [Z.pow] yields 0. *)
Definition calculateBackoff (retries : Z) : Z :=
  let backoff := RETRY_BACKOFF_BASE_MS * 2 ^ (Z.min retries 17) in
  Z.min backoff RETRY_BACKOFF_MAX_MS.

Definition hasExceededMaxRetries (retries : Z) : bool :=
  retries >=? MAX_RETRIES.

(** ** Rows (src/types.ts) *)

Inductive Status : Type :=
  | pending
  | processing
  | completed
  | failed_permanent.

Definition status_eqb (a b : Status) : bool :=
  match a, b with
  | pending, pending | processing, processing
  | completed, completed | failed_permanent, failed_permanent => true
  | _, _ => false
  end.

Inductive QueueType : Type := reply | mirror.

(** [interface QueueMessage]: the columns both queue tables share. *)
Record QueueMessage : Type := mkQueueMessage {
  id : Z;
  status : Status;
  retries : Z;
  next_retry_at : option Z;
  created_at : Z;
  updated_at : Z;
  completed_at : option Z;
  last_error : option jsstring
}.

(** [interface InboundMessage extends QueueMessage]. *)
Record InboundMessage : Type := mkInbound {
  in_q : QueueMessage;
  message_id : jsstring;
  in_chat_id : jsstring;
  in_session_key : jsstring;
  message_text : jsstring;
  attachments_json : option jsstring;
  response_text : option jsstring
}.

(** [interface OutboundMessage extends QueueMessage]. *)
Record OutboundMessage : Type := mkOutbound {
  out_q : QueueMessage;
  queue_type : QueueType;
  run_id : jsstring;
  out_session_key : jsstring;
  out_chat_id : jsstring;
  content : jsstring;
  content_hash : jsstring;
  lark_message_id : option jsstring
}.

(** A row of table [sent_messages]. *)
Record SentMessage : Type := mkSent {
  sent_id : Z;
  sent_content_hash : jsstring;
  sent_chat_id : jsstring;
  sent_lark_message_id : option jsstring;
  sent_created_at : Z
}.

(** [interface EnqueueResult]. *)
Record EnqueueResult : Type := mkEnqueueResult {
  enqueued : bool;
  reason : option jsstring;
  res_id : option Z;
  existing : option Status
}.

(** The database file: three tables, each with the largest rowid it has ever
    handed out ([INTEGER PRIMARY KEY AUTOINCREMENT]). *)
Record Store : Type := mkStore {
  outbound_queue : list OutboundMessage;
  outbound_seq : Z;
  inbound_queue : list InboundMessage;
  inbound_seq : Z;
  sent_messages : list SentMessage;
  sent_seq : Z
}.

(** ** SQL statements over a table *)

Section Sql.
Context {Row : Type}.

(** [UPDATE t SET ... WHERE p]. *)
Definition update_where (p : Row -> bool) (f : Row -> Row)
    (tbl : list Row) : list Row :=
  map (fun r => if p r then f r else r) tbl.

(** [DELETE FROM t WHERE p]. *)
Definition delete_where (p : Row -> bool) (tbl : list Row) : list Row :=
  filter (fun r => negb (p r)) tbl.

(** [SELECT ... WHERE p] read with [.get()]: the first matching row. *)
Definition select_first (p : Row -> bool) (tbl : list Row) : option Row :=
  find p tbl.

(** [ORDER BY key ASC], as a stable insertion sort: rows with equal keys
    stay in the order they come in. *)
Fixpoint insert_by (key : Row -> Z) (r : Row) (sorted : list Row)
    : list Row :=
  match sorted with
  | [] => [r]
  | x :: rest =>
      if key r <=? key x then r :: x :: rest
      else x :: insert_by key r rest
  end.

Definition order_by (key : Row -> Z) (tbl : list Row) : list Row :=
  fold_right (insert_by key) [] tbl.

(** The rows that pass [WHERE p], in the order the query plan of the
    statement delivers them to [ORDER BY].  SQL does not fix that order,
    and with it the order of rows with equal sort keys: [visit] stands for
    the plan, giving the rank of each matching row among all of them
    (SQLite reads these statements off the [(status, next_retry_at)]
    index). *)
Definition scan (visit : list Row -> Row -> Z) (p : Row -> bool)
    (tbl : list Row) : list Row :=
  let matching := filter p tbl in
  order_by (visit matching) matching.
End Sql.

(** [next_retry_at IS NULL OR next_retry_at <= now]. *)
Definition is_due (now : Z) (q : QueueMessage) : bool :=
  match next_retry_at q with
  | None => true
  | Some t => t <=? now
  end.

(** The [WHERE] clause of both dequeue statements. *)
Definition dequeueable (now : Z) (q : QueueMessage) : bool :=
  status_eqb (status q) pending && is_due now q.

(** The [SET] clause of [stmtMark*Processing]. *)
Definition set_processing (now : Z) (q : QueueMessage) : QueueMessage :=
  {| id := id q; status := processing; retries := retries q;
     next_retry_at := next_retry_at q; created_at := created_at q;
     updated_at := now; completed_at := completed_at q;
     last_error := last_error q |}.

(** The [SET] clause of [resetStuckMessages] and [recoverStuck]
    ([retries = retries] assigns the column to itself). *)
Definition set_pending (now : Z) (q : QueueMessage) : QueueMessage :=
  {| id := id q; status := pending; retries := retries q;
     next_retry_at := next_retry_at q; created_at := created_at q;
     updated_at := now; completed_at := completed_at q;
     last_error := last_error q |}.

(** The shared part of the [SET] clause of [stmtUpdateOutbound] and
    [stmtUpdateInbound]. *)
Definition set_update (st : Status) (updatedAt retries_ : Z)
    (nextRetryAt : option Z) (lastError : option jsstring)
    (completedAt : option Z) (q : QueueMessage) : QueueMessage :=
  {| id := id q; status := st; retries := retries_;
     next_retry_at := nextRetryAt; created_at := created_at q;
     updated_at := updatedAt; completed_at := completedAt;
     last_error := lastError |}.

Definition in_with_q (f : QueueMessage -> QueueMessage)
    (m : InboundMessage) : InboundMessage :=
  {| in_q := f (in_q m); message_id := message_id m;
     in_chat_id := in_chat_id m; in_session_key := in_session_key m;
     message_text := message_text m;
     attachments_json := attachments_json m;
     response_text := response_text m |}.

Definition out_with_q (f : QueueMessage -> QueueMessage)
    (m : OutboundMessage) : OutboundMessage :=
  {| out_q := f (out_q m); queue_type := queue_type m; run_id := run_id m;
     out_session_key := out_session_key m; out_chat_id := out_chat_id m;
     content := content m; content_hash := content_hash m;
     lark_message_id := lark_message_id m |}.

Definition in_has_id (rowId : Z) (m : InboundMessage) : bool :=
  id (in_q m) =? rowId.

Definition out_has_id (rowId : Z) (m : OutboundMessage) : bool :=
  id (out_q m) =? rowId.

(** ** Prepared statements *)

Definition stmtUpdateOutbound (st : Status) (updatedAt retries_ : Z)
    (nextRetryAt : option Z) (lastError : option jsstring)
    (completedAt : option Z) (larkMessageId : option jsstring) (rowId : Z)
    (tbl : list OutboundMessage) : list OutboundMessage :=
  update_where (out_has_id rowId)
    (fun m =>
       {| out_q := set_update st updatedAt retries_ nextRetryAt lastError
                     completedAt (out_q m);
          queue_type := queue_type m; run_id := run_id m;
          out_session_key := out_session_key m;
          out_chat_id := out_chat_id m;
          content := content m; content_hash := content_hash m;
          lark_message_id := larkMessageId |})
    tbl.

Definition stmtUpdateInbound (st : Status) (updatedAt retries_ : Z)
    (nextRetryAt : option Z) (lastError : option jsstring)
    (completedAt : option Z) (responseText : option jsstring) (rowId : Z)
    (tbl : list InboundMessage) : list InboundMessage :=
  update_where (in_has_id rowId)
    (fun m =>
       {| in_q := set_update st updatedAt retries_ nextRetryAt lastError
                    completedAt (in_q m);
          message_id := message_id m; in_chat_id := in_chat_id m;
          in_session_key := in_session_key m;
          message_text := message_text m;
          attachments_json := attachments_json m;
          response_text := responseText |})
    tbl.

Definition stmtMarkOutboundProcessing (now rowId : Z)
    (tbl : list OutboundMessage) : list OutboundMessage :=
  update_where (out_has_id rowId) (out_with_q (set_processing now)) tbl.

Definition stmtMarkInboundProcessing (now rowId : Z)
    (tbl : list InboundMessage) : list InboundMessage :=
  update_where (in_has_id rowId) (in_with_q (set_processing now)) tbl.

(** The query plans of the two dequeue statements. *)
Record QueryPlan : Type := mkQueryPlan {
  visitOutbound : list OutboundMessage -> OutboundMessage -> Z;
  visitInbound : list InboundMessage -> InboundMessage -> Z
}.

(** [... WHERE status = 'pending' AND (next_retry_at IS NULL OR
    next_retry_at <= ?) ORDER BY created_at ASC LIMIT ?]. *)
Definition stmtDequeueOutbound (plan : QueryPlan) (now : Z) (limit : nat)
    (tbl : list OutboundMessage) : list OutboundMessage :=
  firstn limit
    (order_by (fun m => created_at (out_q m))
       (scan (visitOutbound plan) (fun m => dequeueable now (out_q m)) tbl)).

Definition stmtDequeueInbound (plan : QueryPlan) (now : Z) (limit : nat)
    (tbl : list InboundMessage) : list InboundMessage :=
  firstn limit
    (order_by (fun m => created_at (in_q m))
       (scan (visitInbound plan) (fun m => dequeueable now (in_q m)) tbl)).

(** [status IN ('pending', 'processing')]. *)
Definition unresolved (st : Status) : bool :=
  status_eqb st pending || status_eqb st processing.

Definition stmtCheckOutboundDupe (hash chatId : jsstring) (cutoff : Z)
    (tbl : list OutboundMessage) : option Z :=
  option_map (fun m => id (out_q m))
    (select_first
       (fun m => str_eqb (content_hash m) hash
                 && str_eqb (out_chat_id m) chatId
                 && (cutoff <? created_at (out_q m))
                 && unresolved (status (out_q m)))
       tbl).

Definition stmtCheckSentDupe (hash chatId : jsstring) (cutoff : Z)
    (tbl : list SentMessage) : option Z :=
  option_map sent_id
    (select_first
       (fun r => str_eqb (sent_content_hash r) hash
                 && str_eqb (sent_chat_id r) chatId
                 && (cutoff <? sent_created_at r))
       tbl).

Definition stmtCheckInboundExists (messageId : jsstring)
    (tbl : list InboundMessage) : option (Z * Status) :=
  option_map (fun m => (id (in_q m), status (in_q m)))
    (select_first (fun m => str_eqb (message_id m) messageId) tbl).

Definition with_outbound (tbl : list OutboundMessage) (s : Store) : Store :=
  {| outbound_queue := tbl; outbound_seq := outbound_seq s;
     inbound_queue := inbound_queue s; inbound_seq := inbound_seq s;
     sent_messages := sent_messages s; sent_seq := sent_seq s |}.

Definition with_inbound (tbl : list InboundMessage) (s : Store) : Store :=
  {| outbound_queue := outbound_queue s; outbound_seq := outbound_seq s;
     inbound_queue := tbl; inbound_seq := inbound_seq s;
     sent_messages := sent_messages s; sent_seq := sent_seq s |}.

Definition with_sent (tbl : list SentMessage) (s : Store) : Store :=
  {| outbound_queue := outbound_queue s; outbound_seq := outbound_seq s;
     inbound_queue := inbound_queue s; inbound_seq := inbound_seq s;
     sent_messages := tbl; sent_seq := sent_seq s |}.

(** A freshly inserted queue row: [status] is the literal ['pending'],
    [retries] takes its column default 0, the three timestamps are bound. *)
Definition fresh_row (rowId createdAt updatedAt nextRetryAt : Z)
    : QueueMessage :=
  {| id := rowId; status := pending; retries := 0;
     next_retry_at := Some nextRetryAt; created_at := createdAt;
     updated_at := updatedAt; completed_at := None; last_error := None |}.

(** [stmtEnqueueOutbound.run(...)]: returns [lastInsertRowid]. *)
Definition stmtEnqueueOutbound (queueType : QueueType)
    (runId sessionKey chatId content_ hash : jsstring)
    (createdAt updatedAt nextRetryAt : Z) (s : Store) : Z * Store :=
  let rowId := outbound_seq s + 1 in
  let row :=
    {| out_q := fresh_row rowId createdAt updatedAt nextRetryAt;
       queue_type := queueType; run_id := runId;
       out_session_key := sessionKey; out_chat_id := chatId;
       content := content_; content_hash := hash;
       lark_message_id := None |} in
  (rowId,
   {| outbound_queue := outbound_queue s ++ [row]; outbound_seq := rowId;
      inbound_queue := inbound_queue s; inbound_seq := inbound_seq s;
      sent_messages := sent_messages s; sent_seq := sent_seq s |}).

(** [stmtRecordSent.run(...)]. *)
Definition stmtRecordSent (hash chatId : jsstring)
    (larkMessageId : option jsstring) (createdAt : Z) (s : Store) : Store :=
  let rowId := sent_seq s + 1 in
  {| outbound_queue := outbound_queue s; outbound_seq := outbound_seq s;
     inbound_queue := inbound_queue s; inbound_seq := inbound_seq s;
     sent_messages :=
       sent_messages s ++
       [ {| sent_id := rowId; sent_content_hash := hash;
            sent_chat_id := chatId; sent_lark_message_id := larkMessageId;
            sent_created_at := createdAt |} ];
     sent_seq := rowId |}.

(** [stmtEnqueueInbound.run(...)], an [INSERT OR IGNORE]: a row whose
    [message_id] violates the [UNIQUE] constraint is dropped and [changes]
    is 0.  Returns [(changes, lastInsertRowid)]. *)
Definition stmtEnqueueInbound
    (messageId chatId sessionKey messageText : jsstring)
    (attachmentsJson : option jsstring)
    (createdAt updatedAt nextRetryAt : Z) (s : Store) : (Z * Z) * Store :=
  if existsb (fun m => str_eqb (message_id m) messageId) (inbound_queue s)
  then ((0, inbound_seq s), s)
  else
    let rowId := inbound_seq s + 1 in
    let row :=
      {| in_q := fresh_row rowId createdAt updatedAt nextRetryAt;
         message_id := messageId; in_chat_id := chatId;
         in_session_key := sessionKey; message_text := messageText;
         attachments_json := attachmentsJson; response_text := None |} in
    ((1, rowId),
     {| outbound_queue := outbound_queue s; outbound_seq := outbound_seq s;
        inbound_queue := inbound_queue s ++ [row]; inbound_seq := rowId;
        sent_messages := sent_messages s; sent_seq := sent_seq s |}).

(** ** The methods of [MessageQueue] *)

Record OutboundParams : Type := mkOutboundParams {
  p_runId : option jsstring;
  p_sessionKey : jsstring;
  p_chatId : jsstring;
  p_content : jsstring
}.

(** [resetStuckMessages()]. *)
Definition resetStuckMessages (now : Z) (s : Store) : Store :=
  let s1 :=
    with_inbound
      (update_where (fun m => status_eqb (status (in_q m)) processing)
         (in_with_q (set_pending now)) (inbound_queue s)) s in
  with_outbound
    (update_where (fun m => status_eqb (status (out_q m)) processing)
       (out_with_q (set_pending now)) (outbound_queue s1)) s1.

(** [recoverStuck()]; its two clock readings are taken as one instant. *)
Definition recoverStuck (now : Z) (s : Store) : Store :=
  let fiveMinAgo := now - 5 * 60 * 1000 in
  let s1 :=
    with_outbound
      (update_where
         (fun m => status_eqb (status (out_q m)) processing
                   && (updated_at (out_q m) <? fiveMinAgo))
         (out_with_q (set_pending now)) (outbound_queue s)) s in
  with_inbound
    (update_where
       (fun m => status_eqb (status (in_q m)) processing
                 && (updated_at (in_q m) <? fiveMinAgo))
       (in_with_q (set_pending now)) (inbound_queue s1)) s1.

(** [cleanup()], as far as the database goes ([cleanupMediaFiles] only
    unlinks files of the media directory). *)
Definition cleanup (now : Z) (s : Store) : Store :=
  let cutoff := now - MESSAGE_TTL_MS in
  let s1 :=
    with_outbound
      (delete_where
         (fun m => (created_at (out_q m) <? cutoff)
                   && status_eqb (status (out_q m)) completed)
         (outbound_queue s)) s in
  let s2 :=
    with_inbound
      (delete_where
         (fun m => (created_at (in_q m) <? cutoff)
                   && status_eqb (status (in_q m)) completed)
         (inbound_queue s1)) s1 in
  with_sent
    (delete_where (fun r => sent_created_at r <? cutoff) (sent_messages s2))
    s2.

(** What the constructor does to an existing database file. *)
Definition openStore (tReset tRecover tCleanup : Z) (s : Store) : Store :=
  cleanup tCleanup (recoverStuck tRecover (resetStuckMessages tReset s)).

Definition dequeueOutbound (plan : QueryPlan) (now : Z) (limit : nat)
    (s : Store) : list OutboundMessage :=
  stmtDequeueOutbound plan now limit (outbound_queue s).

Definition markOutboundProcessing (now rowId : Z) (s : Store) : Store :=
  with_outbound (stmtMarkOutboundProcessing now rowId (outbound_queue s)) s.

Definition markOutboundCompleted (now rowId : Z)
    (larkMessageId : option jsstring) (s : Store) : Store :=
  let msg := select_first (out_has_id rowId) (outbound_queue s) in
  let s1 :=
    with_outbound
      (stmtUpdateOutbound completed now
         (orElse (option_map (fun m => retries (out_q m)) msg) 0)
         None None (Some now) larkMessageId rowId (outbound_queue s)) s in
  match msg with
  | Some m =>
      stmtRecordSent (content_hash m) (out_chat_id m) larkMessageId now s1
  | None => s1
  end.

Definition markOutboundRetry (now rowId : Z) (errorMessage : jsstring)
    (s : Store) : Store :=
  let msg := select_first (out_has_id rowId) (outbound_queue s) in
  let retries_ := orElse (option_map (fun m => retries (out_q m)) msg) 0 + 1 in
  if hasExceededMaxRetries retries_ then
    with_outbound
      (stmtUpdateOutbound failed_permanent now retries_ None
         (Some errorMessage) None None rowId (outbound_queue s)) s
  else
    let backoffMs := calculateBackoff retries_ in
    let nextRetryAt := now + backoffMs in
    with_outbound
      (stmtUpdateOutbound pending now retries_ (Some nextRetryAt)
         (Some errorMessage) None None rowId (outbound_queue s)) s.

Definition dequeueInbound (plan : QueryPlan) (now : Z) (limit : nat)
    (s : Store) : list InboundMessage :=
  stmtDequeueInbound plan now limit (inbound_queue s).

Definition markInboundProcessing (now rowId : Z) (s : Store) : Store :=
  with_inbound (stmtMarkInboundProcessing now rowId (inbound_queue s)) s.

Definition markInboundCompleted (now rowId : Z) (responseText : jsstring)
    (s : Store) : Store :=
  let msg := select_first (in_has_id rowId) (inbound_queue s) in
  with_inbound
    (stmtUpdateInbound completed now
       (orElse (option_map (fun m => retries (in_q m)) msg) 0)
       None None (Some now) (Some responseText) rowId (inbound_queue s)) s.

Definition markInboundRetry (now rowId : Z) (errorMessage : jsstring)
    (s : Store) : Store :=
  let msg := select_first (in_has_id rowId) (inbound_queue s) in
  let retries_ := orElse (option_map (fun m => retries (in_q m)) msg) 0 + 1 in
  if hasExceededMaxRetries retries_ then
    with_inbound
      (stmtUpdateInbound failed_permanent now retries_ None
         (Some errorMessage) None None rowId (inbound_queue s)) s
  else
    let backoffMs := calculateBackoff retries_ in
    let nextRetryAt := now + backoffMs in
    with_inbound
      (stmtUpdateInbound pending now retries_ (Some nextRetryAt)
         (Some errorMessage) None None rowId (inbound_queue s)) s.

Section Enqueue.
(** [crypto.createHash('md5').update(content).digest('hex')]. *)
Variable hashContent : jsstring -> jsstring.

(** The attachments of an inbound message and [JSON.stringify] on them. *)
Variable Attachment : Type.
Variable JSON_stringify : list Attachment -> jsstring.

Record InboundParams : Type := mkInboundParams {
  p_messageId : jsstring;
  p_inChatId : jsstring;
  p_inSessionKey : jsstring;
  p_messageText : jsstring;
  p_attachments : option (list Attachment)
}.

Definition enqueueOutbound (queueType : QueueType)
    (params : OutboundParams) (now : Z) (s : Store)
    : EnqueueResult * Store :=
  let hash := hashContent (p_content params) in
  let dedupCutoff := now - DEDUP_WINDOW_MS in
  match stmtCheckOutboundDupe hash (p_chatId params) dedupCutoff
          (outbound_queue s) with
  | Some _ =>
      ({| enqueued := false; reason := Some (lit "duplicate_pending");
          res_id := None; existing := None |}, s)
  | None =>
      match stmtCheckSentDupe hash (p_chatId params) dedupCutoff
              (sent_messages s) with
      | Some _ =>
          ({| enqueued := false; reason := Some (lit "already_sent");
              res_id := None; existing := None |}, s)
      | None =>
          let '(lastInsertRowid, s') :=
            stmtEnqueueOutbound queueType (orElse (p_runId params) [])
              (p_sessionKey params) (p_chatId params) (p_content params)
              hash now now now s in
          ({| enqueued := true; reason := None;
              res_id := Some lastInsertRowid; existing := None |}, s')
      end
  end.

Definition enqueueInbound (params : InboundParams) (now : Z) (s : Store)
    : EnqueueResult * Store :=
  match stmtCheckInboundExists (p_messageId params) (inbound_queue s) with
  | Some (_, existingStatus) =>
      ({| enqueued := false; reason := Some (lit "duplicate");
          res_id := None; existing := Some existingStatus |}, s)
  | None =>
      let attachmentsJson := option_map JSON_stringify (p_attachments params) in
      let '((changes, lastInsertRowid), s') :=
        stmtEnqueueInbound (p_messageId params) (p_inChatId params)
          (p_inSessionKey params) (p_messageText params) attachmentsJson
          now now now s in
      if 0 <? changes then
        ({| enqueued := true; reason := None;
            res_id := Some lastInsertRowid; existing := None |}, s')
      else
        ({| enqueued := false; reason := Some (lit "insert_failed");
            res_id := None; existing := None |}, s')
  end.

(** ** The operations as one transition system *)

Inductive Op : Type :=
  | EnqueueOutbound (queueType : QueueType) (params : OutboundParams)
  | DequeueOutbound (limit : nat)
  | MarkOutboundProcessing (rowId : Z)
  | MarkOutboundCompleted (rowId : Z) (larkMessageId : option jsstring)
  | MarkOutboundRetry (rowId : Z) (errorMessage : jsstring)
  | EnqueueInbound (params : InboundParams)
  | DequeueInbound (limit : nat)
  | MarkInboundProcessing (rowId : Z)
  | MarkInboundCompleted (rowId : Z) (responseText : jsstring)
  | MarkInboundRetry (rowId : Z) (errorMessage : jsstring)
  | ResetStuckMessages
  | RecoverStuck
  | Cleanup.

(** The store after one call, made at time [now]. *)
Definition exec (now : Z) (op : Op) (s : Store) : Store :=
  match op with
  | EnqueueOutbound queueType params =>
      snd (enqueueOutbound queueType params now s)
  | DequeueOutbound _ => s
  | MarkOutboundProcessing rowId => markOutboundProcessing now rowId s
  | MarkOutboundCompleted rowId larkMessageId =>
      markOutboundCompleted now rowId larkMessageId s
  | MarkOutboundRetry rowId errorMessage =>
      markOutboundRetry now rowId errorMessage s
  | EnqueueInbound params => snd (enqueueInbound params now s)
  | DequeueInbound _ => s
  | MarkInboundProcessing rowId => markInboundProcessing now rowId s
  | MarkInboundCompleted rowId responseText =>
      markInboundCompleted now rowId responseText s
  | MarkInboundRetry rowId errorMessage =>
      markInboundRetry now rowId errorMessage s
  | ResetStuckMessages => resetStuckMessages now s
  | RecoverStuck => recoverStuck now s
  | Cleanup => cleanup now s
  end.
End Enqueue.

Arguments p_messageId {Attachment} params : rename.
Arguments p_inChatId {Attachment} params : rename.
Arguments p_inSessionKey {Attachment} params : rename.
Arguments p_messageText {Attachment} params : rename.
Arguments p_attachments {Attachment} params : rename.

End Queue.

(* ================================================================== *)
(** * src/card-builder.ts *)
(* ================================================================== *)

Module CardBuilder.

Inductive MessageType : Type := skip | text | interactive.

(** [selectMessageType(text)]; [None] stands for [null] and [undefined].
    [!text] holds for those two and for the empty string. *)
Definition selectMessageType (text_ : option jsstring) : MessageType :=
  match text_ with
  | None => skip
  | Some t =>
      if match t with [] => true | _ => false end
         || str_eqb t (lit "NO_REPLY")
         || str_eqb t (lit "HEARTBEAT_OK")
      then skip
      else if (strLength t <? 100)
              && (Z.of_nat (List.length (splitLF t)) <=? 2)
      then text
      else interactive
  end.

End CardBuilder.

(* ================================================================== *)
(** * The outbound sender: src/channel.ts and dist/src/channel.js *)
(* ================================================================== *)

(** What both versions of the sender share: the constants, the transport
    interface, the effects and the queue-level consumer. *)
Module Sender.

Import CardBuilder.

Definition SEND_MAX_RETRIES : Z := 120.
Definition SEND_RETRY_BASE_MS : Z := 1000.
Definition SEND_RETRY_MAX_MS : Z := 120 * 60 * 1000.

(** [calculateSendBackoff(attempt)], for [1 <= attempt]. *)
Definition calculateSendBackoff (attempt : Z) : Z :=
  let backoff := SEND_RETRY_BASE_MS * 2 ^ (Z.min (attempt - 1) 17) in
  Z.min backoff SEND_RETRY_MAX_MS.

(** [interface LarkSendResult] (src/types.ts). *)
Record LarkSendResult : Type := mkLarkSendResult {
  success : bool;
  messageId : option jsstring;
  error : option jsstring
}.

(** What awaiting one transport call gives: a result, or an exception with
    its [message]. *)
Inductive SendOutcome : Type :=
  | Returned (result : LarkSendResult)
  | Threw (message : jsstring).

(** The value [sendToLarkWithRetry] resolves to:
    [{ skipped?, messageId?, error? }]. *)
Record SendResult : Type := mkSendResult {
  skipped : bool;
  r_messageId : option jsstring;
  r_error : option jsstring
}.

Section Effects.
(** An interactive card and [buildCard({ text, sessionKey })]. *)
Variable Card : Type.
Variable buildCard : jsstring -> option jsstring -> Card.

(** ChatTransport: the outcome of its k-th call, counted from 0. *)
Variable chatTransport : nat -> SendOutcome.

(** Observable effects, oldest first. *)
Inductive Event : Type :=
  | SendText (chatId content_ : jsstring)
  | SendCard (chatId : jsstring) (card : Card)
  | Sleep (ms : Z).

Record World : Type := mkWorld {
  store : Queue.Store;
  clock : Z;
  calls : nat;
  events : list Event;
  outboundConsumerRunning : bool
}.

(** The state monad of the sender. *)
Definition M (A : Type) : Type := World -> A * World.

Definition ret {A : Type} (a : A) : M A := fun w => (a, w).

Definition bind {A B : Type} (c : M A) (k : A -> M B) : M B :=
  fun w => let '(a, w') := c w in k a w'.

Definition transportCall (e : Event) : M SendOutcome :=
  fun w =>
    (chatTransport (calls w),
     {| store := store w; clock := clock w; calls := S (calls w);
        events := events w ++ [e];
        outboundConsumerRunning := outboundConsumerRunning w |}).

(** [await client.sendText(chatId, text)]. *)
Definition sendText (chatId content_ : jsstring) : M SendOutcome :=
  transportCall (SendText chatId content_).

(** [await client.sendCard(chatId, card)]. *)
Definition sendCard (chatId : jsstring) (card : Card) : M SendOutcome :=
  transportCall (SendCard chatId card).

(** [await sleep(ms)]: the timer fires after [ms] milliseconds. *)
Definition sleep (ms : Z) : M unit :=
  fun w =>
    (tt,
     {| store := store w; clock := clock w + ms; calls := calls w;
        events := events w ++ [Sleep ms];
        outboundConsumerRunning := outboundConsumerRunning w |}).

(** A queue method, called at [Date.now()]. *)
Definition onQueue (f : Z -> Queue.Store -> Queue.Store) : M unit :=
  fun w =>
    (tt,
     {| store := f (clock w) (store w); clock := clock w;
        calls := calls w; events := events w;
        outboundConsumerRunning := outboundConsumerRunning w |}).

(** One transport attempt of the retry loop. *)
Definition sendOnce (msgType : MessageType) (chatId content_ : jsstring)
    (sessionKey : option jsstring) : M SendOutcome :=
  match msgType with
  | text => sendText chatId content_
  | _ => sendCard chatId (buildCard content_ sessionKey)
  end.

(** The tail of one loop iteration: sleep unless this was the last
    attempt, then go on with the next one. *)
Definition backoffThen {A : Type} (attempt : Z) (next : M A) : M A :=
  if attempt <? SEND_MAX_RETRIES then
    bind (sleep (calculateSendBackoff attempt)) (fun _ => next)
  else next.

(** The attempt numbers of
    [for (let attempt = 1; attempt <= SEND_MAX_RETRIES; attempt++)]. *)
Definition attemptNumbers : list Z :=
  map Z.of_nat (seq 1 (Z.to_nat SEND_MAX_RETRIES)).

Section Consumer.
(** [const sendToLark = sendToLarkWithRetry]. *)
Variable sendToLark :
  jsstring -> jsstring -> option jsstring -> M SendResult.

(** A non-empty [messageId] is truthy. *)
Definition truthy (s : option jsstring) : bool :=
  match s with
  | Some (_ :: _) => true
  | _ => false
  end.

(** The body of the loop of [processOutboundQueue], run from
    [markOutboundProcessing] to the closing mark with nothing else touching
    the store in between. *)
Definition processOutboundMessage (msg : Queue.OutboundMessage)
    : M unit :=
  let rowId := Queue.id (Queue.out_q msg) in
  bind (onQueue (fun now => Queue.markOutboundProcessing now rowId))
    (fun _ =>
  bind (sendToLark (Queue.out_chat_id msg) (Queue.content msg)
          (Some (Queue.out_session_key msg)))
    (fun result =>
  if skipped result then
    onQueue (fun now => Queue.markOutboundCompleted now rowId None)
  else if truthy (r_messageId result) then
    onQueue (fun now =>
               Queue.markOutboundCompleted now rowId (r_messageId result))
  else
    onQueue (fun now =>
               Queue.markOutboundRetry now rowId
                 (orElse (r_error result) (lit "Unknown error"))))).

(** While an [async] function waits at an [await], the other callbacks
    of the event loop run: further ticks of the two consumers (the timers
    of [startConsumers] start them whether or not the last one has
    returned), the enqueues of the webhook, the hourly cleanup.  [during]
    is what they do to the store in that time. *)
Definition meanwhile (during : Queue.Store -> Queue.Store) : M unit :=
  fun w =>
    (tt,
     {| store := during (store w); clock := clock w; calls := calls w;
        events := events w;
        outboundConsumerRunning := outboundConsumerRunning w |}).

(** The body of the loop, with the rest of the program running while it
    waits for [sendToLark]. *)
Definition processOutboundMessageAmid
    (during : Queue.Store -> Queue.Store) (msg : Queue.OutboundMessage)
    : M unit :=
  let rowId := Queue.id (Queue.out_q msg) in
  bind (onQueue (fun now => Queue.markOutboundProcessing now rowId))
    (fun _ =>
  bind (sendToLark (Queue.out_chat_id msg) (Queue.content msg)
          (Some (Queue.out_session_key msg)))
    (fun result =>
  bind (meanwhile during)
    (fun _ =>
  if skipped result then
    onQueue (fun now => Queue.markOutboundCompleted now rowId None)
  else if truthy (r_messageId result) then
    onQueue (fun now =>
               Queue.markOutboundCompleted now rowId (r_messageId result))
  else
    onQueue (fun now =>
               Queue.markOutboundRetry now rowId
                 (orElse (r_error result) (lit "Unknown error")))))).

(** The query plan of the dequeue statement, and what the rest of the
    program does to the store while iteration [i] of this tick, counted
    from 0, waits. *)
Variable plan : Queue.QueryPlan.
Variable others : nat -> Queue.Store -> Queue.Store.

(** [for (const msg of messages)], from iteration [i] on. *)
Fixpoint forEach (i : nat) (msgs : list Queue.OutboundMessage) : M unit :=
  match msgs with
  | [] => ret tt
  | msg :: rest =>
      bind (processOutboundMessageAmid (others i) msg)
        (fun _ => forEach (S i) rest)
  end.

(** One tick: [processOutboundQueue(queue, client)]. *)
Definition processOutboundQueue : M unit :=
  fun w =>
    if negb (outboundConsumerRunning w) then (tt, w)
    else forEach 0 (Queue.dequeueOutbound plan (clock w) 5 (store w)) w.
End Consumer.
End Effects.

Arguments store {Card} w.
Arguments clock {Card} w.
Arguments calls {Card} w.
Arguments events {Card} w.
Arguments outboundConsumerRunning {Card} w.
Arguments ret {Card A} a w.
Arguments bind {Card A B} c k w.
Arguments sleep {Card} ms w.
Arguments backoffThen {Card A} attempt next w.
Arguments Sleep {Card} ms.
Arguments SendText {Card} chatId content_.
Arguments SendCard {Card} chatId card.

End Sender.

(** ** src/channel.ts *)

Module Channel.

Import CardBuilder Sender.

Section Retry.
Variable Card : Type.
Variable buildCard : jsstring -> option jsstring -> Card.
Variable chatTransport : nat -> SendOutcome.

(** The iterations of the [for] loop of [sendToLarkWithRetry] that are
    still to run, and what follows the loop. *)
Fixpoint attempts (msgType : MessageType) (chatId content_ : jsstring)
    (sessionKey : option jsstring) (todo : list Z)
    (lastError : option jsstring) : M Card SendResult :=
  match todo with
  | [] =>
      ret {| skipped := false; r_messageId := None; r_error := lastError |}
  | attempt :: rest =>
      bind (sendOnce Card buildCard chatTransport msgType chatId content_
              sessionKey)
        (fun outcome =>
           match outcome with
           | Returned result =>
               if success result then
                 ret {| skipped := false;
                        r_messageId := messageId result;
                        r_error := None |}
               else
                 let lastError' :=
                   orElse (error result) (lit "Unknown error") in
                 backoffThen attempt
                   (attempts msgType chatId content_ sessionKey rest
                      (Some lastError'))
           | Threw message =>
               backoffThen attempt
                 (attempts msgType chatId content_ sessionKey rest
                    (Some message))
           end)
  end.

(** [sendToLarkWithRetry(client, chatId, content, sessionKey)]. *)
Definition sendToLarkWithRetry (chatId content_ : jsstring)
    (sessionKey : option jsstring) : M Card SendResult :=
  let msgType := selectMessageType (Some content_) in
  match msgType with
  | skip => ret {| skipped := true; r_messageId := None; r_error := None |}
  | _ =>
      attempts msgType chatId content_ sessionKey attemptNumbers None
  end.

Definition processOutboundQueue (plan : Queue.QueryPlan)
    (others : nat -> Queue.Store -> Queue.Store) : M Card unit :=
  Sender.processOutboundQueue Card sendToLarkWithRetry plan others.
End Retry.

End Channel.

(** ** dist/src/channel.js *)

Module ChannelDist.

Import CardBuilder Sender.

Definition NON_RETRYABLE_CODES : list Z :=
  [ 99991400;  (* content too long *)
    99991401;  (* invalid content *)
    230001;    (* permission denied *)
    230002;    (* bot not in chat *)
    230006;    (* user not in chat *)
    230014;    (* message recall timeout *)
    232009 ].  (* invalid image key *)

(** [NON_RETRYABLE_CODES.has(n)]. *)
Definition has (codes : list Z) (n : Z) : bool :=
  existsb (Z.eqb n) codes.

(** *** The regular expression [/\b(\d{5,})\b/] *)

Definition isWordAt (c : option codeUnit) : bool :=
  match c with
  | Some u => isWord u
  | None => false
  end.

(** [\b] between two neighbouring positions: exactly one side is a word
    character (the ends of the string count as non-word). *)
Definition wordBoundary (before after : option codeUnit) : bool :=
  xorb (isWordAt before) (isWordAt after).

(** The longest run of digits [s] starts with. *)
Fixpoint takeDigits (s : jsstring) : jsstring :=
  match s with
  | c :: s' => if isDigit c then c :: takeDigits s' else []
  | [] => []
  end.

(** The greedy [\d{5,}] followed by [\b]: try to end the group after [k]
    digits, the longest run first, giving digits back one at a time. *)
Fixpoint digitsThenBoundary (k : nat) (s : jsstring) : option jsstring :=
  if (5 <=? k)%nat && wordBoundary (nth_error s (k - 1)) (nth_error s k)
  then Some (firstn k s)
  else match k with
       | O => None
       | S k' => digitsThenBoundary k' s
       end.

(** A match that starts right here, [before] being the code unit in front. *)
Definition matchAt (before : option codeUnit) (s : jsstring)
    : option jsstring :=
  if wordBoundary before (hd_error s)
  then digitsThenBoundary (List.length (takeDigits s)) s
  else None.

(** The leftmost match; the value is capture group 1. *)
Fixpoint matchFrom (before : option codeUnit) (s : jsstring)
    : option jsstring :=
  match matchAt before s with
  | Some group => Some group
  | None =>
      match s with
      | [] => None
      | c :: s' => matchFrom (Some c) s'
      end
  end.

(** [lastError.match(/\b(\d{5,})\b/)], reduced to [codeMatch[1]]. *)
Definition codeMatch (lastError : jsstring) : option jsstring :=
  matchFrom None lastError.

(** [Number(digits)] on a string of decimal digits. *)
Definition Number (digits : jsstring) : Z :=
  fold_left (fun acc d => 10 * acc + (Z.of_N d - 48)) digits 0.

(** [codeMatch && NON_RETRYABLE_CODES.has(Number(codeMatch[1]))]. *)
Definition nonRetryable (lastError : jsstring) : bool :=
  match codeMatch lastError with
  | Some group => has NON_RETRYABLE_CODES (Number group)
  | None => false
  end.

Section Retry.
Variable Card : Type.
Variable buildCard : jsstring -> option jsstring -> Card.
Variable chatTransport : nat -> SendOutcome.

(** The iterations of the [for] loop of [sendToLarkWithRetry] that are
    still to run, and what follows the loop. *)
Fixpoint attempts (msgType : MessageType) (chatId content_ : jsstring)
    (sessionKey : option jsstring) (todo : list Z)
    (lastError : option jsstring) : M Card SendResult :=
  match todo with
  | [] =>
      ret {| skipped := false; r_messageId := None; r_error := lastError |}
  | attempt :: rest =>
      bind (sendOnce Card buildCard chatTransport msgType chatId content_
              sessionKey)
        (fun outcome =>
           match outcome with
           | Returned result =>
               if success result then
                 ret {| skipped := false;
                        r_messageId := messageId result;
                        r_error := None |}
               else
                 let lastError' :=
                   orElse (error result) (lit "Unknown error") in
                 if nonRetryable lastError' then
                   ret {| skipped := false; r_messageId := None;
                          r_error := Some lastError' |}
                 else
                   backoffThen attempt
                     (attempts msgType chatId content_ sessionKey rest
                        (Some lastError'))
           | Threw message =>
               backoffThen attempt
                 (attempts msgType chatId content_ sessionKey rest
                    (Some message))
           end)
  end.

(** [sendToLarkWithRetry(client, chatId, content, sessionKey)]. *)
Definition sendToLarkWithRetry (chatId content_ : jsstring)
    (sessionKey : option jsstring) : M Card SendResult :=
  let msgType := selectMessageType (Some content_) in
  match msgType with
  | skip => ret {| skipped := true; r_messageId := None; r_error := None |}
  | _ =>
      attempts msgType chatId content_ sessionKey attemptNumbers None
  end.

Definition processOutboundQueue (plan : Queue.QueryPlan)
    (others : nat -> Queue.Store -> Queue.Store) : M Card unit :=
  Sender.processOutboundQueue Card sendToLarkWithRetry plan others.
End Retry.

End ChannelDist.

(* ================================================================== *)
(** * More of src/queue.ts and src/channel.ts *)
(* ================================================================== *)

(** ** [getStats] (src/queue.ts) *)

Module Stats.

Import Queue.

(** One side of [interface QueueStats]. *)
Record Counts : Type := mkCounts {
  n_pending : Z;
  n_processing : Z;
  n_completed : Z;
  n_failed : Z
}.

Record QueueStats : Type := mkQueueStats {
  stats_outbound : Counts;
  stats_inbound : Counts;
  stats_dbPath : jsstring
}.

(** [COUNT(CASE WHEN status = ? THEN 1 END)] over the selected rows. *)
Definition countStatus (st : Status) (rows : list QueueMessage) : Z :=
  Z.of_nat (List.length (filter (fun q => status_eqb (status q) st) rows)).

(** The four counts of one table, [WHERE created_at > cutoff]. *)
Definition countsSince (cutoff : Z) (rows : list QueueMessage) : Counts :=
  let recent := filter (fun q => cutoff <? created_at q) rows in
  {| n_pending := countStatus pending recent;
     n_processing := countStatus processing recent;
     n_completed := countStatus completed recent;
     n_failed := countStatus failed_permanent recent |}.

(** [getStats()]; [dbPath] is the field of the queue object. *)
Definition getStats (dbPath : jsstring) (now : Z) (s : Store) : QueueStats :=
  let cutoff := now - MESSAGE_TTL_MS in
  {| stats_outbound := countsSince cutoff (map out_q (outbound_queue s));
     stats_inbound := countsSince cutoff (map in_q (inbound_queue s));
     stats_dbPath := dbPath |}.

End Stats.

(** ** [processInboundQueue] (src/channel.ts) *)

Module InboundConsumer.

Import Queue.

(** How one [askGateway] call ends: the promise resolves with the reply
    text or rejects with an error, some milliseconds after the call. *)
Inductive GatewayResult : Type :=
  | Resolved (replyText : jsstring)
  | Rejected (message : jsstring).

Record GatewayAnswer : Type := mkGatewayAnswer {
  elapsed : Z;
  result : GatewayResult
}.

Section Consumer.
(** A parsed attachments array, and [JSON.parse], which returns it or
    throws an error with a message. *)
Variable Attachments : Type.
Variable JSON_parse : jsstring -> Attachments + jsstring.

(** The gateway: the answer to its k-th call, counted from 0. *)
Variable gateway : nat -> GatewayAnswer.

(** The arguments of one [askGateway] call that vary per message. *)
Record GatewayCall : Type := mkGatewayCall {
  g_message : jsstring;
  g_attachments : option Attachments;
  g_sessionKey : jsstring;
  g_chatId : jsstring;
  g_idempotencyKey : jsstring
}.

Record World : Type := mkWorld {
  store : Store;
  clock : Z;
  calls : nat;
  asked : list GatewayCall;
  inboundConsumerRunning : bool
}.

Definition M (A : Type) : Type := World -> A * World.

Definition bind {A B : Type} (c : M A) (k : A -> M B) : M B :=
  fun w => let '(a, w') := c w in k a w'.

Definition ret {A : Type} (a : A) : M A := fun w => (a, w).

(** A queue method, called at [Date.now()]. *)
Definition onQueue (f : Z -> Store -> Store) : M unit :=
  fun w =>
    (tt,
     {| store := f (clock w) (store w); clock := clock w; calls := calls w;
        asked := asked w;
        inboundConsumerRunning := inboundConsumerRunning w |}).

(** [await askGateway({...})]. *)
Definition askGateway (call : GatewayCall) : M GatewayResult :=
  fun w =>
    let answer := gateway (calls w) in
    (result answer,
     {| store := store w; clock := clock w + elapsed answer;
        calls := S (calls w); asked := asked w ++ [call];
        inboundConsumerRunning := inboundConsumerRunning w |}).

(** [msg.attachments_json ? JSON.parse(msg.attachments_json) : undefined]:
    [null] and the empty string are falsy. *)
Definition parseAttachments (attachmentsJson : option jsstring)
    : option Attachments + jsstring :=
  match attachmentsJson with
  | Some (c :: text_) =>
      match JSON_parse (c :: text_) with
      | inl parsed => inl (Some parsed)
      | inr message => inr message
      end
  | _ => inl None
  end.

(** The body of the loop of [processInboundQueue], run from
    [markInboundProcessing] to the closing mark with nothing else touching
    the store in between: everything after [markInboundProcessing] runs
    inside [try], and the [catch] calls [markInboundRetry] with the
    message of the error. *)
Definition processInboundMessage (msg : InboundMessage) : M unit :=
  let rowId := id (in_q msg) in
  bind (onQueue (fun now => markInboundProcessing now rowId))
    (fun _ =>
  match parseAttachments (attachments_json msg) with
  | inr message =>
      onQueue (fun now => markInboundRetry now rowId message)
  | inl attachments =>
      bind (askGateway
              {| g_message := message_text msg;
                 g_attachments := attachments;
                 g_sessionKey := in_session_key msg;
                 g_chatId := in_chat_id msg;
                 g_idempotencyKey := lit "inbound-" ++ message_id msg |})
        (fun outcome =>
           match outcome with
           | Resolved _ =>
               onQueue (fun now =>
                          markInboundCompleted now rowId (lit "delivered"))
           | Rejected message =>
               onQueue (fun now => markInboundRetry now rowId message)
           end)
  end).

(** While the function waits at [await askGateway], the other callbacks
    of the event loop run: further ticks of the two consumers (the timers
    of [startConsumers] start them whether or not the last one has
    returned), the enqueues of the webhook, the hourly cleanup.  [during]
    is what they do to the store in that time. *)
Definition meanwhile (during : Store -> Store) : M unit :=
  fun w =>
    (tt,
     {| store := during (store w); clock := clock w; calls := calls w;
        asked := asked w;
        inboundConsumerRunning := inboundConsumerRunning w |}).

(** The body of the loop, with the rest of the program running while it
    waits for the gateway.  Attachments that do not parse are caught
    before any [await]. *)
Definition processInboundMessageAmid (during : Store -> Store)
    (msg : InboundMessage) : M unit :=
  let rowId := id (in_q msg) in
  bind (onQueue (fun now => markInboundProcessing now rowId))
    (fun _ =>
  match parseAttachments (attachments_json msg) with
  | inr message =>
      onQueue (fun now => markInboundRetry now rowId message)
  | inl attachments =>
      bind (askGateway
              {| g_message := message_text msg;
                 g_attachments := attachments;
                 g_sessionKey := in_session_key msg;
                 g_chatId := in_chat_id msg;
                 g_idempotencyKey := lit "inbound-" ++ message_id msg |})
        (fun outcome =>
      bind (meanwhile during)
        (fun _ =>
           match outcome with
           | Resolved _ =>
               onQueue (fun now =>
                          markInboundCompleted now rowId (lit "delivered"))
           | Rejected message =>
               onQueue (fun now => markInboundRetry now rowId message)
           end))
  end).

(** The query plan of the dequeue statement, and what the rest of the
    program does to the store while iteration [i] of this tick, counted
    from 0, waits. *)
Variable plan : QueryPlan.
Variable others : nat -> Store -> Store.

(** [for (const msg of messages)], from iteration [i] on. *)
Fixpoint forEach (i : nat) (msgs : list InboundMessage) : M unit :=
  match msgs with
  | [] => ret tt
  | msg :: rest =>
      bind (processInboundMessageAmid (others i) msg)
        (fun _ => forEach (S i) rest)
  end.

(** One tick:
    [processInboundQueue(queue, gatewayToken, gatewayPort, agentId)]. *)
Definition processInboundQueue : M unit :=
  fun w =>
    if negb (inboundConsumerRunning w) then (tt, w)
    else forEach 0 (dequeueInbound plan (clock w) 3 (store w)) w.
End Consumer.

Arguments store {Attachments} w.
Arguments clock {Attachments} w.
Arguments calls {Attachments} w.
Arguments asked {Attachments} w.
Arguments inboundConsumerRunning {Attachments} w.

End InboundConsumer.

(** ** [listLarkAccountIds] (src/channel.ts) *)

Module Accounts.

Definition DEFAULT_ACCOUNT_ID : jsstring := lit "default".

(** [cfg.channels?.lark], as far as [listLarkAccountIds] reads it:
    whether [accounts] is set and, if so, [Object.keys(accounts)]. *)
Record LarkChannelConfig : Type := mkLarkChannelConfig {
  accountKeys : option (list jsstring)
}.

Definition listLarkAccountIds (larkConfig : option LarkChannelConfig)
    : list jsstring :=
  match larkConfig with
  | None => []
  | Some cfg =>
      match accountKeys cfg with
      | Some keys =>
          DEFAULT_ACCOUNT_ID
          :: filter (fun key => negb (str_eqb key DEFAULT_ACCOUNT_ID)) keys
      | None => [DEFAULT_ACCOUNT_ID]
      end
  end.

End Accounts.

(** ** [outbound.chunker] (src/channel.ts) *)

Module Chunker.

(** A non-empty string is truthy. *)
Definition nonEmpty (s : jsstring) : bool :=
  match s with
  | [] => false
  | _ :: _ => true
  end.

(** One iteration of [for (const line of text.split('\n'))], on the pair
    of [chunks] and [current]. *)
Definition chunkLine (limit : Z) (state : list jsstring * jsstring)
    (line : jsstring) : list jsstring * jsstring :=
  let '(chunks, current) := state in
  if strLength current + strLength line + 1 >? limit then
    ((if nonEmpty current then chunks ++ [current] else chunks), line)
  else
    (chunks,
     if nonEmpty current then current ++ [LF] ++ line else line).

(** [chunker(text, limit)]. *)
Definition chunker (text_ : jsstring) (limit : Z) : list jsstring :=
  let '(chunks, current) :=
    fold_left (chunkLine limit) (splitLF text_) ([], []) in
  if nonEmpty current then chunks ++ [current] else chunks.

End Chunker.

(* ================================================================== *)
(** * Vocabulary of the statements *)
(* ================================================================== *)

Module Spec.

Import Queue.

(** The backoff formula of the specification. *)
Definition backoff (n : Z) : Z :=
  Z.min (1000 * 2 ^ (Z.min (n - 1) 17)) (120 * 60 * 1000).

(** Consecutive [markInboundRetry] calls on one row; each call comes with
    its clock reading and its error message. *)
Definition inboundRetries (rowId : Z) (calls : list (Z * jsstring))
    (s : Store) : Store :=
  fold_left (fun st c => markInboundRetry (fst c) rowId (snd c) st) calls s.

Definition outboundRetries (rowId : Z) (calls : list (Z * jsstring))
    (s : Store) : Store :=
  fold_left (fun st c => markOutboundRetry (fst c) rowId (snd c) st) calls s.

(** [SELECT * FROM inbound_queue WHERE id = ?]. *)
Definition inboundRow (rowId : Z) (s : Store) : option InboundMessage :=
  select_first (in_has_id rowId) (inbound_queue s).

Definition outboundRow (rowId : Z) (s : Store) : option OutboundMessage :=
  select_first (out_has_id rowId) (outbound_queue s).

(** The two terminal states. *)
Definition terminal (st : Status) : bool :=
  status_eqb st completed || status_eqb st failed_permanent.

(** The two queues, to state what holds for both of them. *)
Inductive Kind : Type := Inbound | Outbound.

(** The [QueueMessage] columns of row [rowId] of a queue, if it is there. *)
Definition baseRow (k : Kind) (rowId : Z) (s : Store) : option QueueMessage :=
  match k with
  | Inbound => option_map in_q (inboundRow rowId s)
  | Outbound => option_map out_q (outboundRow rowId s)
  end.

(** The [QueueMessage] columns of all rows of a queue, in rowid order. *)
Definition baseRows (k : Kind) (s : Store) : list QueueMessage :=
  match k with
  | Inbound => map in_q (inbound_queue s)
  | Outbound => map out_q (outbound_queue s)
  end.

Definition markProcessing (k : Kind) : Z -> Z -> Store -> Store :=
  match k with
  | Inbound => markInboundProcessing
  | Outbound => markOutboundProcessing
  end.

Definition markRetry (k : Kind) : Z -> Z -> jsstring -> Store -> Store :=
  match k with
  | Inbound => markInboundRetry
  | Outbound => markOutboundRetry
  end.

(** What [markCompleted] stores: the response text of an inbound message,
    the delivered message id (or [null]) of an outbound one. *)
Definition ResultOf (k : Kind) : Type :=
  match k with
  | Inbound => jsstring
  | Outbound => option jsstring
  end.

Definition markCompleted (k : Kind)
    : Z -> Z -> ResultOf k -> Store -> Store :=
  match k with
  | Inbound => markInboundCompleted
  | Outbound => markOutboundCompleted
  end.

(** What [resetStuckMessages] does to one inbound row: a [processing] row
    becomes [pending] with a new [updated_at] and is otherwise the same;
    any other row stays as it is. *)
Definition inboundReset (now : Z) (m m' : InboundMessage) : Prop :=
  match status (in_q m) with
  | processing =>
      status (in_q m') = pending /\
      updated_at (in_q m') = now /\
      retries (in_q m') = retries (in_q m) /\
      id (in_q m') = id (in_q m) /\
      next_retry_at (in_q m') = next_retry_at (in_q m) /\
      created_at (in_q m') = created_at (in_q m) /\
      completed_at (in_q m') = completed_at (in_q m) /\
      last_error (in_q m') = last_error (in_q m) /\
      message_id m' = message_id m /\
      in_chat_id m' = in_chat_id m /\
      in_session_key m' = in_session_key m /\
      message_text m' = message_text m /\
      attachments_json m' = attachments_json m /\
      response_text m' = response_text m
  | _ => m' = m
  end.

Definition outboundReset (now : Z) (m m' : OutboundMessage) : Prop :=
  match status (out_q m) with
  | processing =>
      status (out_q m') = pending /\
      updated_at (out_q m') = now /\
      retries (out_q m') = retries (out_q m) /\
      id (out_q m') = id (out_q m) /\
      next_retry_at (out_q m') = next_retry_at (out_q m) /\
      created_at (out_q m') = created_at (out_q m) /\
      completed_at (out_q m') = completed_at (out_q m) /\
      last_error (out_q m') = last_error (out_q m) /\
      queue_type m' = queue_type m /\
      run_id m' = run_id m /\
      out_session_key m' = out_session_key m /\
      out_chat_id m' = out_chat_id m /\
      content m' = content m /\
      content_hash m' = content_hash m /\
      lark_message_id m' = lark_message_id m
  | _ => m' = m
  end.

(** A row of either queue table. *)
Definition AnyRow : Type := (InboundMessage + OutboundMessage)%type.

Definition rows (s : Store) : list AnyRow :=
  map inl (inbound_queue s) ++ map inr (outbound_queue s).

Definition rowBase (r : AnyRow) : QueueMessage :=
  match r with
  | inl m => in_q m
  | inr m => out_q m
  end.

(** [op] is a mark call of the queue of [r] with the id of [r]. *)
Definition addressedTo {Attachment : Type} (op : Op Attachment) (r : AnyRow)
    : bool :=
  match op, r with
  | MarkInboundProcessing _ rowId, inl m
  | MarkInboundCompleted _ rowId _, inl m
  | MarkInboundRetry _ rowId _, inl m => id (in_q m) =? rowId
  | MarkOutboundProcessing _ rowId, inr m
  | MarkOutboundCompleted _ rowId _, inr m
  | MarkOutboundRetry _ rowId _, inr m => id (out_q m) =? rowId
  | _, _ => false
  end.

(** The row is a [completed] one that is older than the TTL at [now]. *)
Definition expired (now : Z) (q : QueueMessage) : Prop :=
  status q = completed /\ created_at q < now - MESSAGE_TTL_MS.

(** [created] lies inside the dedup window that ends at [now]. *)
Definition inWindow (now created : Z) : Prop :=
  now - DEDUP_WINDOW_MS < created.

(** A pending or processing outbound row with this [(contentHash, chatId)],
    created within the window. *)
Definition unresolvedDuplicate (hash chatId : jsstring) (now : Z)
    (s : Store) : Prop :=
  exists m,
    In m (outbound_queue s) /\
    content_hash m = hash /\ out_chat_id m = chatId /\
    inWindow now (created_at (out_q m)) /\
    (status (out_q m) = pending \/ status (out_q m) = processing).

(** A SentRecord with this [(contentHash, chatId)], created within the
    window. *)
Definition sentDuplicate (hash chatId : jsstring) (now : Z)
    (s : Store) : Prop :=
  exists r,
    In r (sent_messages s) /\
    sent_content_hash r = hash /\ sent_chat_id r = chatId /\
    inWindow now (sent_created_at r).

Definition rejected (why : string) : EnqueueResult :=
  {| enqueued := false; reason := Some (lit why); res_id := None;
     existing := None |}.

Definition accepted (rowId : Z) : EnqueueResult :=
  {| enqueued := true; reason := None; res_id := Some rowId;
     existing := None |}.

(** The store with the rows and SentRecords of one chat only. *)
Definition forChat (chatId : jsstring) (s : Store) : Store :=
  {| outbound_queue :=
       filter (fun m => str_eqb (out_chat_id m) chatId) (outbound_queue s);
     outbound_seq := outbound_seq s;
     inbound_queue := inbound_queue s; inbound_seq := inbound_seq s;
     sent_messages :=
       filter (fun r => str_eqb (sent_chat_id r) chatId) (sent_messages s);
     sent_seq := sent_seq s |}.

(** [next_retry_at] is null or not after [now]. *)
Definition dueAt (now : Z) (q : QueueMessage) : Prop :=
  next_retry_at q = None \/
  exists t, next_retry_at q = Some t /\ t <= now.

(** Oldest first. *)
Definition olderOrSame {Row : Type} (base : Row -> QueueMessage)
    (a b : Row) : Prop :=
  created_at (base a) <= created_at (base b).

(** [out] is what a dequeue of at most [limit] rows returns from [tbl] at
    time [now]: together with the rows [rest] it leaves behind, it is the
    collection of the rows of [tbl] that pass the [WHERE] clause; it is
    ordered by [created_at]; no row left behind is older than a returned
    one; and rows are left behind only when the limit is reached. *)
Definition dequeued {Row : Type} (base : Row -> QueueMessage) (now : Z)
    (limit : nat) (tbl out : list Row) : Prop :=
  exists rest,
    Permutation (out ++ rest)
      (filter (fun m => dequeueable now (base m)) tbl) /\
    Sorted (olderOrSame base) out /\
    Forall (fun a => Forall (olderOrSame base a) rest) out /\
    List.length out = Nat.min limit (List.length (out ++ rest)).

(** The two skip markers. *)
Definition isSentinel (t : jsstring) : Prop :=
  t = lit "NO_REPLY" \/ t = lit "HEARTBEAT_OK".

(** The number of lines of a text: one more than its line feeds. *)
Definition lineCount (t : jsstring) : Z :=
  Z.of_nat (S (count_occ N.eq_dec t LF)).

(** Short, and at most two lines. *)
Definition shortText (t : jsstring) : Prop :=
  strLength t < 100 /\ lineCount t <= 2.

(** Ascending order of a numeric key. *)
Definition keyLe {Row : Type} (key : Row -> Z) (a b : Row) : Prop :=
  key a <= key b.

(** What one [markRetry] writes into the shared columns of its row. *)
Definition retried (now : Z) (err : jsstring) (q q' : QueueMessage) : Prop :=
  id q' = id q /\
  created_at q' = created_at q /\
  retries q' = retries q + 1 /\
  updated_at q' = now /\
  last_error q' = Some err /\
  completed_at q' = None /\
  (if retries q + 1 >=? MAX_RETRIES
   then status q' = failed_permanent /\ next_retry_at q' = None
   else status q' = pending /\
        next_retry_at q' = Some (now + calculateBackoff (retries q + 1))).

Section SenderVocabulary.
Variable Card : Type.
Variable buildCard : jsstring -> option jsstring -> Card.

(** The world after one transport call that logged event [e]. *)
Definition called (e : Sender.Event Card) (w : Sender.World Card)
    : Sender.World Card :=
  {| Sender.store := Sender.store w; Sender.clock := Sender.clock w;
     Sender.calls := S (Sender.calls w);
     Sender.events := Sender.events w ++ [e];
     Sender.outboundConsumerRunning := Sender.outboundConsumerRunning w |}.

(** The world after sleeping [ms] milliseconds. *)
Definition slept (ms : Z) (w : Sender.World Card)
    : Sender.World Card :=
  {| Sender.store := Sender.store w; Sender.clock := Sender.clock w + ms;
     Sender.calls := Sender.calls w;
     Sender.events := Sender.events w ++ [Sender.Sleep ms];
     Sender.outboundConsumerRunning := Sender.outboundConsumerRunning w |}.

(** The event of one attempt. *)
Definition sendEvent (msgType : CardBuilder.MessageType)
    (chatId content_ : jsstring) (sessionKey : option jsstring)
    : Sender.Event Card :=
  match msgType with
  | CardBuilder.text => Sender.SendText chatId content_
  | _ => Sender.SendCard chatId (buildCard content_ sessionKey)
  end.

End SenderVocabulary.

Arguments called {Card} e w.
Arguments slept {Card} ms w.

(** Consecutive [markRetry] calls on one row. *)
Definition retriesOf (k : Kind) (rowId : Z) (calls : list (Z * jsstring))
    (s : Store) : Store :=
  match k with
  | Inbound => inboundRetries rowId calls s
  | Outbound => outboundRetries rowId calls s
  end.

End Spec.

(* ================================================================== *)
(** * Example stores, built through the queue's own methods *)
(* ================================================================== *)

Module Examples.

Import Queue Spec.

Definition emptyStore : Store :=
  {| outbound_queue := []; outbound_seq := 0;
     inbound_queue := []; inbound_seq := 0;
     sent_messages := []; sent_seq := 0 |}.

(** Two query plans: one delivers the matching rows in rowid order, the
    other with the highest rowid first. *)
Definition rowidOrder : QueryPlan :=
  {| visitOutbound := fun _ _ => 0; visitInbound := fun _ _ => 0 |}.

Definition newestFirst : QueryPlan :=
  {| visitOutbound := fun _ m => - id (out_q m);
     visitInbound := fun _ m => - id (in_q m) |}.

(** Stand-ins for md5 and for [JSON.stringify] on attachments; any other
    choice serves as well. *)
Definition sampleHash (content_ : jsstring) : jsstring :=
  lit "md5:" ++ content_.

Definition sampleStringify (attachments : list unit) : jsstring :=
  lit "[]".

Definition inboundHi : InboundParams unit :=
  {| p_messageId := lit "m1"; p_inChatId := lit "c1";
     p_inSessionKey := lit "s1"; p_messageText := lit "hi";
     p_attachments := None |}.

(** [enqueueInbound("m1","c1","s1","hi")] at time 1000. *)
Definition oneInbound : Store :=
  snd (enqueueInbound unit sampleStringify inboundHi 1000 emptyStore).

(** ... then [markInboundCompleted(1, "resp")] at time 2000. *)
Definition oneInboundCompleted : Store :=
  markInboundCompleted 2000 1 (lit "resp") oneInbound.

Definition completedRow : InboundMessage :=
  {| in_q :=
       {| id := 1; status := completed; retries := 0;
          next_retry_at := None; created_at := 1000; updated_at := 2000;
          completed_at := Some 2000; last_error := None |};
     message_id := lit "m1"; in_chat_id := lit "c1";
     in_session_key := lit "s1"; message_text := lit "hi";
     attachments_json := None; response_text := Some (lit "resp") |}.

(** The same message id again, with another text. *)
Definition inboundHiAgain : InboundParams unit :=
  {| p_messageId := lit "m1"; p_inChatId := lit "c1";
     p_inSessionKey := lit "s1"; p_messageText := lit "hi again";
     p_attachments := None |}.

Definition timeouts118 : list (Z * jsstring) :=
  repeat (5000, lit "Gateway timeout") 118.

Definition outboundHi (chatId : jsstring) : OutboundParams :=
  {| p_runId := None; p_sessionKey := lit "s"; p_chatId := chatId;
     p_content := lit "hi" |}.

(** [enqueueOutbound("reply","s","c1","hi")] at time 0 ... *)
Definition oneOutbound : Store :=
  snd (enqueueOutbound sampleHash reply (outboundHi (lit "c1")) 0 emptyStore).

(** ... the same once more, just after the dedup window has passed ... *)
Definition twoOutbound : Store :=
  snd (enqueueOutbound sampleHash reply (outboundHi (lit "c1")) 600001
         oneOutbound).

(** ... and the first of the two rows delivered and completed. *)
Definition firstDelivered : Store :=
  markOutboundCompleted 600002 1 (Some (lit "om_1")) twoOutbound.

(** A long text of several paragraphs. *)
Definition longText : jsstring :=
  List.concat
    (repeat
       (lit "This is a longer message that spans multiple lines." ++ [LF])
       5).

(** A failure of ChatTransport that carries a non-retryable code. *)
Definition permissionDeniedError : jsstring :=
  lit "Lark API error 230001: permission denied".

Definition permissionDenied : Sender.SendOutcome :=
  Sender.Returned
    {| Sender.success := false; Sender.messageId := None;
       Sender.error := Some permissionDeniedError |}.

(** A transport that rejects every call in this way. *)
Definition alwaysDenied (k : nat) : Sender.SendOutcome := permissionDenied.

Definition noCard (text_ : jsstring) (sessionKey : option jsstring) : unit :=
  tt.

Definition idle : Sender.World unit :=
  {| Sender.store := emptyStore; Sender.clock := 0; Sender.calls := 0;
     Sender.events := []; Sender.outboundConsumerRunning := true |}.

(** [sendToLarkWithRetry(client, "c1", "hi")] against that transport, as
    src/channel.ts and as dist/src/channel.js have it. *)
Definition deniedRunTs : Sender.SendResult * Sender.World unit :=
  Channel.sendToLarkWithRetry unit noCard alwaysDenied
    (lit "c1") (lit "hi") None idle.

Definition deniedRunDist : Sender.SendResult * Sender.World unit :=
  ChannelDist.sendToLarkWithRetry unit noCard alwaysDenied
    (lit "c1") (lit "hi") None idle.

(** The row of ["m1"] as [oneInbound] holds it. *)
Definition hiRow : InboundMessage :=
  {| in_q := fresh_row 1 1000 1000 1000;
     message_id := lit "m1"; in_chat_id := lit "c1";
     in_session_key := lit "s1"; message_text := lit "hi";
     attachments_json := None; response_text := None |}.

(** A gateway that resolves every call after half a second, a
    [JSON.parse] that accepts every text, and the inbound consumer about
    to take that row. *)
Definition answering (k : nat) : InboundConsumer.GatewayAnswer :=
  {| InboundConsumer.elapsed := 500;
     InboundConsumer.result := InboundConsumer.Resolved (lit "ok") |}.

Definition parsesAll (text_ : jsstring) : (unit + jsstring)%type := inl tt.

Definition inboundReady : InboundConsumer.World unit :=
  {| InboundConsumer.store := oneInbound; InboundConsumer.clock := 2000;
     InboundConsumer.calls := 0; InboundConsumer.asked := [];
     InboundConsumer.inboundConsumerRunning := true |}.

(** Nothing else runs while a tick waits. *)
Definition alone (i : nat) (s : Store) : Store := s.

(** The outbound consumer about to take the row of [oneOutbound]. *)
Definition outboundReady : Sender.World unit :=
  {| Sender.store := oneOutbound; Sender.clock := 1000; Sender.calls := 0;
     Sender.events := []; Sender.outboundConsumerRunning := true |}.

Definition isSleep (e : Sender.Event unit) : bool :=
  match e with
  | Sender.Sleep _ => true
  | _ => false
  end.

End Examples.

(* ================================================================== *)
(** * Vocabulary of the further properties *)
(* ================================================================== *)

Module Props.

Import Queue Spec.

(** The columns that identify an inbound row and say what it carries. *)
Definition inKey (m : InboundMessage)
    : Z * Z * jsstring * jsstring * jsstring * jsstring * option jsstring :=
  (id (in_q m), created_at (in_q m), message_id m, in_chat_id m,
   in_session_key m, message_text m, attachments_json m).

(** The same for an outbound row. *)
Definition outKey (m : OutboundMessage)
    : Z * Z * QueueType * jsstring * jsstring * jsstring * jsstring
      * jsstring :=
  (id (out_q m), created_at (out_q m), queue_type m, run_id m,
   out_session_key m, out_chat_id m, content m, content_hash m).

(** The rows of both queue tables, reduced to those columns, with the two
    rowid counters. *)
Definition identity (s : Store) :=
  (map inKey (inbound_queue s), inbound_seq s,
   map outKey (outbound_queue s), outbound_seq s).

(** The operations that neither insert nor delete: the mark calls, the
    dequeues and the two stuck-row recoveries. *)
Definition isRowUpdate {Attachment : Type} (op : Op Attachment) : bool :=
  match op with
  | EnqueueOutbound _ _ _ | EnqueueInbound _ _ | Cleanup _ => false
  | _ => true
  end.

(** The ids are distinct and none is above the counter. *)
Definition idsWithin (ids : list Z) (seq : Z) : Prop :=
  NoDup ids /\ Forall (fun i => i <= seq) ids.

(** Every table has distinct rowids, all handed out by its counter. *)
Definition uniqueIds (s : Store) : Prop :=
  idsWithin (map (fun m => id (in_q m)) (inbound_queue s)) (inbound_seq s) /\
  idsWithin (map (fun m => id (out_q m)) (outbound_queue s))
    (outbound_seq s) /\
  idsWithin (map sent_id (sent_messages s)) (sent_seq s).

(** The [UNIQUE] constraint of [inbound_queue.message_id]. *)
Definition uniqueMessageIds (s : Store) : Prop :=
  NoDup (map message_id (inbound_queue s)).

(** Every outbound row carries the hash of its own content. *)
Definition hashesFit (hashContent : jsstring -> jsstring) (s : Store)
    : Prop :=
  Forall (fun m => content_hash m = hashContent (content m))
    (outbound_queue s).

(** A row is [failed_permanent] only with at least [MAX_RETRIES] retries
    on its counter. *)
Definition exhaustedOnly (q : QueueMessage) : Prop :=
  status q = failed_permanent -> MAX_RETRIES <= retries q.

Definition failuresExhausted (s : Store) : Prop :=
  Forall exhaustedOnly (baseRows Inbound s) /\
  Forall exhaustedOnly (baseRows Outbound s).

(** [op] is [markRetry] of queue [k] for row [rowId]. *)
Definition isRetryOf {Attachment : Type} (op : Op Attachment) (k : Kind)
    (rowId : Z) : bool :=
  match op, k with
  | MarkInboundRetry _ i _, Inbound => i =? rowId
  | MarkOutboundRetry _ i _, Outbound => i =? rowId
  | _, _ => false
  end.

(** [op] is a [markOutboundCompleted] call. *)
Definition isOutboundCompletion {Attachment : Type} (op : Op Attachment)
    : bool :=
  match op with
  | MarkOutboundCompleted _ _ _ => true
  | _ => false
  end.

Definition isCleanup {Attachment : Type} (op : Op Attachment) : bool :=
  match op with
  | Cleanup _ => true
  | _ => false
  end.

(** The shared columns of the rows a dequeue returns. *)
Definition dequeuedBase (k : Kind) (plan : QueryPlan) (now : Z)
    (limit : nat) (s : Store) : list QueueMessage :=
  match k with
  | Inbound => map in_q (dequeueInbound plan now limit s)
  | Outbound => map out_q (dequeueOutbound plan now limit s)
  end.

(** The five minutes of [recoverStuck]. *)
Definition STUCK_MS : Z := 5 * 60 * 1000.

(** A history of calls, each with the time it is made at, oldest first. *)
Definition run (hashContent : jsstring -> jsstring) (Attachment : Type)
    (JSON_stringify : list Attachment -> jsstring)
    (history : list (Z * Op Attachment)) (s : Store) : Store :=
  fold_left
    (fun st call =>
       exec hashContent Attachment JSON_stringify (fst call) (snd call) st)
    history s.

(** The transport call did not report success. *)
Definition failedCall (o : Sender.SendOutcome) : Prop :=
  match o with
  | Sender.Returned res => Sender.success res = false
  | Sender.Threw _ => True
  end.

(** The error text of a call that did not succeed. *)
Definition errorOf (o : Sender.SendOutcome) : jsstring :=
  match o with
  | Sender.Returned res => orElse (Sender.error res) (lit "Unknown error")
  | Sender.Threw message => message
  end.

(** The result the sender returns when [o] is the answer to its last
    transport call. *)
Definition resultOf (o : Sender.SendOutcome) : Sender.SendResult :=
  match o with
  | Sender.Returned res =>
      if Sender.success res then
        {| Sender.skipped := false;
           Sender.r_messageId := Sender.messageId res;
           Sender.r_error := None |}
      else
        {| Sender.skipped := false; Sender.r_messageId := None;
           Sender.r_error := Some (errorOf o) |}
  | Sender.Threw _ =>
      {| Sender.skipped := false; Sender.r_messageId := None;
         Sender.r_error := Some (errorOf o) |}
  end.

(** The answer is a returned failure whose error text passes [stop]. *)
Definition stopsWith (stop : jsstring -> bool) (o : Sender.SendOutcome)
    : bool :=
  match o with
  | Sender.Returned res => negb (Sender.success res) && stop (errorOf o)
  | Sender.Threw _ => false
  end.

(** The answer is a returned failure with a non-retryable code. *)
Definition stopsDist : Sender.SendOutcome -> bool :=
  stopsWith ChannelDist.nonRetryable.

Section SenderRuns.
Variable Card : Type.

(** What [k] transport calls leave in the log when the first of them is
    attempt number [a]: the send event, [k] times, with the backoff sleep
    of each attempt between it and the next. *)
Fixpoint traceFrom (e : Sender.Event Card) (a k : nat)
    : list (Sender.Event Card) :=
  match k with
  | O => []
  | S k' =>
      e :: match k' with
           | O => []
           | S _ =>
               Sender.Sleep (Sender.calculateSendBackoff (Z.of_nat a))
               :: traceFrom e (S a) k'
           end
  end.

(** The milliseconds slept in such a run. *)
Fixpoint sleepTotal (a k : nat) : Z :=
  match k with
  | O => 0
  | S k' =>
      match k' with
      | O => 0
      | S _ =>
          Sender.calculateSendBackoff (Z.of_nat a) + sleepTotal (S a) k'
      end
  end.

(** The world after such a run. *)
Definition afterRun (w : Sender.World Card) (e : Sender.Event Card)
    (a k : nat) : Sender.World Card :=
  {| Sender.store := Sender.store w;
     Sender.clock := Sender.clock w + sleepTotal a k;
     Sender.calls := Sender.calls w + k;
     Sender.events := Sender.events w ++ traceFrom e a k;
     Sender.outboundConsumerRunning := Sender.outboundConsumerRunning w |}.

(** The retry loop both versions of the sender run, for a fixed send
    event; [stop] is the test on the error text that ends it early. *)
Variable chatTransport : nat -> Sender.SendOutcome.

Fixpoint loop (stop : jsstring -> bool) (e : Sender.Event Card)
    (todo : list Z) (lastError : option jsstring)
    : Sender.M Card Sender.SendResult :=
  match todo with
  | [] =>
      Sender.ret {| Sender.skipped := false; Sender.r_messageId := None;
                    Sender.r_error := lastError |}
  | attempt :: rest =>
      Sender.bind (Sender.transportCall Card chatTransport e)
        (fun outcome =>
           match outcome with
           | Sender.Returned result =>
               if Sender.success result then
                 Sender.ret {| Sender.skipped := false;
                               Sender.r_messageId := Sender.messageId result;
                               Sender.r_error := None |}
               else
                 let lastError' :=
                   orElse (Sender.error result) (lit "Unknown error") in
                 if stop lastError' then
                   Sender.ret {| Sender.skipped := false;
                                 Sender.r_messageId := None;
                                 Sender.r_error := Some lastError' |}
                 else
                   Sender.backoffThen attempt
                     (loop stop e rest (Some lastError'))
           | Sender.Threw message =>
               Sender.backoffThen attempt (loop stop e rest (Some message))
           end)
  end.

(** What a run of the loop from attempt [a] on does, [a + len] being
    121: it makes [k] calls, and [k] is the first call that succeeds or
    passes [stop], or the last attempt. *)
Definition runs (stop : jsstring -> bool) (e : Sender.Event Card)
    (a len : nat) (lastError : option jsstring) (w : Sender.World Card)
    (k : nat) : Prop :=
  (1 <= k <= len)%nat /\
  loop stop e (map Z.of_nat (seq a len)) lastError w
  = (resultOf (chatTransport (Sender.calls w + k - 1)), afterRun w e a k) /\
  (forall j, (j < k - 1)%nat ->
             failedCall (chatTransport (Sender.calls w + j)) /\
             stopsWith stop (chatTransport (Sender.calls w + j)) = false) /\
  (k = len \/
   ~ failedCall (chatTransport (Sender.calls w + k - 1)) \/
   stopsWith stop (chatTransport (Sender.calls w + k - 1)) = true).
End SenderRuns.

Arguments traceFrom {Card} e a k.
Arguments afterRun {Card} w e a k.

(** What [markCompleted] at [now] makes of the shared columns of a row. *)
Definition completedAt (now : Z) (q q' : QueueMessage) : Prop :=
  q' = set_update completed now (retries q) None None (Some now) q.

(** The row was completed, or retried once, at some instant. *)
Definition settledFrom (q q' : QueueMessage) : Prop :=
  exists now, completedAt now q q' \/ exists err, retried now err q q'.

(** What else runs while a tick waits never changes the rows of these
    ids of queue [k]. *)
Definition leavesAlone (k : Kind) (ids : list Z)
    (others : nat -> Store -> Store) : Prop :=
  forall i s j, In j ids -> baseRow k j (others i s) = baseRow k j s.

(** Nothing else touches the store while a tick waits. *)
Definition nothingElse (others : nat -> Store -> Store) : Prop :=
  forall i s, others i s = s.

(** The call [processInboundQueue] makes for a message. *)
Definition gatewayCallOf {Attachments : Type} (msg : InboundMessage)
    (attachments : option Attachments)
    : InboundConsumer.GatewayCall Attachments :=
  {| InboundConsumer.g_message := message_text msg;
     InboundConsumer.g_attachments := attachments;
     InboundConsumer.g_sessionKey := in_session_key msg;
     InboundConsumer.g_chatId := in_chat_id msg;
     InboundConsumer.g_idempotencyKey := lit "inbound-" ++ message_id msg |}.

(** A chunk is within the limit, or it is a single line. *)
Definition fitsOrOneLine (limit : Z) (chunk : jsstring) : Prop :=
  strLength chunk <= limit \/ ~ In LF chunk.

(** The lines of a text that are not empty, in their order. *)
Definition writtenLines (text_ : jsstring) : list jsstring :=
  filter Chunker.nonEmpty (splitLF text_).

(** The longest a sender run sleeps: the 119 backoffs of 120 attempts. *)
Definition LONGEST_WAIT_MS : Z := 771391000.

(** The database right after its schema was created. *)
Definition emptyDatabase : Store :=
  {| outbound_queue := []; outbound_seq := 0;
     inbound_queue := []; inbound_seq := 0;
     sent_messages := []; sent_seq := 0 |}.

End Props.

(* ================================================================== *)
(** * Backoff *)
(* ================================================================== *)

Module BackoffFacts.

Import Queue Sender Spec.

(** The transport-level backoff is the formula of the specification. *)
Lemma calculateSendBackoff_is_spec (n : Z) :
  calculateSendBackoff n = backoff n.
Proof. reflexivity. Qed.

(** The queue-level backoff is the same formula one step ahead. *)
Lemma calculateBackoff_shifted (n : Z) :
  calculateBackoff n = backoff (n + 1).
Proof.
  unfold calculateBackoff, backoff, RETRY_BACKOFF_BASE_MS,
    RETRY_BACKOFF_MAX_MS.
  replace (n + 1 - 1) with n by lia. reflexivity.
Qed.

Lemma backoff_below_cap (n : Z) :
  1 <= n <= 13 -> backoff n = 1000 * 2 ^ (n - 1).
Proof.
  intros H. unfold backoff.
  rewrite (Z.min_l (n - 1) 17) by lia.
  apply Z.min_l.
  assert (2 ^ (n - 1) <= 2 ^ 12) by (apply Z.pow_le_mono_r; lia).
  change (2 ^ 12) with 4096 in H0. lia.
Qed.

(** On the first twelve retries the queue waits twice as long as the
    formula says. *)
Lemma calculateBackoff_doubles (n : Z) :
  1 <= n <= 12 -> calculateBackoff n = 2 * backoff n.
Proof.
  intros H. rewrite calculateBackoff_shifted.
  rewrite !backoff_below_cap by lia.
  replace (n + 1 - 1) with (Z.succ (n - 1)) by lia.
  rewrite Z.pow_succ_r by lia. lia.
Qed.

(** From the fourteenth retry on both are at the ceiling. *)
Lemma backoff_at_cap (n : Z) :
  14 <= n -> backoff n = 120 * 60 * 1000.
Proof.
  intros H. unfold backoff. apply Z.min_r.
  assert (2 ^ 13 <= 2 ^ Z.min (n - 1) 17) by (apply Z.pow_le_mono_r; lia).
  change (2 ^ 13) with 8192 in H0. lia.
Qed.

Lemma calculateBackoff_at_cap (n : Z) :
  13 <= n -> calculateBackoff n = RETRY_BACKOFF_MAX_MS.
Proof.
  intros H. rewrite calculateBackoff_shifted. apply backoff_at_cap. lia.
Qed.

(** C1, at the first retry: [markRetry] stores [retries = 1] and asks
    [calculateBackoff] for the delay of retry 1, which is 2000 ms, while
    [calculateSendBackoff(1)] and the formula
    [min(1000 * 2^min(n-1, 17), 120*60*1000)] give 1000 ms.  So the first
    [markInboundRetry] and [markOutboundRetry], called at time 5000, set
    [next_retry_at] to 7000. *)
Theorem C1_first_retry_backoffs_differ :
  calculateBackoff 1 = 2000 /\
  calculateSendBackoff 1 = 1000 /\
  backoff 1 = 1000 /\
  option_map next_retry_at
    (baseRow Inbound 1
       (markInboundRetry 5000 1 (lit "Gateway timeout") Examples.oneInbound))
  = Some (Some (5000 + 2000)) /\
  option_map next_retry_at
    (baseRow Outbound 1
       (markOutboundRetry 5000 1 (lit "Unknown error") Examples.oneOutbound))
  = Some (Some (5000 + 2000)).
Proof. repeat split; reflexivity. Qed.

End BackoffFacts.

(* ================================================================== *)
(** * Facts about the SQL statements *)
(* ================================================================== *)

Module SqlFacts.

Import Queue Spec.

Section Tables.
Context {Row : Type}.
Implicit Types (p : Row -> bool) (f : Row -> Row) (tbl : list Row).

Lemma update_where_length p f tbl :
  List.length (update_where p f tbl) = List.length tbl.
Proof. apply length_map. Qed.

(** An [UPDATE] whose [WHERE] clause matches no row changes nothing. *)
Lemma update_where_none p f tbl :
  (forall r, In r tbl -> p r = false) -> update_where p f tbl = tbl.
Proof.
  induction tbl as [|r tbl IH]; intros H; simpl; [reflexivity|].
  rewrite (H r) by (left; reflexivity).
  f_equal. apply IH. intros r' Hr'. apply H. right. exact Hr'.
Qed.

Lemma select_first_none p tbl :
  select_first p tbl = None <-> (forall r, In r tbl -> p r = false).
Proof.
  unfold select_first. split.
  - intros H r Hr. apply (find_none p tbl H r Hr).
  - induction tbl as [|r tbl IH]; intros H; simpl; [reflexivity|].
    rewrite (H r) by (left; reflexivity).
    apply IH. intros r' Hr'. apply H. right. exact Hr'.
Qed.

(** The row [SELECT ... WHERE p] finds is the row [UPDATE ... WHERE p]
    rewrites first, as long as the new row still satisfies [p]. *)
Lemma select_first_update_where p f tbl r :
  select_first p tbl = Some r ->
  p (f r) = true ->
  select_first p (update_where p f tbl) = Some (f r).
Proof.
  unfold select_first, update_where.
  induction tbl as [|x tbl IH]; simpl; intros Hsel Hp; [discriminate|].
  destruct (p x) eqn:Hx.
  - injection Hsel as ->. rewrite Hp. reflexivity.
  - rewrite Hx. apply IH; assumption.
Qed.

(** A row the [WHERE] clause rejects stays in the table as it is. *)
Lemma update_where_keeps p f tbl r :
  In r tbl -> p r = false -> In r (update_where p f tbl).
Proof.
  intros Hin Hp. unfold update_where. apply in_map_iff.
  exists r. rewrite Hp. split; [reflexivity | exact Hin].
Qed.

(** Row by row: position [i] holds the old row or its rewritten form. *)
Lemma update_where_nth p f tbl i :
  nth_error (update_where p f tbl) i =
  option_map (fun r => if p r then f r else r) (nth_error tbl i).
Proof. unfold update_where. apply nth_error_map. Qed.

Lemma delete_where_In p tbl r :
  In r (delete_where p tbl) <-> In r tbl /\ p r = false.
Proof.
  unfold delete_where. rewrite filter_In.
  rewrite negb_true_iff. reflexivity.
Qed.

(** *** [ORDER BY] *)

Variable key : Row -> Z.

Local Abbreviation key_le := (keyLe key).

Lemma insert_by_perm r tbl : Permutation (r :: tbl) (insert_by key r tbl).
Proof.
  induction tbl as [|x tbl IH]; simpl; [apply Permutation_refl|].
  destruct (key r <=? key x).
  - apply Permutation_refl.
  - eapply perm_trans; [apply perm_swap|].
    apply perm_skip. exact IH.
Qed.

Lemma order_by_perm tbl : Permutation tbl (order_by key tbl).
Proof.
  induction tbl as [|r tbl IH]; simpl; [apply Permutation_refl|].
  eapply perm_trans; [|apply insert_by_perm].
  apply perm_skip. exact IH.
Qed.

Lemma insert_by_hd r tbl x :
  HdRel key_le x tbl -> key_le x r -> HdRel key_le x (insert_by key r tbl).
Proof.
  intros Htbl Hr. destruct tbl as [|y tbl]; simpl.
  - constructor. exact Hr.
  - destruct (key r <=? key y); constructor.
    + exact Hr.
    + inversion Htbl; assumption.
Qed.

Lemma insert_by_sorted r tbl :
  Sorted key_le tbl -> Sorted key_le (insert_by key r tbl).
Proof.
  induction tbl as [|x tbl IH]; simpl; intros Hs.
  - repeat constructor.
  - inversion Hs as [|? ? Hs' Hhd]; subst.
    destruct (key r <=? key x) eqn:Hle.
    + constructor; [exact Hs|]. constructor.
      unfold keyLe. apply Z.leb_le. exact Hle.
    + constructor; [apply IH; exact Hs'|].
      apply insert_by_hd; [exact Hhd|].
      unfold keyLe. apply Z.leb_gt in Hle. lia.
Qed.

Lemma order_by_sorted tbl : Sorted key_le (order_by key tbl).
Proof.
  induction tbl as [|r tbl IH]; simpl; [constructor|].
  apply insert_by_sorted. exact IH.
Qed.

Lemma key_le_trans : Relations_1.Transitive key_le.
Proof. intros a b c. unfold keyLe. lia. Qed.

(** In a sorted list everything behind the first [n] rows has a key at
    least as large as each of them. *)
Lemma sorted_firstn_skipn (l : list Row) (n : nat) (a b : Row) :
  Sorted key_le l -> In a (firstn n l) -> In b (skipn n l) ->
  key a <= key b.
Proof.
  intros Hs. apply Sorted_StronglySorted in Hs; [|exact key_le_trans].
  revert n. induction Hs as [|x l Hl IH Hall]; intros n Ha Hb.
  - destruct n; simpl in Ha; contradiction.
  - destruct n as [|n]; simpl in Ha, Hb; [contradiction|].
    destruct Ha as [<-|Ha].
    + rewrite Forall_forall in Hall. apply Hall.
      rewrite <- (firstn_skipn n l). apply in_or_app. right. exact Hb.
    + apply (IH n); assumption.
Qed.
End Tables.

(** The plan delivers the matching rows, each once. *)
Lemma scan_perm {Row : Type} (visit : list Row -> Row -> Z)
    (p : Row -> bool) (tbl : list Row) :
  Permutation (filter p tbl) (scan visit p tbl).
Proof. unfold scan. apply order_by_perm. Qed.

End SqlFacts.

(* ================================================================== *)
(** * The retry transition *)
(* ================================================================== *)

Module RetryFacts.

Import Queue Spec SqlFacts.

Lemma in_has_id_found rowId tbl m :
  select_first (in_has_id rowId) tbl = Some m -> in_has_id rowId m = true.
Proof. intros H. apply (find_some _ _ H). Qed.

Lemma out_has_id_found rowId tbl m :
  select_first (out_has_id rowId) tbl = Some m -> out_has_id rowId m = true.
Proof. intros H. apply (find_some _ _ H). Qed.

Lemma markInboundRetry_row now rowId err s m :
  inboundRow rowId s = Some m ->
  exists m',
    inboundRow rowId (markInboundRetry now rowId err s) = Some m' /\
    retried now err (in_q m) (in_q m') /\
    List.length (inbound_queue (markInboundRetry now rowId err s))
    = List.length (inbound_queue s).
Proof.
  unfold inboundRow, markInboundRetry. intros Hsel. rewrite Hsel.
  pose proof (in_has_id_found _ _ _ Hsel) as Hid.
  cbn [option_map orElse].
  unfold retried, hasExceededMaxRetries.
  destruct (retries (in_q m) + 1 >=? MAX_RETRIES);
    cbn [inbound_queue with_inbound]; unfold stmtUpdateInbound;
    (erewrite select_first_update_where; [|exact Hsel|exact Hid]);
    (eexists; split; [reflexivity|]);
    rewrite update_where_length; cbn; auto 10.
Qed.

Lemma markOutboundRetry_row now rowId err s m :
  outboundRow rowId s = Some m ->
  exists m',
    outboundRow rowId (markOutboundRetry now rowId err s) = Some m' /\
    retried now err (out_q m) (out_q m') /\
    List.length (outbound_queue (markOutboundRetry now rowId err s))
    = List.length (outbound_queue s).
Proof.
  unfold outboundRow, markOutboundRetry. intros Hsel. rewrite Hsel.
  pose proof (out_has_id_found _ _ _ Hsel) as Hid.
  cbn [option_map orElse].
  unfold retried, hasExceededMaxRetries.
  destruct (retries (out_q m) + 1 >=? MAX_RETRIES);
    cbn [outbound_queue with_outbound]; unfold stmtUpdateOutbound;
    (erewrite select_first_update_where; [|exact Hsel|exact Hid]);
    (eexists; split; [reflexivity|]);
    rewrite update_where_length; cbn; auto 10.
Qed.

(** One [markRetry] on either queue. *)
Lemma markRetry_row k now rowId err s q :
  baseRow k rowId s = Some q ->
  exists q',
    baseRow k rowId (markRetry k now rowId err s) = Some q' /\
    retried now err q q' /\
    List.length (baseRows k (markRetry k now rowId err s))
    = List.length (baseRows k s).
Proof.
  destruct k; cbn [baseRow markRetry baseRows]; intros H.
  - destruct (inboundRow rowId s) as [m|] eqn:Hm; [|discriminate].
    injection H as <-.
    destruct (markInboundRetry_row now rowId err s m Hm) as (m' & H1 & H2 & H3).
    exists (in_q m'). rewrite H1, !length_map. auto.
  - destruct (outboundRow rowId s) as [m|] eqn:Hm; [|discriminate].
    injection H as <-.
    destruct (markOutboundRetry_row now rowId err s m Hm)
      as (m' & H1 & H2 & H3).
    exists (out_q m'). rewrite H1, !length_map. auto.
Qed.

Lemma retriesOf_snoc k rowId calls now err s :
  retriesOf k rowId (calls ++ [(now, err)]) s
  = markRetry k now rowId err (retriesOf k rowId calls s).
Proof.
  destruct k; cbn [retriesOf markRetry];
    unfold inboundRetries, outboundRetries;
    rewrite fold_left_app; reflexivity.
Qed.

(** Any number of consecutive [markRetry] calls keeps the row and counts
    them in [retries]. *)
Lemma retriesOf_count k rowId calls :
  forall s q,
    baseRow k rowId s = Some q ->
    exists q',
      baseRow k rowId (retriesOf k rowId calls s) = Some q' /\
      retries q' = retries q + Z.of_nat (List.length calls) /\
      id q' = id q /\ created_at q' = created_at q /\
      List.length (baseRows k (retriesOf k rowId calls s))
      = List.length (baseRows k s).
Proof.
  induction calls as [|[now err] calls IH] using rev_ind; intros s q Hq.
  - exists q. destruct k; cbn in *; rewrite Hq; repeat split; lia.
  - rewrite retriesOf_snoc.
    destruct (IH s q Hq) as (q1 & H1 & Hr1 & Hi1 & Hc1 & Hl1).
    destruct (markRetry_row k now rowId err _ q1 H1)
      as (q2 & H2 & Hret & Hl2).
    destruct Hret as (Hi2 & Hc2 & Hr2 & _).
    exists q2. rewrite length_app, Nat2Z.inj_add. cbn [List.length].
    repeat split; [exact H2|lia|congruence|congruence|congruence].
Qed.

(** C3: a row that starts at [retries = 0] is, after its 119th consecutive
    [markRetry], still [pending] with [retries = 119] and a [next_retry_at]
    of [now + backoff], strictly after [now]; after the 120th it is
    [failed_permanent] with [retries = 120] and is still a row of its table
    (the transition deletes nothing).  So for the inbound and for the
    outbound queue. *)
Theorem C3_retry_exhaustion
    (k : Kind) (s : Store) (rowId : Z) (q : QueueMessage)
    (first118 : list (Z * jsstring)) (t119 t120 : Z) (e119 e120 : jsstring) :
  baseRow k rowId s = Some q ->
  retries q = 0 ->
  List.length first118 = 118%nat ->
  let s119 := markRetry k t119 rowId e119 (retriesOf k rowId first118 s) in
  let s120 := markRetry k t120 rowId e120 s119 in
  (exists q119,
     baseRow k rowId s119 = Some q119 /\
     status q119 = pending /\
     retries q119 = 119 /\
     next_retry_at q119 = Some (t119 + calculateBackoff 119) /\
     t119 < t119 + calculateBackoff 119) /\
  (exists q120,
     baseRow k rowId s120 = Some q120 /\
     status q120 = failed_permanent /\
     retries q120 = MAX_RETRIES /\
     List.length (baseRows k s120) = List.length (baseRows k s)).
Proof.
  intros Hq Hr0 Hlen s119 s120.
  destruct (retriesOf_count k rowId first118 s q Hq)
    as (q118 & H118 & Hr118 & _ & _ & Hl118).
  rewrite Hr0, Hlen in Hr118. cbn in Hr118.
  destruct (markRetry_row k t119 rowId e119 _ q118 H118)
    as (q119 & H119 & Hret119 & Hl119).
  destruct Hret119 as (_ & _ & Hr119 & _ & _ & _ & Hst119).
  rewrite Hr118 in Hr119, Hst119. cbn in Hr119, Hst119.
  destruct Hst119 as [Hs119 Hn119].
  destruct (markRetry_row k t120 rowId e120 _ q119 H119)
    as (q120 & H120 & Hret120 & Hl120).
  destruct Hret120 as (_ & _ & Hr120 & _ & _ & _ & Hst120).
  rewrite Hr119 in Hr120, Hst120. cbn in Hr120, Hst120.
  destruct Hst120 as [Hs120 _].
  split.
  - exists q119. repeat split; try assumption.
    rewrite (BackoffFacts.calculateBackoff_at_cap 119) by lia.
    unfold RETRY_BACKOFF_MAX_MS. lia.
  - exists q120. repeat split; try assumption.
    subst s120 s119. rewrite Hl120, Hl119. exact Hl118.
Qed.

(** The inbound row of ["m1"] after 118 + 1 + 1 gateway timeouts. *)
Lemma C3_retry_exhaustion_witness :
  exists q120,
    baseRow Inbound 1
      (markRetry Inbound 7000 1 (lit "Gateway timeout")
         (markRetry Inbound 6000 1 (lit "Gateway timeout")
            (retriesOf Inbound 1 Examples.timeouts118 Examples.oneInbound)))
    = Some q120 /\
    status q120 = failed_permanent /\
    retries q120 = 120.
Proof.
  destruct (C3_retry_exhaustion Inbound Examples.oneInbound 1
              (fresh_row 1 1000 1000 1000) Examples.timeouts118 6000 7000
              (lit "Gateway timeout") (lit "Gateway timeout"))
    as [_ (q120 & H1 & H2 & H3 & _)];
    [reflexivity | reflexivity | reflexivity |].
  exists q120. auto.
Defined.

End RetryFacts.

(* ================================================================== *)
(** * Frame properties of the mark operations and of the reset *)
(* ================================================================== *)

Module FrameFacts.

Import Queue Spec SqlFacts.

Lemma with_inbound_same s : with_inbound (inbound_queue s) s = s.
Proof. destruct s; reflexivity. Qed.

Lemma with_outbound_same s : with_outbound (outbound_queue s) s = s.
Proof. destruct s; reflexivity. Qed.

Lemma with_sent_same s : with_sent (sent_messages s) s = s.
Proof. destruct s; reflexivity. Qed.

Lemma absent_inbound rowId s :
  ~ In rowId (map id (baseRows Inbound s)) ->
  forall m, In m (inbound_queue s) -> in_has_id rowId m = false.
Proof.
  intros Habs m Hm. unfold in_has_id. apply Z.eqb_neq. intros Heq.
  apply Habs. cbn [baseRows]. rewrite map_map. apply in_map_iff.
  exists m. split; assumption.
Qed.

Lemma absent_outbound rowId s :
  ~ In rowId (map id (baseRows Outbound s)) ->
  forall m, In m (outbound_queue s) -> out_has_id rowId m = false.
Proof.
  intros Habs m Hm. unfold out_has_id. apply Z.eqb_neq. intros Heq.
  apply Habs. cbn [baseRows]. rewrite map_map. apply in_map_iff.
  exists m. split; assumption.
Qed.

(** C10: for an id that no row of the queue table carries,
    [markProcessing], [markCompleted] and [markRetry] of that queue return
    the store they were given: no row changes, and [markOutboundCompleted]
    adds nothing to [sent_messages]. *)
Theorem C10_mark_of_missing_id_changes_nothing
    (k : Kind) (s : Store) (rowId now : Z) (result : ResultOf k)
    (errorMessage : jsstring) :
  ~ In rowId (map id (baseRows k s)) ->
  markProcessing k now rowId s = s /\
  markCompleted k now rowId result s = s /\
  markRetry k now rowId errorMessage s = s /\
  sent_messages (markCompleted k now rowId result s) = sent_messages s.
Proof.
  intros Habs.
  assert (Hcompleted : markCompleted k now rowId result s = s).
  { destruct k; cbn [markCompleted].
    - pose proof (absent_inbound rowId s Habs) as Hno.
      unfold markInboundCompleted, stmtUpdateInbound.
      rewrite update_where_none by exact Hno. apply with_inbound_same.
    - pose proof (absent_outbound rowId s Habs) as Hno.
      unfold markOutboundCompleted, stmtUpdateOutbound.
      rewrite (proj2 (select_first_none _ _) Hno).
      rewrite update_where_none by exact Hno. apply with_outbound_same. }
  repeat split.
  - destruct k; cbn [markProcessing].
    + pose proof (absent_inbound rowId s Habs) as Hno.
      unfold markInboundProcessing, stmtMarkInboundProcessing.
      rewrite update_where_none by exact Hno. apply with_inbound_same.
    + pose proof (absent_outbound rowId s Habs) as Hno.
      unfold markOutboundProcessing, stmtMarkOutboundProcessing.
      rewrite update_where_none by exact Hno. apply with_outbound_same.
  - exact Hcompleted.
  - destruct k; cbn [markRetry].
    + pose proof (absent_inbound rowId s Habs) as Hno.
      unfold markInboundRetry, stmtUpdateInbound.
      destruct (hasExceededMaxRetries _);
        rewrite update_where_none by exact Hno; apply with_inbound_same.
    + pose proof (absent_outbound rowId s Habs) as Hno.
      unfold markOutboundRetry, stmtUpdateOutbound.
      destruct (hasExceededMaxRetries _);
        rewrite update_where_none by exact Hno; apply with_outbound_same.
  - rewrite Hcompleted. reflexivity.
Qed.

(** No inbound row has id 7 in the store that holds the one row of ["m1"]. *)
Lemma C10_mark_of_missing_id_witness :
  markProcessing Inbound 3000 7 Examples.oneInbound = Examples.oneInbound.
Proof.
  apply (C10_mark_of_missing_id_changes_nothing Inbound Examples.oneInbound
           7 3000 (lit "resp") (lit "Gateway timeout")).
  vm_compute. intros [H|[]]. discriminate H.
Defined.

Lemma update_where_Forall2 {Row : Type} (R : Row -> Row -> Prop)
    (p : Row -> bool) (f : Row -> Row) (tbl : list Row) :
  (forall r, R r (if p r then f r else r)) ->
  Forall2 R tbl (update_where p f tbl).
Proof.
  intros H. induction tbl as [|r tbl IH]; simpl; constructor; auto.
Qed.

Lemma inboundReset_step now m :
  inboundReset now m
    (if status_eqb (status (in_q m)) processing
     then in_with_q (set_pending now) m else m).
Proof.
  unfold inboundReset.
  destruct (status (in_q m)); cbn; auto 20.
Qed.

Lemma outboundReset_step now m :
  outboundReset now m
    (if status_eqb (status (out_q m)) processing
     then out_with_q (set_pending now) m else m).
Proof.
  unfold outboundReset.
  destruct (status (out_q m)); cbn; auto 20.
Qed.

Lemma reset_inbound_not_processing now tbl r :
  In r (update_where (fun m => status_eqb (status (in_q m)) processing)
          (in_with_q (set_pending now)) tbl) ->
  status_eqb (status (in_q r)) processing = false.
Proof.
  unfold update_where. intros H. apply in_map_iff in H.
  destruct H as (x & Hx & _).
  destruct (status_eqb (status (in_q x)) processing) eqn:E; subst r;
    [reflexivity|exact E].
Qed.

Lemma reset_outbound_not_processing now tbl r :
  In r (update_where (fun m => status_eqb (status (out_q m)) processing)
          (out_with_q (set_pending now)) tbl) ->
  status_eqb (status (out_q r)) processing = false.
Proof.
  unfold update_where. intros H. apply in_map_iff in H.
  destruct H as (x & Hx & _).
  destruct (status_eqb (status (out_q x)) processing) eqn:E; subst r;
    [reflexivity|exact E].
Qed.

(** After the reset no row is [processing], so the [recoverStuck] that the
    constructor runs next finds nothing to do. *)
Lemma recoverStuck_after_reset tRecover now s :
  recoverStuck tRecover (resetStuckMessages now s) = resetStuckMessages now s.
Proof.
  unfold recoverStuck, resetStuckMessages.
  cbn [inbound_queue outbound_queue with_inbound with_outbound].
  rewrite (update_where_none _ _ (update_where _ _ (outbound_queue s))).
  - rewrite (update_where_none _ _ (update_where _ _ (inbound_queue s))).
    + reflexivity.
    + intros r Hr. rewrite (reset_inbound_not_processing _ _ _ Hr).
      reflexivity.
  - intros r Hr. rewrite (reset_outbound_not_processing _ _ _ Hr).
    reflexivity.
Qed.

(** The whole constructor ([resetStuckMessages], [recoverStuck],
    [cleanup]) leaves a row that was [processing] in its table, reset. *)
Lemma openStore_resets_inbound tReset tRecover tCleanup s m :
  In m (inbound_queue s) ->
  status (in_q m) = processing ->
  In (in_with_q (set_pending tReset) m)
     (inbound_queue (openStore tReset tRecover tCleanup s)).
Proof.
  intros Hin Hst. unfold openStore, cleanup, recoverStuck, resetStuckMessages.
  cbn. apply delete_where_In. split; [|apply andb_false_r].
  apply update_where_keeps; [|reflexivity].
  unfold update_where. apply in_map_iff. exists m.
  rewrite Hst. split; [reflexivity|exact Hin].
Qed.

Lemma openStore_resets_outbound tReset tRecover tCleanup s m :
  In m (outbound_queue s) ->
  status (out_q m) = processing ->
  In (out_with_q (set_pending tReset) m)
     (outbound_queue (openStore tReset tRecover tCleanup s)).
Proof.
  intros Hin Hst. unfold openStore, cleanup, recoverStuck, resetStuckMessages.
  cbn. apply delete_where_In. split; [|apply andb_false_r].
  apply update_where_keeps; [|reflexivity].
  unfold update_where. apply in_map_iff. exists m.
  rewrite Hst. split; [reflexivity|exact Hin].
Qed.

(** Opening is the reset followed by the cleanup. *)
Lemma openStore_is_reset_then_cleanup tReset tRecover tCleanup s :
  openStore tReset tRecover tCleanup s
  = cleanup tCleanup (resetStuckMessages tReset s).
Proof. unfold openStore. rewrite recoverStuck_after_reset. reflexivity. Qed.

(** The rows of the opened store are those of the reset store that the
    cleanup does not delete. *)
Lemma opened_inbound tReset tRecover tCleanup s m :
  In m (inbound_queue (openStore tReset tRecover tCleanup s)) <->
  In m (inbound_queue (resetStuckMessages tReset s)) /\
  ~ expired tCleanup (in_q m).
Proof.
  rewrite openStore_is_reset_then_cleanup. unfold cleanup, expired.
  cbn [inbound_queue outbound_queue with_inbound with_outbound with_sent].
  rewrite delete_where_In, andb_false_iff, Z.ltb_ge.
  destruct (status (in_q m)); cbn; intuition (try congruence; try lia).
Qed.

Lemma opened_outbound tReset tRecover tCleanup s m :
  In m (outbound_queue (openStore tReset tRecover tCleanup s)) <->
  In m (outbound_queue (resetStuckMessages tReset s)) /\
  ~ expired tCleanup (out_q m).
Proof.
  rewrite openStore_is_reset_then_cleanup. unfold cleanup, expired.
  cbn [inbound_queue outbound_queue with_inbound with_outbound with_sent].
  rewrite delete_where_In, andb_false_iff, Z.ltb_ge.
  destruct (status (out_q m)); cbn; intuition (try congruence; try lia).
Qed.

Lemma not_processing_spec st :
  status_eqb st processing = false <-> st <> processing.
Proof. destruct st; cbn; split; congruence. Qed.

(** C7: opening the store (the constructor: [resetStuckMessages], then
    [recoverStuck], then [cleanup]).  Every row of either queue table that
    is [processing] is in the opened store as a [pending] row, however
    long it has been processing and whatever the three clock readings:
    [updated_at] is the time of the reset and every other column,
    [retries] among them, is as it was.  Every row of another status is
    in the opened store exactly as it was, unless it is a [completed] row
    older than the TTL, which the cleanup of the constructor deletes.  The
    opened store has no other rows, none of them is [processing], and the
    rowid counters are as before.  Table by table the reset relates old
    and new rows one to one; the [recoverStuck] after it finds nothing to
    do. *)
Theorem C7_reset_on_open (tReset tRecover tCleanup : Z) (s : Store) :
  let reset := resetStuckMessages tReset s in
  let opened := openStore tReset tRecover tCleanup s in
  (forall m, In m (inbound_queue s) -> status (in_q m) = processing ->
     In (in_with_q (set_pending tReset) m) (inbound_queue opened)) /\
  (forall m, In m (outbound_queue s) -> status (out_q m) = processing ->
     In (out_with_q (set_pending tReset) m) (outbound_queue opened)) /\
  (forall m, In m (inbound_queue s) -> status (in_q m) <> processing ->
     ~ expired tCleanup (in_q m) -> In m (inbound_queue opened)) /\
  (forall m, In m (outbound_queue s) -> status (out_q m) <> processing ->
     ~ expired tCleanup (out_q m) -> In m (outbound_queue opened)) /\
  (forall m', In m' (inbound_queue opened) ->
     status (in_q m') <> processing /\
     exists m, In m (inbound_queue s) /\ inboundReset tReset m m') /\
  (forall m', In m' (outbound_queue opened) ->
     status (out_q m') <> processing /\
     exists m, In m (outbound_queue s) /\ outboundReset tReset m m') /\
  inbound_seq opened = inbound_seq s /\
  outbound_seq opened = outbound_seq s /\
  sent_seq opened = sent_seq s /\
  Forall2 (inboundReset tReset) (inbound_queue s) (inbound_queue reset) /\
  Forall2 (outboundReset tReset) (outbound_queue s) (outbound_queue reset) /\
  sent_messages reset = sent_messages s /\
  recoverStuck tRecover reset = reset /\
  opened = cleanup tCleanup reset.
Proof.
  cbv zeta.
  split; [intros m; apply openStore_resets_inbound|].
  split; [intros m; apply openStore_resets_outbound|].
  split.
  { intros m Hin Hst Hkeep. apply opened_inbound. split; [|exact Hkeep].
    unfold resetStuckMessages.
    cbn [inbound_queue outbound_queue with_inbound with_outbound].
    apply update_where_keeps; [exact Hin|].
    apply not_processing_spec. exact Hst. }
  split.
  { intros m Hin Hst Hkeep. apply opened_outbound. split; [|exact Hkeep].
    unfold resetStuckMessages.
    cbn [inbound_queue outbound_queue with_inbound with_outbound].
    apply update_where_keeps; [exact Hin|].
    apply not_processing_spec. exact Hst. }
  split.
  { intros m' Hin. apply opened_inbound in Hin. destruct Hin as [Hin _].
    unfold resetStuckMessages in Hin.
    cbn [inbound_queue outbound_queue with_inbound with_outbound] in Hin.
    split.
    - apply not_processing_spec.
      apply (reset_inbound_not_processing _ _ _ Hin).
    - unfold update_where in Hin. apply in_map_iff in Hin.
      destruct Hin as (m & <- & Hm). exists m.
      split; [exact Hm|apply inboundReset_step]. }
  split.
  { intros m' Hin. apply opened_outbound in Hin. destruct Hin as [Hin _].
    unfold resetStuckMessages in Hin.
    cbn [inbound_queue outbound_queue with_inbound with_outbound] in Hin.
    split.
    - apply not_processing_spec.
      apply (reset_outbound_not_processing _ _ _ Hin).
    - unfold update_where in Hin. apply in_map_iff in Hin.
      destruct Hin as (m & <- & Hm). exists m.
      split; [exact Hm|apply outboundReset_step]. }
  split; [reflexivity|]. split; [reflexivity|]. split; [reflexivity|].
  split; [apply update_where_Forall2; apply inboundReset_step|].
  split; [apply update_where_Forall2; apply outboundReset_step|].
  split; [reflexivity|].
  split; [apply recoverStuck_after_reset|].
  apply openStore_is_reset_then_cleanup.
Qed.

(** The row of ["m1"], claimed at 3000 and still [processing] when the
    store is opened again: it is in the opened store, [pending]. *)
Lemma C7_reset_on_open_witness :
  In (in_with_q (set_pending 9000)
        (in_with_q (set_processing 3000) Examples.hiRow))
     (inbound_queue
        (openStore 9000 9001 9002
           (markInboundProcessing 3000 1 Examples.oneInbound))).
Proof.
  apply (proj1 (C7_reset_on_open 9000 9001 9002
                  (markInboundProcessing 3000 1 Examples.oneInbound))).
  - left. reflexivity.
  - reflexivity.
Defined.

End FrameFacts.

(* ================================================================== *)
(** * Terminal rows *)
(* ================================================================== *)

Module TerminalFacts.

Import Queue Spec SqlFacts.

Lemma in_rows_inl s m : In (inl m) (rows s) <-> In m (inbound_queue s).
Proof.
  unfold rows. rewrite in_app_iff. split.
  - intros [H|H]; apply in_map_iff in H; destruct H as (x & Hx & Hin).
    + injection Hx as ->. exact Hin.
    + discriminate.
  - intros H. left. apply in_map. exact H.
Qed.

Lemma in_rows_inr s m : In (inr m) (rows s) <-> In m (outbound_queue s).
Proof.
  unfold rows. rewrite in_app_iff. split.
  - intros [H|H]; apply in_map_iff in H; destruct H as (x & Hx & Hin).
    + discriminate.
    + injection Hx as ->. exact Hin.
  - intros H. right. apply in_map. exact H.
Qed.

Lemma terminal_not_processing st :
  terminal st = true -> status_eqb st processing = false.
Proof. destruct st; cbn; congruence. Qed.

Section Ops.
Variable hashContent : jsstring -> jsstring.
Variable Attachment : Type.
Variable JSON_stringify : list Attachment -> jsstring.

Local Abbreviation exec := (exec hashContent Attachment JSON_stringify).

(** Both enqueue operations only ever append to their table. *)
Lemma enqueueOutbound_tables queueType params now s :
  let s' := snd (enqueueOutbound hashContent queueType params now s) in
  inbound_queue s' = inbound_queue s /\
  exists new, outbound_queue s' = outbound_queue s ++ new.
Proof.
  unfold enqueueOutbound.
  destruct (stmtCheckOutboundDupe _ _ _ _);
    [cbn; split; [reflexivity|exists []; symmetry; apply app_nil_r]|].
  destruct (stmtCheckSentDupe _ _ _ _);
    [cbn; split; [reflexivity|exists []; symmetry; apply app_nil_r]|].
  cbn. split; [reflexivity|]. eexists. reflexivity.
Qed.

Lemma enqueueInbound_tables params now s :
  let s' := snd (enqueueInbound Attachment JSON_stringify params now s) in
  outbound_queue s' = outbound_queue s /\
  exists new, inbound_queue s' = inbound_queue s ++ new.
Proof.
  unfold enqueueInbound.
  destruct (stmtCheckInboundExists _ _) as [[? ?]|];
    [cbn; split; [reflexivity|exists []; symmetry; apply app_nil_r]|].
  unfold stmtEnqueueInbound.
  destruct (existsb _ _);
    cbn; (split; [reflexivity|]);
    [exists []; symmetry; apply app_nil_r | eexists; reflexivity].
Qed.

Lemma markOutboundCompleted_tables now rowId larkMessageId s :
  inbound_queue (markOutboundCompleted now rowId larkMessageId s)
  = inbound_queue s /\
  exists retries_,
    outbound_queue (markOutboundCompleted now rowId larkMessageId s)
    = stmtUpdateOutbound completed now retries_ None None (Some now)
        larkMessageId rowId (outbound_queue s).
Proof.
  unfold markOutboundCompleted.
  destruct (select_first _ _); cbn; split; try reflexivity;
    eexists; reflexivity.
Qed.

Lemma markOutboundRetry_tables now rowId err s :
  inbound_queue (markOutboundRetry now rowId err s) = inbound_queue s /\
  exists st retries_ next,
    outbound_queue (markOutboundRetry now rowId err s)
    = stmtUpdateOutbound st now retries_ next (Some err) None None rowId
        (outbound_queue s).
Proof.
  unfold markOutboundRetry.
  destruct (hasExceededMaxRetries _); cbn; split; try reflexivity;
    do 3 eexists; reflexivity.
Qed.

Lemma markInboundRetry_tables now rowId err s :
  outbound_queue (markInboundRetry now rowId err s) = outbound_queue s /\
  exists st retries_ next,
    inbound_queue (markInboundRetry now rowId err s)
    = stmtUpdateInbound st now retries_ next (Some err) None None rowId
        (inbound_queue s).
Proof.
  unfold markInboundRetry.
  destruct (hasExceededMaxRetries _); cbn; split; try reflexivity;
    do 3 eexists; reflexivity.
Qed.

(** A terminal inbound row survives every operation but [cleanup] and
    the mark calls on its own id. *)
Lemma terminal_inbound_kept now (op : Op Attachment) s m :
  In m (inbound_queue s) ->
  terminal (status (in_q m)) = true ->
  addressedTo op (inl m) = false ->
  op <> Cleanup Attachment ->
  In m (inbound_queue (exec now op s)).
Proof.
  intros Hin Hterm Haddr Hop.
  pose proof (terminal_not_processing _ Hterm) as Hnp.
  destruct op; cbn [Queue.exec addressedTo] in *; try exact Hin.
  - destruct (enqueueOutbound_tables queueType params now s) as [-> _].
    exact Hin.
  - destruct (markOutboundCompleted_tables now rowId larkMessageId s)
      as [-> _]. exact Hin.
  - destruct (markOutboundRetry_tables now rowId errorMessage s)
      as [-> _]. exact Hin.
  - destruct (enqueueInbound_tables params now s) as [_ [new ->]].
    apply in_or_app. left. exact Hin.
  - cbn. apply update_where_keeps; assumption.
  - cbn. apply update_where_keeps; assumption.
  - destruct (markInboundRetry_tables now rowId errorMessage s)
      as [_ (st & r & n & ->)].
    apply update_where_keeps; assumption.
  - cbn. apply update_where_keeps; assumption.
  - cbn. apply update_where_keeps; [assumption|].
    rewrite Hnp. reflexivity.
  - congruence.
Qed.

Lemma terminal_outbound_kept now (op : Op Attachment) s m :
  In m (outbound_queue s) ->
  terminal (status (out_q m)) = true ->
  addressedTo op (inr m) = false ->
  op <> Cleanup Attachment ->
  In m (outbound_queue (exec now op s)).
Proof.
  intros Hin Hterm Haddr Hop.
  pose proof (terminal_not_processing _ Hterm) as Hnp.
  destruct op; cbn [Queue.exec addressedTo] in *; try exact Hin.
  - destruct (enqueueOutbound_tables queueType params now s)
      as [_ [new ->]].
    apply in_or_app. left. exact Hin.
  - cbn. apply update_where_keeps; assumption.
  - destruct (markOutboundCompleted_tables now rowId larkMessageId s)
      as [_ [r ->]].
    apply update_where_keeps; assumption.
  - destruct (markOutboundRetry_tables now rowId errorMessage s)
      as [_ (st & r & n & ->)].
    apply update_where_keeps; assumption.
  - destruct (enqueueInbound_tables params now s) as [-> _].
    exact Hin.
  - destruct (markInboundRetry_tables now rowId errorMessage s)
      as [-> _]. exact Hin.
  - cbn. apply update_where_keeps; assumption.
  - cbn. apply update_where_keeps; [assumption|].
    rewrite Hnp. reflexivity.
  - congruence.
Qed.

(** What [cleanup] keeps. *)
Lemma cleanup_inbound now s m :
  In m (inbound_queue (cleanup now s)) <->
  In m (inbound_queue s) /\ ~ expired now (in_q m).
Proof.
  unfold cleanup, expired.
  cbn [inbound_queue outbound_queue with_inbound with_outbound with_sent].
  rewrite delete_where_In.
  rewrite andb_false_iff, Z.ltb_ge.
  destruct (status (in_q m)); cbn; intuition (try congruence; try lia).
Qed.

Lemma cleanup_outbound now s m :
  In m (outbound_queue (cleanup now s)) <->
  In m (outbound_queue s) /\ ~ expired now (out_q m).
Proof.
  unfold cleanup, expired.
  cbn [inbound_queue outbound_queue with_inbound with_outbound with_sent].
  rewrite delete_where_In.
  rewrite andb_false_iff, Z.ltb_ge.
  destruct (status (out_q m)); cbn; intuition (try congruence; try lia).
Qed.

(** C8, as the code has it: a [completed] or [failed_permanent] row is
    left exactly as it is by every queue operation other than a mark call
    ([markProcessing], [markCompleted], [markRetry]) on that row's own id:
    by the enqueues, the dequeues, both stuck-row recoveries and the mark
    calls on other ids.  It leaves its table only through [cleanup], and
    only if it is a [completed] row created more than the TTL ago; a
    [failed_permanent] row is never deleted. *)
Theorem C8_terminal_row_kept_unless_marked
    (now : Z) (op : Op Attachment) (s : Store) (r : AnyRow) :
  In r (rows s) ->
  terminal (status (rowBase r)) = true ->
  addressedTo op r = false ->
  (In r (rows (exec now op s)) <->
   ~ (op = Cleanup Attachment /\ expired now (rowBase r))) /\
  (status (rowBase r) = failed_permanent \/ op <> Cleanup Attachment ->
   In r (rows (exec now op s))).
Proof.
  intros Hin Hterm Haddr.
  assert (Hiff : In r (rows (exec now op s)) <->
                 ~ (op = Cleanup Attachment /\ expired now (rowBase r))).
  { assert (Hdec : op = Cleanup Attachment \/ op <> Cleanup Attachment)
      by (destruct op; auto; right; discriminate).
    destruct Hdec as [-> | Hop].
    - destruct r as [m|m]; cbn [rowBase Queue.exec].
      + rewrite in_rows_inl in *. rewrite cleanup_inbound. tauto.
      + rewrite in_rows_inr in *. rewrite cleanup_outbound. tauto.
    - split; [tauto|]. intros _.
      destruct r as [m|m]; cbn [rowBase] in *.
      + rewrite in_rows_inl in *.
        apply terminal_inbound_kept; assumption.
      + rewrite in_rows_inr in *.
        apply terminal_outbound_kept; assumption. }
  split; [exact Hiff|].
  intros Hcase. apply Hiff. intros [Hop [Hst _]].
  destruct Hcase as [Hfp | Hne]; [congruence | contradiction].
Qed.
End Ops.

(** C8 as stated fails: [markInboundProcessing] has no status guard.  On
    the store holding the one completed row of
    [enqueueInbound("m1","c1","s1","hi")], [markInboundCompleted(1,"resp")],
    the call [markInboundProcessing(1)] rewrites that row to [processing]. *)
Lemma C8_markProcessing_rewrites_completed_row :
  In Examples.completedRow (inbound_queue Examples.oneInboundCompleted) /\
  terminal (status (in_q Examples.completedRow)) = true /\
  ~ In Examples.completedRow
      (inbound_queue
         (markInboundProcessing 3000 1 Examples.oneInboundCompleted)) /\
  option_map (fun m => status (in_q m))
    (inboundRow 1 (markInboundProcessing 3000 1 Examples.oneInboundCompleted))
  = Some processing.
Proof.
  repeat split.
  - left. reflexivity.
  - vm_compute. intros [H|[]]. discriminate H.
Qed.

(** The frame theorem at work: marking row 2 leaves the completed row 1. *)
Lemma C8_terminal_row_kept_witness :
  In (inl Examples.completedRow)
    (rows (exec Examples.sampleHash unit Examples.sampleStringify 3000
             (MarkInboundProcessing unit 2) Examples.oneInboundCompleted)).
Proof.
  apply (C8_terminal_row_kept_unless_marked
           Examples.sampleHash unit Examples.sampleStringify 3000
           (MarkInboundProcessing unit 2) Examples.oneInboundCompleted
           (inl Examples.completedRow)).
  - left. reflexivity.
  - reflexivity.
  - reflexivity.
  - right. discriminate.
Defined.

End TerminalFacts.

(* ================================================================== *)
(** * Enqueueing *)
(* ================================================================== *)

Module EnqueueFacts.

Import Queue Spec SqlFacts.

Lemma str_eqb_eq (a b : jsstring) : str_eqb a b = true <-> a = b.
Proof.
  revert b. induction a as [|x a IH]; intros [|y b]; cbn;
    try (split; [discriminate|discriminate]); [tauto|].
  rewrite andb_true_iff, N.eqb_eq, IH. split.
  - intros [-> ->]. reflexivity.
  - intros H. injection H as -> ->. tauto.
Qed.

Lemma str_eqb_refl (a : jsstring) : str_eqb a a = true.
Proof. apply str_eqb_eq. reflexivity. Qed.

Lemma str_eqb_neq (a b : jsstring) : str_eqb a b = false <-> a <> b.
Proof.
  rewrite <- str_eqb_eq. destruct (str_eqb a b); split; congruence.
Qed.

Lemma unresolved_spec st :
  unresolved st = true <-> st = pending \/ st = processing.
Proof.
  destruct st; cbn; split; intros H; try tauto; try discriminate;
    destruct H; discriminate.
Qed.

Lemma find_last_match {A : Type} (p : A -> bool) (l : list A) (x : A) :
  (forall y, In y l -> p y = false) -> p x = true ->
  find p (l ++ [x]) = Some x.
Proof.
  intros Hl Hx. induction l as [|y l IH]; cbn.
  - rewrite Hx. reflexivity.
  - rewrite (Hl y) by (left; reflexivity).
    apply IH. intros z Hz. apply Hl. right. exact Hz.
Qed.

Lemma find_some_iff {A : Type} (p : A -> bool) (l : list A) :
  (exists x, find p l = Some x) <-> (exists x, In x l /\ p x = true).
Proof.
  split.
  - intros [x Hx]. exists x. apply (find_some _ _ Hx).
  - intros [x [Hin Hp]]. destruct (find p l) as [y|] eqn:Hf.
    + exists y. reflexivity.
    + rewrite (find_none _ _ Hf x Hin) in Hp. discriminate.
Qed.

(** [find] sees through a filter that keeps everything it looks for. *)
Lemma find_filter {A : Type} (p q : A -> bool) (l : list A) :
  (forall x, p x = true -> q x = true) ->
  find p (filter q l) = find p l.
Proof.
  intros Himp. induction l as [|x l IH]; cbn; [reflexivity|].
  destruct (q x) eqn:Hq; cbn.
  - rewrite IH. reflexivity.
  - destruct (p x) eqn:Hp; [|exact IH].
    rewrite (Himp x Hp) in Hq. discriminate.
Qed.

(** The first dedup query answers whether there is an unresolved
    duplicate. *)
Lemma stmtCheckOutboundDupe_spec hash chatId now s :
  (exists rowId,
     stmtCheckOutboundDupe hash chatId (now - DEDUP_WINDOW_MS)
       (outbound_queue s) = Some rowId)
  <-> unresolvedDuplicate hash chatId now s.
Proof.
  unfold stmtCheckOutboundDupe, select_first, unresolvedDuplicate, inWindow.
  match goal with |- context [find ?q _] => set (p := q) end.
  assert (Hp : forall m, p m = true <->
            content_hash m = hash /\ out_chat_id m = chatId /\
            now - DEDUP_WINDOW_MS < created_at (out_q m) /\
            (status (out_q m) = pending \/ status (out_q m) = processing)).
  { intros m. unfold p.
    rewrite !andb_true_iff, !str_eqb_eq, Z.ltb_lt, unresolved_spec. tauto. }
  split.
  - intros [rowId H]. destruct (find p (outbound_queue s)) as [m|] eqn:Hf;
      [|discriminate].
    destruct (find_some _ _ Hf) as [Hin Hpm].
    exists m. split; [exact Hin|]. apply Hp. exact Hpm.
  - intros (m & Hin & Hm).
    destruct (proj2 (find_some_iff p (outbound_queue s))) as [x Hx].
    { exists m. split; [exact Hin|]. apply Hp. exact Hm. }
    rewrite Hx. eexists. reflexivity.
Qed.

(** The second dedup query answers whether the ledger has the key. *)
Lemma stmtCheckSentDupe_spec hash chatId now s :
  (exists rowId,
     stmtCheckSentDupe hash chatId (now - DEDUP_WINDOW_MS)
       (sent_messages s) = Some rowId)
  <-> sentDuplicate hash chatId now s.
Proof.
  unfold stmtCheckSentDupe, select_first, sentDuplicate, inWindow.
  match goal with |- context [find ?q _] => set (p := q) end.
  assert (Hp : forall r, p r = true <->
            sent_content_hash r = hash /\ sent_chat_id r = chatId /\
            now - DEDUP_WINDOW_MS < sent_created_at r).
  { intros r. unfold p.
    rewrite !andb_true_iff, !str_eqb_eq, Z.ltb_lt. tauto. }
  split.
  - intros [rowId H]. destruct (find p (sent_messages s)) as [r|] eqn:Hf;
      [|discriminate].
    destruct (find_some _ _ Hf) as [Hin Hpr].
    exists r. split; [exact Hin|]. apply Hp. exact Hpr.
  - intros (r & Hin & Hr).
    destruct (proj2 (find_some_iff p (sent_messages s))) as [x Hx].
    { exists r. split; [exact Hin|]. apply Hp. exact Hr. }
    rewrite Hx. eexists. reflexivity.
Qed.

Section Outbound.
Variable hashContent : jsstring -> jsstring.

Local Abbreviation enqueueOutbound := (enqueueOutbound hashContent).

(** The two-phase check of [enqueueOutbound], case by case. *)
Lemma enqueueOutbound_cases queueType params now s :
  let hash := hashContent (p_content params) in
  let chatId := p_chatId params in
  (unresolvedDuplicate hash chatId now s ->
   enqueueOutbound queueType params now s
   = (rejected "duplicate_pending", s)) /\
  (~ unresolvedDuplicate hash chatId now s ->
   sentDuplicate hash chatId now s ->
   enqueueOutbound queueType params now s
   = (rejected "already_sent", s)) /\
  (~ unresolvedDuplicate hash chatId now s ->
   ~ sentDuplicate hash chatId now s ->
   exists m,
     enqueueOutbound queueType params now s
     = (accepted (id (out_q m)),
        {| outbound_queue := outbound_queue s ++ [m];
           outbound_seq := id (out_q m);
           inbound_queue := inbound_queue s;
           inbound_seq := inbound_seq s;
           sent_messages := sent_messages s;
           sent_seq := sent_seq s |}) /\
     id (out_q m) = outbound_seq s + 1 /\
     status (out_q m) = pending /\
     retries (out_q m) = 0 /\
     created_at (out_q m) = now /\
     queue_type m = queueType /\
     content m = p_content params /\
     content_hash m = hash /\
     out_chat_id m = chatId).
Proof.
  intros hash chatId.
  pose proof (stmtCheckOutboundDupe_spec hash chatId now s) as Hdup.
  pose proof (stmtCheckSentDupe_spec hash chatId now s) as Hsent.
  unfold Queue.enqueueOutbound. fold hash. fold chatId.
  destruct (stmtCheckOutboundDupe hash chatId _ _) as [i|].
  - assert (unresolvedDuplicate hash chatId now s)
      by (apply Hdup; eexists; reflexivity).
    split; [intros _; reflexivity|split; intros; contradiction].
  - assert (Hnd : ~ unresolvedDuplicate hash chatId now s).
    { intros H. apply Hdup in H. destruct H; discriminate. }
    destruct (stmtCheckSentDupe hash chatId _ _) as [j|].
    + assert (sentDuplicate hash chatId now s)
        by (apply Hsent; eexists; reflexivity).
      split; [intros; contradiction|].
      split; [intros _ _; reflexivity|intros; contradiction].
    + assert (Hns : ~ sentDuplicate hash chatId now s).
      { intros H. apply Hsent in H. destruct H; discriminate. }
      split; [intros; contradiction|].
      split; [intros; contradiction|]. intros _ _.
      exists {| out_q := fresh_row (outbound_seq s + 1) now now now;
                queue_type := queueType;
                run_id := orElse (p_runId params) [];
                out_session_key := p_sessionKey params;
                out_chat_id := chatId;
                content := p_content params;
                content_hash := hash;
                lark_message_id := None |}.
      split; [reflexivity|]. cbn. auto 10.
Qed.

(** Completing a row puts its key on the ledger. *)
Lemma markOutboundCompleted_records now rowId larkMessageId s m :
  outboundRow rowId s = Some m ->
  sent_messages (markOutboundCompleted now rowId larkMessageId s)
  = sent_messages s ++
    [ {| sent_id := sent_seq s + 1;
         sent_content_hash := content_hash m;
         sent_chat_id := out_chat_id m;
         sent_lark_message_id := larkMessageId;
         sent_created_at := now |} ].
Proof.
  unfold outboundRow, markOutboundCompleted. intros ->. reflexivity.
Qed.

(** C4, as the code has it.  (1) [enqueueOutbound] answers
    [duplicate_pending] when a pending or processing row with the same
    [(contentHash, chatId)] was created inside the last 10 minutes;
    otherwise [already_sent] when the ledger has such a SentRecord;
    otherwise it appends exactly one new [pending] row and answers
    [enqueued = true] with its id.  (2) After [markOutboundCompleted] of
    a row, a re-enqueue of the same content and chatId inside the window
    is always rejected and changes nothing: as [already_sent] unless some
    pending or processing row with that key is inside the window, and as
    [duplicate_pending] if one is.  (3) The answer depends only on the
    rows and SentRecords of the same chatId; with none of those in the
    store the enqueue succeeds, whatever is queued or sent with the same
    content for other chats. *)
Theorem C4_enqueueOutbound_dedup :
  (forall queueType params now s,
     let hash := hashContent (p_content params) in
     let chatId := p_chatId params in
     (unresolvedDuplicate hash chatId now s ->
      enqueueOutbound queueType params now s
      = (rejected "duplicate_pending", s)) /\
     (~ unresolvedDuplicate hash chatId now s ->
      sentDuplicate hash chatId now s ->
      enqueueOutbound queueType params now s
      = (rejected "already_sent", s)) /\
     (~ unresolvedDuplicate hash chatId now s ->
      ~ sentDuplicate hash chatId now s ->
      exists m,
        enqueueOutbound queueType params now s
        = (accepted (id (out_q m)),
           {| outbound_queue := outbound_queue s ++ [m];
              outbound_seq := id (out_q m);
              inbound_queue := inbound_queue s;
              inbound_seq := inbound_seq s;
              sent_messages := sent_messages s;
              sent_seq := sent_seq s |}) /\
        status (out_q m) = pending /\
        content m = p_content params /\
        content_hash m = hash /\
        out_chat_id m = chatId)) /\
  (forall queueType params s rowId m larkMessageId tDone tAgain,
     outboundRow rowId s = Some m ->
     content_hash m = hashContent (p_content params) ->
     out_chat_id m = p_chatId params ->
     inWindow tAgain tDone ->
     let s' := markOutboundCompleted tDone rowId larkMessageId s in
     let hash := hashContent (p_content params) in
     (~ unresolvedDuplicate hash (p_chatId params) tAgain s' ->
      enqueueOutbound queueType params tAgain s'
      = (rejected "already_sent", s')) /\
     (unresolvedDuplicate hash (p_chatId params) tAgain s' ->
      enqueueOutbound queueType params tAgain s'
      = (rejected "duplicate_pending", s'))) /\
  (forall queueType params now s,
     fst (enqueueOutbound queueType params now s)
     = fst (enqueueOutbound queueType params now
              (forChat (p_chatId params) s))) /\
  (forall queueType params now s,
     (forall m, In m (outbound_queue s) ->
                out_chat_id m <> p_chatId params) ->
     (forall r, In r (sent_messages s) ->
                sent_chat_id r <> p_chatId params) ->
     enqueued (fst (enqueueOutbound queueType params now s)) = true).
Proof.
  split; [|split; [|split]].
  - intros queueType params now s hash chatId.
    destruct (enqueueOutbound_cases queueType params now s)
      as (H1 & H2 & H3).
    split; [exact H1|]. split; [exact H2|].
    intros Hnd Hns. destruct (H3 Hnd Hns) as (m & Heq & Hm).
    exists m. split; [exact Heq|]. tauto.
  - intros queueType params s rowId m larkMessageId tDone tAgain
      Hrow Hhash Hchat Hwin s' hash.
    destruct (enqueueOutbound_cases queueType params tAgain s')
      as (H1 & H2 & _).
    split; [|exact H1].
    intros Hnd. apply H2; [exact Hnd|].
    unfold sentDuplicate. eexists. split.
    + unfold s'. rewrite (markOutboundCompleted_records _ _ _ _ _ Hrow).
      apply in_or_app. right. left. reflexivity.
    + cbn. auto.
  - intros queueType params now s. unfold Queue.enqueueOutbound.
    unfold stmtCheckOutboundDupe, stmtCheckSentDupe, select_first, forChat.
    cbn [outbound_queue sent_messages].
    rewrite !find_filter.
    + destruct (find _ (outbound_queue s)); [reflexivity|].
      destruct (find _ (sent_messages s)); reflexivity.
    + intros r Hr. rewrite !andb_true_iff in Hr. tauto.
    + intros m Hm. rewrite !andb_true_iff in Hm. tauto.
  - intros queueType params now s Hrows Hsent.
    destruct (enqueueOutbound_cases queueType params now s)
      as (_ & _ & H3).
    destruct H3 as (m & -> & _); [| |reflexivity].
    + intros (m & Hin & _ & Hchat & _). exact (Hrows m Hin Hchat).
    + intros (r & Hin & _ & Hchat & _). exact (Hsent r Hin Hchat).
Qed.
End Outbound.

Section InboundTwice.
Variable Attachment : Type.
Variable JSON_stringify : list Attachment -> jsstring.

Local Abbreviation enqueueInbound :=
  (enqueueInbound Attachment JSON_stringify).

(** A message id the table already holds is reported as a duplicate and
    nothing is written. *)
Lemma enqueueInbound_existing params now s m :
  In m (inbound_queue s) ->
  message_id m = p_messageId params ->
  exists st,
    enqueueInbound params now s
    = ({| enqueued := false; reason := Some (lit "duplicate");
          res_id := None; existing := Some st |}, s).
Proof.
  intros Hin Hid. unfold Queue.enqueueInbound, stmtCheckInboundExists.
  destruct (proj2 (find_some_iff
              (fun x => str_eqb (message_id x) (p_messageId params))
              (inbound_queue s))) as [x Hx].
  { exists m. split; [exact Hin|]. apply str_eqb_eq. exact Hid. }
  unfold select_first. rewrite Hx. cbn. eexists. reflexivity.
Qed.

(** C5: with a message id the table does not hold yet, the first
    [enqueueInbound] stores one new [pending] row and answers
    [enqueued = true] with that row's id; a second call with the same
    message id answers [enqueued = false], [reason = "duplicate"] and
    leaves the store as the first call left it, so exactly one row
    carries the message id. *)
Theorem C5_enqueueInbound_twice
    (first second : InboundParams Attachment) (t1 t2 : Z) (s : Store) :
  p_messageId second = p_messageId first ->
  (forall m, In m (inbound_queue s) -> message_id m <> p_messageId first) ->
  exists m,
    enqueueInbound first t1 s
    = (accepted (id (in_q m)),
       {| outbound_queue := outbound_queue s;
          outbound_seq := outbound_seq s;
          inbound_queue := inbound_queue s ++ [m];
          inbound_seq := id (in_q m);
          sent_messages := sent_messages s;
          sent_seq := sent_seq s |}) /\
    message_id m = p_messageId first /\
    message_text m = p_messageText first /\
    status (in_q m) = pending /\
    enqueued (fst (enqueueInbound second t2
                     (snd (enqueueInbound first t1 s)))) = false /\
    reason (fst (enqueueInbound second t2
                   (snd (enqueueInbound first t1 s))))
    = Some (lit "duplicate") /\
    snd (enqueueInbound second t2 (snd (enqueueInbound first t1 s)))
    = snd (enqueueInbound first t1 s) /\
    filter (fun x => str_eqb (message_id x) (p_messageId first))
      (inbound_queue
         (snd (enqueueInbound second t2
                 (snd (enqueueInbound first t1 s)))))
    = [m].
Proof.
  intros Hsame Hfresh.
  assert (Hno : forall x, In x (inbound_queue s) ->
                str_eqb (message_id x) (p_messageId first) = false).
  { intros x Hx. apply str_eqb_neq. apply Hfresh. exact Hx. }
  assert (Hfirst : exists m,
    enqueueInbound first t1 s
    = (accepted (id (in_q m)),
       {| outbound_queue := outbound_queue s;
          outbound_seq := outbound_seq s;
          inbound_queue := inbound_queue s ++ [m];
          inbound_seq := id (in_q m);
          sent_messages := sent_messages s;
          sent_seq := sent_seq s |}) /\
    message_id m = p_messageId first /\
    message_text m = p_messageText first /\
    status (in_q m) = pending).
  { unfold Queue.enqueueInbound, stmtCheckInboundExists.
    rewrite (proj2 (select_first_none _ _) Hno). cbn [option_map].
    unfold stmtEnqueueInbound.
    replace (existsb _ (inbound_queue s)) with false.
    - exists {| in_q := fresh_row (inbound_seq s + 1) t1 t1 t1;
                message_id := p_messageId first;
                in_chat_id := p_inChatId first;
                in_session_key := p_inSessionKey first;
                message_text := p_messageText first;
                attachments_json :=
                  option_map JSON_stringify (p_attachments first);
                response_text := None |}.
      split; [reflexivity|]. cbn. auto.
    - symmetry. apply not_true_is_false. intros Hex.
      apply existsb_exists in Hex. destruct Hex as (x & Hx & Hpx).
      rewrite (Hno x Hx) in Hpx. discriminate. }
  destruct Hfirst as (m & Heq & Hid & Htext & Hst).
  exists m. rewrite Heq. cbn [snd].
  destruct (enqueueInbound_existing second t2
              {| outbound_queue := outbound_queue s;
                 outbound_seq := outbound_seq s;
                 inbound_queue := inbound_queue s ++ [m];
                 inbound_seq := id (in_q m);
                 sent_messages := sent_messages s;
                 sent_seq := sent_seq s |} m) as [st Hsecond].
  { cbn. apply in_or_app. right. left. reflexivity. }
  { congruence. }
  rewrite Hsecond. cbn [fst snd enqueued reason inbound_queue].
  repeat split; try assumption.
  rewrite filter_app. cbn [filter].
  replace (str_eqb (message_id m) (p_messageId first)) with true
    by (symmetry; apply str_eqb_eq; exact Hid).
  replace (filter _ (inbound_queue s)) with (@nil InboundMessage);
    [reflexivity|].
  symmetry. clear Hsecond Heq Hfresh. revert Hno.
  induction (inbound_queue s) as [|x l IH]; intros Hno; [reflexivity|].
  cbn. rewrite (Hno x) by (left; reflexivity).
  apply IH. intros y Hy. apply Hno. right. exact Hy.
Qed.
End InboundTwice.

(** C4 as stated fails in its second sentence.  Queue ["hi"] for chat
    ["c1"] at time 0 (row 1) and again at 600001, when row 1 has left the
    dedup window (row 2); complete row 1 at 600002.  The re-enqueue at
    600003 is answered [duplicate_pending], on account of row 2, and not
    [already_sent]. *)
Lemma C4_reenqueue_after_completion_duplicate_pending :
  option_map (fun m => status (out_q m)) (outboundRow 1 Examples.firstDelivered)
  = Some completed /\
  fst (enqueueOutbound Examples.sampleHash reply
         (Examples.outboundHi (lit "c1")) 600003 Examples.firstDelivered)
  = rejected "duplicate_pending" /\
  reason
    (fst (enqueueOutbound Examples.sampleHash reply
            (Examples.outboundHi (lit "c1")) 600003 Examples.firstDelivered))
  <> Some (lit "already_sent").
Proof.
  split; [reflexivity|]. split; [reflexivity|].
  vm_compute. discriminate.
Qed.

(** Queue ["hi"] for ["c1"] at time 0, complete the row at 1000: the
    re-enqueue at 2000 finds nothing unresolved and is [already_sent]. *)
Lemma C4_enqueueOutbound_dedup_witness :
  enqueueOutbound Examples.sampleHash reply (Examples.outboundHi (lit "c1"))
    2000
    (markOutboundCompleted 1000 1 (Some (lit "om_1")) Examples.oneOutbound)
  = (rejected "already_sent",
     markOutboundCompleted 1000 1 (Some (lit "om_1")) Examples.oneOutbound).
Proof.
  pose proof (C4_enqueueOutbound_dedup Examples.sampleHash) as (_ & H & _).
  destruct (select_first (out_has_id 1)
              (outbound_queue Examples.oneOutbound)) as [m|] eqn:Hm;
    [|discriminate Hm].
  apply (H reply (Examples.outboundHi (lit "c1")) Examples.oneOutbound 1 m
           (Some (lit "om_1")) 1000 2000).
  - exact Hm.
  - vm_compute in Hm. injection Hm as <-. reflexivity.
  - vm_compute in Hm. injection Hm as <-. reflexivity.
  - reflexivity.
  - intros (x & Hin & _ & _ & _ & Hst).
    vm_compute in Hin. destruct Hin as [<-|[]].
    destruct Hst as [Hst|Hst]; discriminate Hst.
Defined.

(** The message id ["m1"] twice on the empty store. *)
Lemma C5_enqueueInbound_twice_witness :
  reason
    (fst (enqueueInbound unit Examples.sampleStringify Examples.inboundHiAgain
            2000
            (snd (enqueueInbound unit Examples.sampleStringify
                    Examples.inboundHi 1000 Examples.emptyStore))))
  = Some (lit "duplicate").
Proof.
  destruct (C5_enqueueInbound_twice unit Examples.sampleStringify
              Examples.inboundHi Examples.inboundHiAgain 1000 2000
              Examples.emptyStore)
    as (m & _ & _ & _ & _ & _ & H & _);
    [reflexivity | intros m [] | exact H].
Defined.

End EnqueueFacts.

(* ================================================================== *)
(** * Dequeueing *)
(* ================================================================== *)

Module DequeueFacts.

Import Queue Spec SqlFacts.

Lemma dequeueable_spec now q :
  dequeueable now q = true <-> status q = pending /\ dueAt now q.
Proof.
  unfold dequeueable, is_due, dueAt. rewrite andb_true_iff.
  destruct (status q); cbn; destruct (next_retry_at q) as [t|];
    rewrite ?Z.leb_le; split; intros [H1 H2]; try discriminate;
    try (split; [reflexivity|]); auto.
  - right. exists t. auto.
  - destruct H2 as [H2|(t' & H2 & Hle)]; [discriminate|].
    injection H2 as ->. exact Hle.
Qed.

Lemma HdRel_firstn {A : Type} (R : A -> A -> Prop) a (l : list A) n :
  HdRel R a l -> HdRel R a (firstn n l).
Proof.
  intros H. destruct n; [constructor|].
  destruct H; constructor. assumption.
Qed.

Lemma Sorted_firstn {A : Type} (R : A -> A -> Prop) (l : list A) n :
  Sorted R l -> Sorted R (firstn n l).
Proof.
  intros H. revert n. induction H as [|a l Hl IH Hhd]; intros n.
  - rewrite firstn_nil. constructor.
  - destruct n; cbn; constructor; [apply IH|].
    apply HdRel_firstn. exact Hhd.
Qed.

(** What [WHERE ... ORDER BY created_at ASC LIMIT ?] returns. *)
Lemma select_ordered_limited {Row : Type} (base : Row -> QueueMessage)
    (visit : list Row -> Row -> Z) now limit (tbl : list Row) :
  dequeued base now limit tbl
    (firstn limit
       (order_by (fun m => created_at (base m))
          (scan visit (fun m => dequeueable now (base m)) tbl))).
Proof.
  set (due := scan visit _ tbl).
  set (sorted := order_by _ due).
  exists (skipn limit sorted).
  rewrite firstn_skipn.
  assert (Hsorted : Sorted (olderOrSame base) sorted)
    by apply (order_by_sorted (fun m => created_at (base m))).
  repeat split.
  - apply Permutation_sym.
    apply (perm_trans (scan_perm visit _ tbl)). apply order_by_perm.
  - apply Sorted_firstn. exact Hsorted.
  - apply Forall_forall. intros a Ha. apply Forall_forall. intros b Hb.
    apply (sorted_firstn_skipn (fun m => created_at (base m))
             sorted limit a b); assumption.
  - apply length_firstn.
Qed.

Section Dequeue.
Variable hashContent : jsstring -> jsstring.
Variable Attachment : Type.
Variable JSON_stringify : list Attachment -> jsstring.

Local Abbreviation exec := (exec hashContent Attachment JSON_stringify).

(** C6: [dequeueInbound(limit)] and [dequeueOutbound(limit)] return the
    rows of their table whose status is [pending] and whose
    [next_retry_at] is null or at most [now], oldest [created_at] first,
    cut off after [limit] rows, and the store is the same afterwards.
    This holds in whatever order the query plan delivers rows of equal
    [created_at]. *)
Theorem C6_dequeue_selects_due_pending_rows
    (plan : QueryPlan) (now : Z) (limit : nat) (s : Store) :
  dequeued in_q now limit (inbound_queue s)
    (dequeueInbound plan now limit s) /\
  dequeued out_q now limit (outbound_queue s)
    (dequeueOutbound plan now limit s) /\
  (forall q, dequeueable now q = true <->
             status q = pending /\ dueAt now q) /\
  exec now (DequeueInbound Attachment limit) s = s /\
  exec now (DequeueOutbound Attachment limit) s = s.
Proof.
  split; [apply select_ordered_limited|].
  split; [apply select_ordered_limited|].
  split; [intros q; apply dequeueable_spec|].
  split; reflexivity.
Qed.
End Dequeue.

End DequeueFacts.

(* ================================================================== *)
(** * The message-type classifier and the outbound sender *)
(* ================================================================== *)

Module SenderFacts.

Import Queue CardBuilder Sender Spec.

Lemma splitLF_length (t : jsstring) :
  List.length (splitLF t) = S (count_occ N.eq_dec t LF).
Proof.
  induction t as [|c t IH]; [reflexivity|].
  cbn [splitLF]. destruct (N.eqb_spec c LF) as [->|Hne].
  - rewrite count_occ_cons_eq by reflexivity. cbn. rewrite IH. reflexivity.
  - rewrite count_occ_cons_neq by exact Hne.
    destruct (splitLF t); cbn in *; [discriminate|exact IH].
Qed.

Lemma sentinel_spec (t : jsstring) :
  str_eqb t (lit "NO_REPLY") || str_eqb t (lit "HEARTBEAT_OK") = true
  <-> isSentinel t.
Proof.
  unfold isSentinel.
  rewrite orb_true_iff, !EnqueueFacts.str_eqb_eq. reflexivity.
Qed.

Lemma short_spec (t : jsstring) :
  (strLength t <? 100) && (Z.of_nat (List.length (splitLF t)) <=? 2) = true
  <-> shortText t.
Proof.
  unfold shortText, lineCount.
  rewrite andb_true_iff, Z.ltb_lt, Z.leb_le, splitLF_length. reflexivity.
Qed.

(** The classifier, case by case. *)
Lemma selectMessageType_cases (t : jsstring) :
  (t = [] \/ isSentinel t -> selectMessageType (Some t) = skip) /\
  (t <> [] -> ~ isSentinel t -> shortText t ->
   selectMessageType (Some t) = text) /\
  (t <> [] -> ~ isSentinel t -> ~ shortText t ->
   selectMessageType (Some t) = interactive).
Proof.
  pose proof (sentinel_spec t) as Hs. pose proof (short_spec t) as Hshort.
  unfold selectMessageType.
  destruct t as [|c t'].
  - repeat split; intros; try congruence. 
  - cbn [orb]. 
    destruct (str_eqb _ (lit "NO_REPLY") || str_eqb _ (lit "HEARTBEAT_OK")).
    + assert (isSentinel (c :: t')) by (apply Hs; reflexivity).
      split; [reflexivity|]. split; intros; contradiction.
    + assert (Hns : ~ isSentinel (c :: t')).
      { intros H. apply Hs in H. discriminate. }
      destruct ((strLength (c :: t') <? 100) && _).
      * assert (shortText (c :: t')) by (apply Hshort; reflexivity).
        split; [intros [H0|H0]; [discriminate|contradiction]|].
        split; [reflexivity|intros; contradiction].
      * assert (Hnshort : ~ shortText (c :: t')).
        { intros H. apply Hshort in H. discriminate. }
        split; [intros [H0|H0]; [discriminate|contradiction]|].
        split; [intros; contradiction|reflexivity].
Qed.

Section OneSender.
Variable Card : Type.
Variable buildCard : jsstring -> option jsstring -> Card.
Variable chatTransport : nat -> SendOutcome.

(** A message the classifier skips goes through the queue consumer
    without a transport call and is marked completed. *)
Lemma skipped_message_is_completed (msg : OutboundMessage)
    (w : World Card) :
  selectMessageType (Some (content msg)) = skip ->
  processOutboundMessage Card
    (Channel.sendToLarkWithRetry Card buildCard chatTransport) msg w
  = (tt,
     {| store :=
          markOutboundCompleted (clock w) (id (out_q msg)) None
            (markOutboundProcessing (clock w) (id (out_q msg)) (store w));
        clock := clock w; calls := calls w; events := events w;
        outboundConsumerRunning := outboundConsumerRunning w |}).
Proof.
  intros Hskip.
  unfold processOutboundMessage, Channel.sendToLarkWithRetry, bind, onQueue.
  rewrite Hskip. reflexivity.
Qed.

(** C9: the classifier is a function of the text alone.  Absent or
    empty text and the sentinels [NO_REPLY] and [HEARTBEAT_OK] give
    [skip]; any other text of fewer than 100 code units and at most two
    lines gives [text], so ["hi"] does; everything else gives
    [interactive], so the long text of several paragraphs does.  A
    skipped queue item reaches no transport call, sleeps never, and is
    marked completed. *)
Theorem C9_classifier :
  selectMessageType None = skip /\
  (forall t, t = [] \/ isSentinel t -> selectMessageType (Some t) = skip) /\
  (forall t, t <> [] -> ~ isSentinel t -> shortText t ->
             selectMessageType (Some t) = text) /\
  (forall t, t <> [] -> ~ isSentinel t -> ~ shortText t ->
             selectMessageType (Some t) = interactive) /\
  selectMessageType (Some (lit "NO_REPLY")) = skip /\
  selectMessageType (Some (lit "hi")) = text /\
  selectMessageType (Some Examples.longText) = interactive /\
  (forall (msg : OutboundMessage) (w : World Card),
     selectMessageType (Some (content msg)) = skip ->
     let w' :=
       snd (processOutboundMessage Card
              (Channel.sendToLarkWithRetry Card buildCard chatTransport)
              msg w) in
     events w' = events w /\
     calls w' = calls w /\
     store w'
     = markOutboundCompleted (clock w) (id (out_q msg)) None
         (markOutboundProcessing (clock w) (id (out_q msg)) (store w))).
Proof.
  split; [reflexivity|].
  split; [intros t; apply selectMessageType_cases|].
  split; [intros t; apply selectMessageType_cases|].
  split; [intros t; apply selectMessageType_cases|].
  split; [reflexivity|]. split; [reflexivity|].
  split; [vm_compute; reflexivity|].
  intros msg w Hskip w'. subst w'.
  rewrite (skipped_message_is_completed msg w Hskip). cbn. auto.
Qed.

Lemma sendOnce_run msgType chatId content_ sessionKey (w : World Card) :
  sendOnce Card buildCard chatTransport msgType chatId content_ sessionKey w
  = (chatTransport (calls w),
     called (sendEvent Card buildCard msgType chatId content_ sessionKey) w).
Proof. destruct msgType; reflexivity. Qed.

(** dist/src/channel.js: a failure whose error text carries a
    non-retryable code ends the loop at once: one transport call, no
    sleep, no further attempt, and the error is the result. *)
Lemma dist_loop_stops_on_non_retryable
    msgType chatId content_ sessionKey attempt rest lastError
    (w : World Card) result :
  chatTransport (calls w) = Returned result ->
  success result = false ->
  ChannelDist.nonRetryable (orElse (error result) (lit "Unknown error"))
  = true ->
  ChannelDist.attempts Card buildCard chatTransport msgType chatId content_
    sessionKey (attempt :: rest) lastError w
  = ({| skipped := false; r_messageId := None;
        r_error := Some (orElse (error result) (lit "Unknown error")) |},
     called (sendEvent Card buildCard msgType chatId content_ sessionKey) w).
Proof.
  intros Hout Hfail Hcode. cbn [ChannelDist.attempts]. unfold bind.
  rewrite sendOnce_run, Hout, Hfail, Hcode. reflexivity.
Qed.

(** ... and the queue consumer hands that error to [markOutboundRetry]. *)
Lemma dist_non_retryable_reaches_queue_retry (msg : OutboundMessage)
    (w : World Card) result :
  selectMessageType (Some (content msg)) <> skip ->
  chatTransport (calls w) = Returned result ->
  success result = false ->
  ChannelDist.nonRetryable (orElse (error result) (lit "Unknown error"))
  = true ->
  let w' :=
    snd (processOutboundMessage Card
           (ChannelDist.sendToLarkWithRetry Card buildCard chatTransport)
           msg w) in
  calls w' = S (calls w) /\
  events w'
  = events w ++
    [sendEvent Card buildCard (selectMessageType (Some (content msg)))
       (out_chat_id msg) (content msg) (Some (out_session_key msg))] /\
  store w'
  = markOutboundRetry (clock w) (id (out_q msg))
      (orElse (error result) (lit "Unknown error"))
      (markOutboundProcessing (clock w) (id (out_q msg)) (store w)).
Proof.
  intros Hns Hout Hfail Hcode w'. subst w'.
  unfold processOutboundMessage, ChannelDist.sendToLarkWithRetry.
  unfold bind, onQueue.
  set (w1 := {| store := markOutboundProcessing _ _ _; clock := clock w;
                calls := calls w; events := events w;
                outboundConsumerRunning := outboundConsumerRunning w |}).
  change attemptNumbers with (1 :: map Z.of_nat (seq 2 119)).
  assert (Hout1 : chatTransport (calls w1) = Returned result)
    by exact Hout.
  destruct (selectMessageType (Some (content msg))) eqn:Htype;
    [contradiction| |];
    rewrite (dist_loop_stops_on_non_retryable _ _ _ _ _ _ _ w1 result
               Hout1 Hfail Hcode);
    cbn [skipped r_messageId r_error truthy snd fst called calls events
         store clock w1];
    auto.
Qed.

(** src/channel.ts: whatever the error text says, a failed attempt that
    is not the last one is followed by the backoff sleep and the next
    attempt. *)
Lemma ts_loop_sleeps_and_goes_on
    msgType chatId content_ sessionKey attempt rest lastError
    (w : World Card) result :
  chatTransport (calls w) = Returned result ->
  success result = false ->
  attempt < SEND_MAX_RETRIES ->
  Channel.attempts Card buildCard chatTransport msgType chatId content_
    sessionKey (attempt :: rest) lastError w
  = Channel.attempts Card buildCard chatTransport msgType chatId content_
      sessionKey rest
      (Some (orElse (error result) (lit "Unknown error")))
      (slept (calculateSendBackoff attempt)
         (called
            (sendEvent Card buildCard msgType chatId content_ sessionKey) w)).
Proof.
  intros Hout Hfail Hlt. cbn [Channel.attempts]. unfold bind at 1.
  rewrite sendOnce_run, Hout, Hfail. unfold backoffThen.
  apply Z.ltb_lt in Hlt. rewrite Hlt. reflexivity.
Qed.
End OneSender.

(** C2, on src/channel.ts: against a transport that answers every send
    with [{ success: false, error: "Lark API error 230001: permission
    denied" }] (230001 is in the non-retryable set), [sendToLarkWithRetry]
    does not stop after the first attempt: it makes all 120 attempts with
    the 119 backoff sleeps in between, 771391 seconds of them, before it
    returns the error.  The compiled dist/src/channel.js stops after the
    one attempt, without a sleep. *)
Theorem C2_ts_sender_retries_non_retryable_error :
  ChannelDist.nonRetryable Examples.permissionDeniedError = true /\
  r_error (fst Examples.deniedRunTs) = Some Examples.permissionDeniedError /\
  calls (snd Examples.deniedRunTs) = 120%nat /\
  List.length (filter Examples.isSleep (events (snd Examples.deniedRunTs)))
  = 119%nat /\
  firstn 3 (events (snd Examples.deniedRunTs))
  = [SendText (lit "c1") (lit "hi"); Sleep 1000;
     SendText (lit "c1") (lit "hi")] /\
  clock (snd Examples.deniedRunTs) = 771391000 /\
  Examples.deniedRunDist
  = ({| skipped := false; r_messageId := None;
        r_error := Some Examples.permissionDeniedError |},
     {| store := Examples.emptyStore; clock := 0; calls := 1;
        events := [SendText (lit "c1") (lit "hi")];
        outboundConsumerRunning := true |}).
Proof. repeat split; vm_compute; reflexivity. Qed.

(** A short reply of one line. *)
Lemma C9_classifier_witness :
  selectMessageType (Some (lit "Got it!")) = text.
Proof.
  apply (proj1 (proj2 (proj2
           (C9_classifier unit Examples.noCard Examples.alwaysDenied)))).
  - discriminate.
  - intros [H|H]; discriminate H.
  - split.
    + reflexivity.
    + intros H. vm_compute in H. discriminate H.
Defined.

End SenderFacts.

(* ================================================================== *)
(** * The scenarios of the specification, run on the model *)
(* ================================================================== *)

Module Scenarios.

Import Queue Spec Examples.

(** [enqueueInbound("m1","c1","s1","hi")], then [dequeueInbound(10)]:
    exactly one row, with text ["hi"]. *)
Example dequeue_after_enqueue :
  map message_text (dequeueInbound rowidOrder 1000 10 oneInbound)
  = [lit "hi"].
Proof. reflexivity. Qed.

(** [markInboundCompleted(id, "resp")] takes it out of later dequeues. *)
Example dequeue_after_completed :
  dequeueInbound rowidOrder 3000 10 oneInboundCompleted = [].
Proof. reflexivity. Qed.

(** After the completion the table holds just the completed row. *)
Example completed_row_stored :
  inbound_queue oneInboundCompleted = [completedRow].
Proof. reflexivity. Qed.

(** After a [markInboundRetry] the row is not available at once, and it is
    again once the backoff has passed. *)
Example retried_row_waits :
  dequeueInbound rowidOrder 2000 10
    (markInboundRetry 2000 1 (lit "Gateway timeout") oneInbound) = [] /\
  List.length
    (dequeueInbound rowidOrder 4000 10
       (markInboundRetry 2000 1 (lit "Gateway timeout") oneInbound))
  = 1%nat.
Proof. split; reflexivity. Qed.

(** [enqueueOutbound("reply","s","c1","hi")] twice, back to back. *)
Example outbound_twice :
  fst (enqueueOutbound sampleHash reply (outboundHi (lit "c1")) 1 oneOutbound)
  = rejected "duplicate_pending".
Proof. reflexivity. Qed.

(** The same content for another chat goes through. *)
Example outbound_other_chat :
  fst (enqueueOutbound sampleHash reply (outboundHi (lit "c2")) 1 oneOutbound)
  = accepted 2.
Proof. reflexivity. Qed.

(** A row left [processing] is [pending] again after a reopen, with its
    [retries] as they were. *)
Example reopen_restores_processing_row :
  map (fun m => (status (in_q m), retries (in_q m)))
    (inbound_queue
       (openStore 9000 9000 9000
          (markInboundProcessing 3000 1
             (markInboundRetry 2000 1 (lit "Gateway timeout") oneInbound))))
  = [(pending, 1)].
Proof. reflexivity. Qed.

(** Two rows enqueued in the same millisecond: which of them a dequeue
    with limit 1 returns is up to the query plan. *)
Example ties_follow_the_plan :
  let s :=
    snd (enqueueOutbound sampleHash reply (outboundHi (lit "c2")) 0
           oneOutbound) in
  map (fun m => id (out_q m)) (dequeueOutbound rowidOrder 10 1 s) = [1] /\
  map (fun m => id (out_q m)) (dequeueOutbound newestFirst 10 1 s) = [2].
Proof. split; reflexivity. Qed.

(** Oldest first, and no more than the limit. *)
Example dequeue_orders_and_limits :
  map (fun m => id (out_q m))
    (dequeueOutbound rowidOrder 700000 1 twoOutbound) = [1] /\
  map (fun m => id (out_q m))
    (dequeueOutbound newestFirst 700000 5 twoOutbound) = [1; 2].
Proof. split; reflexivity. Qed.

End Scenarios.

(* ================================================================== *)
(** * Invariants of the queue operations *)
(* ================================================================== *)

Module InvariantFacts.

Import Queue Spec Props SqlFacts.

Lemma map_update_where {Row K : Type} (key : Row -> K) (p : Row -> bool)
    (f : Row -> Row) (tbl : list Row) :
  (forall r, key (f r) = key r) ->
  map key (update_where p f tbl) = map key tbl.
Proof.
  intros Hkey. unfold update_where. rewrite map_map. apply map_ext.
  intros r. destruct (p r); [apply Hkey|reflexivity].
Qed.

Lemma Forall_update_where {Row : Type} (P : Row -> Prop) (p : Row -> bool)
    (f : Row -> Row) (tbl : list Row) :
  (forall r, P r -> P (f r)) ->
  Forall P tbl -> Forall P (update_where p f tbl).
Proof.
  intros Hf H. unfold update_where. apply Forall_map.
  apply (Forall_impl _ (P := P)); [|exact H].
  intros r Hr. destruct (p r); auto.
Qed.

Lemma idsWithin_snoc ids seq :
  idsWithin ids seq -> idsWithin (ids ++ [seq + 1]) (seq + 1).
Proof.
  intros [Hnd Hle]. split.
  - apply NoDup_app; [exact Hnd|repeat constructor; intros []|].
    intros i Hi [<-|[]]. rewrite Forall_forall in Hle.
    specialize (Hle _ Hi). lia.
  - apply Forall_app. split.
    + apply (Forall_impl _ (P := fun i => i <= seq)); [|exact Hle].
      intros i Hi. lia.
    + repeat constructor. lia.
Qed.

Lemma idsWithin_filter {Row : Type} (idf : Row -> Z) (p : Row -> bool)
    (tbl : list Row) seq :
  idsWithin (map idf tbl) seq -> idsWithin (map idf (filter p tbl)) seq.
Proof.
  intros [Hnd Hle]. split.
  - induction tbl as [|r tbl IH]; cbn in *; [constructor|].
    inversion Hnd as [|? ? Hnot Hnd']; subst.
    inversion Hle as [|? ? _ Hle']; subst.
    destruct (p r); cbn; [|auto].
    constructor; [|auto].
    intros Hin. apply Hnot. apply in_map_iff in Hin.
    destruct Hin as (x & Hx & Hin). apply filter_In in Hin.
    apply in_map_iff. exists x. tauto.
  - rewrite Forall_forall in *. intros i Hi. apply Hle.
    apply in_map_iff in Hi. destruct Hi as (x & Hx & Hin).
    apply filter_In in Hin. apply in_map_iff. exists x. tauto.
Qed.

Lemma find_update_where {Row : Type} (q p : Row -> bool) (f : Row -> Row)
    (tbl : list Row) :
  (forall r, q (f r) = q r) ->
  find q (update_where p f tbl)
  = option_map (fun r => if p r then f r else r) (find q tbl).
Proof.
  intros Hq. unfold update_where.
  induction tbl as [|x tbl IH]; cbn; [reflexivity|].
  destruct (p x) eqn:Hp; [rewrite Hq|]; destruct (q x); cbn;
    rewrite ?Hp; auto.
Qed.

Lemma find_app_found {A : Type} (q : A -> bool) (l l' : list A) (x : A) :
  find q l = Some x -> find q (l ++ l') = Some x.
Proof.
  induction l as [|y l IH]; cbn; [discriminate|].
  destruct (q y); auto.
Qed.

(** With distinct ids the row of an id is the one [SELECT ... WHERE id = ?]
    finds. *)
Lemma find_unique {Row : Type} (idf : Row -> Z) (q : Row -> bool)
    (tbl : list Row) (r : Row) :
  NoDup (map idf tbl) ->
  In r tbl ->
  (forall x, q x = true <-> idf x = idf r) ->
  find q tbl = Some r.
Proof.
  intros Hnd Hin Hq. induction tbl as [|x tbl IH]; [destruct Hin|].
  cbn in *. inversion Hnd as [|? ? Hnot Hnd']; subst.
  destruct Hin as [->|Hin].
  - rewrite (proj2 (Hq r) eq_refl). reflexivity.
  - destruct (q x) eqn:Hx; [|auto].
    exfalso. apply Hnot. apply Hq in Hx. rewrite Hx.
    apply in_map. exact Hin.
Qed.

Lemma inbound_ids_of_keys tbl :
  map (fun m => id (in_q m)) tbl
  = map (fun k => fst (fst (fst (fst (fst (fst k)))))) (map inKey tbl).
Proof. rewrite map_map. reflexivity. Qed.

Lemma outbound_ids_of_keys tbl :
  map (fun m => id (out_q m)) tbl
  = map (fun k => fst (fst (fst (fst (fst (fst (fst k)))))))
      (map outKey tbl).
Proof. rewrite map_map. reflexivity. Qed.

Lemma message_ids_of_keys tbl :
  map message_id tbl
  = map (fun k => snd (fst (fst (fst (fst k))))) (map inKey tbl).
Proof. rewrite map_map. reflexivity. Qed.

Ltac unfold_methods :=
  unfold markOutboundProcessing, markOutboundCompleted, markOutboundRetry,
    markInboundProcessing, markInboundCompleted, markInboundRetry,
    resetStuckMessages, recoverStuck, cleanup,
    stmtMarkOutboundProcessing, stmtMarkInboundProcessing,
    stmtUpdateOutbound, stmtUpdateInbound, stmtRecordSent.

Ltac split_branches :=
  repeat match goal with
         | |- context [hasExceededMaxRetries ?r] =>
             destruct (hasExceededMaxRetries r)
         | |- context [select_first (out_has_id ?i) ?t] =>
             destruct (select_first (out_has_id i) t)
         end.

Ltac project_store :=
  cbn [inbound_queue outbound_queue sent_messages inbound_seq outbound_seq
       sent_seq with_inbound with_outbound with_sent].

Section Ops.
Variable hashContent : jsstring -> jsstring.
Variable Attachment : Type.
Variable JSON_stringify : list Attachment -> jsstring.

Local Abbreviation exec := (exec hashContent Attachment JSON_stringify).

(** The mark calls, the dequeues and the stuck-row recoveries keep the
    rows of both queue tables in number and order, and in each row the
    id, [created_at] and everything that came with the enqueue. *)
Lemma identity_step (now : Z) (op : Op Attachment) (s : Store) :
  isRowUpdate op = true -> identity (exec now op s) = identity s.
Proof.
  intros Hop. destruct op; try discriminate Hop; cbn [Queue.exec];
    unfold identity; unfold_methods; split_branches; project_store;
    rewrite ?map_update_where by (intros; reflexivity); reflexivity.
Qed.

(** What an [enqueueOutbound] does to the store: nothing, or one row at
    the end of the table under the next rowid. *)
Lemma enqueueOutbound_effect queueType params now s :
  snd (enqueueOutbound hashContent queueType params now s) = s \/
  exists m,
    snd (enqueueOutbound hashContent queueType params now s)
    = {| outbound_queue := outbound_queue s ++ [m];
         outbound_seq := outbound_seq s + 1;
         inbound_queue := inbound_queue s; inbound_seq := inbound_seq s;
         sent_messages := sent_messages s; sent_seq := sent_seq s |} /\
    out_q m = fresh_row (outbound_seq s + 1) now now now /\
    content m = p_content params /\
    content_hash m = hashContent (p_content params) /\
    out_chat_id m = p_chatId params /\
    fst (enqueueOutbound hashContent queueType params now s)
    = accepted (outbound_seq s + 1).
Proof.
  unfold enqueueOutbound.
  destruct (stmtCheckOutboundDupe _ _ _ _); [left; reflexivity|].
  destruct (stmtCheckSentDupe _ _ _ _); [left; reflexivity|].
  right. eexists. cbn. repeat split.
Qed.

(** The same for [enqueueInbound]; the new row has a message id no other
    row has. *)
Lemma enqueueInbound_effect (params : InboundParams Attachment) now s :
  snd (enqueueInbound Attachment JSON_stringify params now s) = s \/
  exists m,
    snd (enqueueInbound Attachment JSON_stringify params now s)
    = {| outbound_queue := outbound_queue s; outbound_seq := outbound_seq s;
         inbound_queue := inbound_queue s ++ [m];
         inbound_seq := inbound_seq s + 1;
         sent_messages := sent_messages s; sent_seq := sent_seq s |} /\
    in_q m = fresh_row (inbound_seq s + 1) now now now /\
    message_id m = p_messageId params /\
    message_text m = p_messageText params /\
    ~ In (p_messageId params) (map message_id (inbound_queue s)) /\
    fst (enqueueInbound Attachment JSON_stringify params now s)
    = accepted (inbound_seq s + 1).
Proof.
  unfold enqueueInbound, stmtCheckInboundExists, stmtEnqueueInbound.
  destruct (select_first _ _) as [x|] eqn:Hsel; [left; reflexivity|].
  cbn [option_map].
  destruct (existsb _ _) eqn:Hex; [left; reflexivity|].
  right. eexists. cbn. repeat split.
  intros Hin. apply in_map_iff in Hin. destruct Hin as (x & Hx & Hin).
  apply (proj1 (select_first_none _ _)) with (r := x) in Hsel; [|exact Hin].
  rewrite Hx in Hsel.
  rewrite (proj2 (EnqueueFacts.str_eqb_eq _ _) eq_refl) in Hsel.
  discriminate Hsel.
Qed.

(** The sent ledger after a [markOutboundCompleted]: as before, or one
    record more under the next rowid. *)
Lemma markOutboundCompleted_sent now rowId larkMessageId s :
  (sent_messages (markOutboundCompleted now rowId larkMessageId s)
   = sent_messages s /\
   sent_seq (markOutboundCompleted now rowId larkMessageId s) = sent_seq s)
  \/
  exists r,
    sent_messages (markOutboundCompleted now rowId larkMessageId s)
    = sent_messages s ++ [r] /\
    sent_id r = sent_seq s + 1 /\
    sent_seq (markOutboundCompleted now rowId larkMessageId s)
    = sent_seq s + 1.
Proof.
  unfold markOutboundCompleted.
  destruct (select_first _ _); [right|left]; cbn; eauto.
Qed.

(** Apart from [markOutboundCompleted] and [cleanup], no operation touches
    the sent ledger. *)
Lemma sent_kept now (op : Op Attachment) s :
  isOutboundCompletion op = false -> isCleanup op = false ->
  sent_messages (exec now op s) = sent_messages s /\
  sent_seq (exec now op s) = sent_seq s.
Proof.
  intros Hc Hd. destruct op; try discriminate Hc; try discriminate Hd;
    cbn [Queue.exec].
  - destruct (enqueueOutbound_effect queueType params now s)
      as [->|(m & -> & _)]; split; reflexivity.
  - split; reflexivity.
  - split; reflexivity.
  - unfold markOutboundRetry. split_branches; split; reflexivity.
  - destruct (enqueueInbound_effect params now s)
      as [->|(m & -> & _)]; split; reflexivity.
  - split; reflexivity.
  - split; reflexivity.
  - split; reflexivity.
  - unfold markInboundRetry. split_branches; split; reflexivity.
  - split; reflexivity.
  - split; reflexivity.
Qed.

(** Rowids stay distinct, and below their counter, through every
    operation. *)
Lemma ids_step (now : Z) (op : Op Attachment) (s : Store) :
  uniqueIds s -> uniqueIds (exec now op s).
Proof.
  intros (Hin & Hout & Hsent).
  destruct (isRowUpdate op) eqn:Hup.
  - pose proof (identity_step now op s Hup) as Hid.
    unfold identity in Hid. injection Hid as Hi Hiseq Ho Hoseq.
    unfold uniqueIds.
    rewrite inbound_ids_of_keys, outbound_ids_of_keys, Hi, Ho, Hiseq, Hoseq.
    rewrite <- inbound_ids_of_keys, <- outbound_ids_of_keys.
    split; [exact Hin|]. split; [exact Hout|].
    destruct (isOutboundCompletion op) eqn:Hc.
    + destruct op; try discriminate Hc. cbn [Queue.exec].
      destruct (markOutboundCompleted_sent now rowId larkMessageId s)
        as [[-> ->]|(r & -> & Hr & ->)]; [exact Hsent|].
      rewrite map_app. cbn [map]. rewrite Hr.
      apply idsWithin_snoc. exact Hsent.
    + destruct (sent_kept now op s Hc) as [-> ->]; [|exact Hsent].
      destruct op; try discriminate Hup; reflexivity.
  - destruct op; try discriminate Hup; cbn [Queue.exec].
    + destruct (enqueueOutbound_effect queueType params now s)
        as [->|(m & -> & Hq & _)];
  [exact (conj Hin (conj Hout Hsent))|].
      unfold uniqueIds. project_store.
      split; [exact Hin|]. split; [|exact Hsent].
      rewrite map_app. cbn [map]. rewrite Hq. cbn [id fresh_row].
      apply idsWithin_snoc. exact Hout.
    + destruct (enqueueInbound_effect params now s)
        as [->|(m & -> & Hq & _)];
  [exact (conj Hin (conj Hout Hsent))|].
      unfold uniqueIds. project_store.
      split; [|split; [exact Hout|exact Hsent]].
      rewrite map_app. cbn [map]. rewrite Hq. cbn [id fresh_row].
      apply idsWithin_snoc. exact Hin.
    + unfold cleanup, uniqueIds, delete_where. project_store.
      split; [|split]; apply idsWithin_filter; assumption.
Qed.

(** What an operation does to the inbound table: it rewrites rows in
    place, or appends, or deletes.  A rewrite keeps the identifying
    columns and adds to [retries] only when it is the retry of that row. *)
Lemma inbound_table_after now (op : Op Attachment) s :
  uniqueIds s ->
  (exists p f,
     inbound_queue (exec now op s) = update_where p f (inbound_queue s) /\
     (forall r, inKey (f r) = inKey r) /\
     (forall r, isRetryOf op Inbound (id (in_q r)) = true -> p r = true) /\
     (forall r, In r (inbound_queue s) -> p r = true ->
        retries (in_q (f r))
        = retries (in_q r)
          + (if isRetryOf op Inbound (id (in_q r)) then 1 else 0))) \/
  ((forall i, isRetryOf op Inbound i = false) /\
   ((exists new, inbound_queue (exec now op s) = inbound_queue s ++ new) \/
    (exists p, isCleanup op = true /\
       inbound_queue (exec now op s) = filter p (inbound_queue s)))).
Proof.
  intros (Hin & _ & _).
  assert (Hsame : forall tbl : list InboundMessage,
            tbl = update_where (fun _ => false) (fun r => r) tbl).
  { intros tbl. symmetry. apply update_where_none. reflexivity. }
  assert (Hfirst : forall rowId r,
            In r (inbound_queue s) -> in_has_id rowId r = true ->
            select_first (in_has_id rowId) (inbound_queue s) = Some r).
  { intros rowId r Hr Hid. apply find_unique with (idf := fun m => id (in_q m)).
    - exact (proj1 Hin).
    - exact Hr.
    - intros x. unfold in_has_id. rewrite Z.eqb_eq.
      unfold in_has_id in Hid. apply Z.eqb_eq in Hid. lia. }
  destruct op; cbn [Queue.exec isRetryOf].
  - right. split; [reflexivity|]. left.
    destruct (enqueueOutbound_effect queueType params now s)
      as [->|(m & -> & _)]; exists []; cbn; symmetry; apply app_nil_r.
  - left. exists (fun _ => false), (fun r => r).
    split; [apply Hsame|]. split; [reflexivity|].
    split; intros; discriminate.
  - left. exists (fun _ => false), (fun r => r).
    split; [apply Hsame|]. split; [reflexivity|].
    split; intros; discriminate.
  - left. exists (fun _ => false), (fun r => r).
    split; [|split; [reflexivity|split; intros; discriminate]].
    unfold markOutboundCompleted. split_branches; apply Hsame.
  - left. exists (fun _ => false), (fun r => r).
    split; [|split; [reflexivity|split; intros; discriminate]].
    unfold markOutboundRetry. split_branches; apply Hsame.
  - right. split; [reflexivity|]. left.
    destruct (enqueueInbound_effect params now s)
      as [->|(m & -> & _)]; [exists []|exists [m]]; cbn;
      [symmetry; apply app_nil_r|reflexivity].
  - left. exists (fun _ => false), (fun r => r).
    split; [apply Hsame|]. split; [reflexivity|].
    split; intros; discriminate.
  - left. do 2 eexists. split; [reflexivity|].
    split; [reflexivity|].
    split; [intros; discriminate|]. intros r _ _. cbn. lia.
  - left. do 2 eexists. split; [reflexivity|].
    split; [reflexivity|].
    split; [intros; discriminate|]. intros r Hr Hp.
    rewrite (Hfirst _ _ Hr Hp). cbn. lia.
  - left. unfold markInboundRetry.
    destruct (hasExceededMaxRetries _);
      (do 2 eexists; split; [reflexivity|]; split; [reflexivity|];
       split;
       [intros r Hr; unfold in_has_id; rewrite Z.eqb_sym; exact Hr|];
       intros r Hr Hp; rewrite (Hfirst _ _ Hr Hp); cbn;
       unfold in_has_id in Hp; apply Z.eqb_eq in Hp; subst rowId;
       rewrite Z.eqb_refl; reflexivity).
  - left. do 2 eexists. split; [reflexivity|].
    split; [reflexivity|].
    split; [intros; discriminate|]. intros r _ _. cbn. lia.
  - left. do 2 eexists. split; [reflexivity|].
    split; [reflexivity|].
    split; [intros; discriminate|]. intros r _ _. cbn. lia.
  - right. split; [reflexivity|]. right. eexists. split; reflexivity.
Qed.

(** Through any one operation an inbound row keeps its identifying
    columns, and its [retries] move only by the retry of that row. *)
Lemma inbound_row_step now (op : Op Attachment) s rowId m m' :
  uniqueIds s ->
  inboundRow rowId s = Some m ->
  inboundRow rowId (exec now op s) = Some m' ->
  inKey m' = inKey m /\
  retries (in_q m')
  = retries (in_q m) + (if isRetryOf op Inbound rowId then 1 else 0).
Proof.
  intros Hu Hm Hm'. unfold inboundRow in *.
  pose proof (find_some _ _ Hm) as [Hin Hid].
  assert (Hrow : id (in_q m) = rowId)
    by (unfold in_has_id in Hid; apply Z.eqb_eq in Hid; exact Hid).
  destruct (inbound_table_after now op s Hu)
    as [(p & f & Heq & Hkey & Hmust & Hret)
       |(Hnot & [(new & Heq)|(p & _ & Heq)])];
    rewrite Heq in Hm'.
  - unfold select_first in Hm'. rewrite find_update_where in Hm'.
    + unfold select_first in Hm. rewrite Hm in Hm'. cbn in Hm'.
      injection Hm' as <-. destruct (p m) eqn:Hp.
      * split; [apply Hkey|]. rewrite (Hret m Hin Hp), Hrow. reflexivity.
      * split; [reflexivity|].
        destruct (isRetryOf op Inbound rowId) eqn:Hr; [|lia].
        rewrite <- Hrow in Hr. rewrite (Hmust m Hr) in Hp. discriminate Hp.
    + intros r. unfold in_has_id.
      pose proof (Hkey r) as Hk. unfold inKey in Hk.
      injection Hk as Hk _ _ _ _ _ _. rewrite Hk. reflexivity.
  - unfold select_first in *. rewrite (find_app_found _ _ _ _ Hm) in Hm'.
    injection Hm' as <-. rewrite Hnot. split; [reflexivity|lia].
  - unfold select_first in Hm'. pose proof (find_some _ _ Hm') as [Hin' Hid'].
    apply filter_In in Hin'. destruct Hin' as [Hin' _].
    assert (Hfound : find (in_has_id rowId) (inbound_queue s) = Some m').
    { apply find_unique with (idf := fun x => id (in_q x)).
      - exact (proj1 (proj1 Hu)).
      - exact Hin'.
      - intros x. unfold in_has_id. rewrite Z.eqb_eq.
        unfold in_has_id in Hid'. apply Z.eqb_eq in Hid'. lia. }
    unfold select_first in Hm. rewrite Hm in Hfound. injection Hfound as <-.
    rewrite Hnot. split; [reflexivity|lia].
Qed.

Lemma markOutboundCompleted_table now rowId larkMessageId s :
  outbound_queue (markOutboundCompleted now rowId larkMessageId s)
  = stmtUpdateOutbound completed now
      (orElse
         (option_map (fun m => retries (out_q m))
            (select_first (out_has_id rowId) (outbound_queue s))) 0)
      None None (Some now) larkMessageId rowId (outbound_queue s).
Proof.
  unfold markOutboundCompleted.
  destruct (select_first _ _); reflexivity.
Qed.

(** The same for the outbound table. *)
Lemma outbound_table_after now (op : Op Attachment) s :
  uniqueIds s ->
  (exists p f,
     outbound_queue (exec now op s) = update_where p f (outbound_queue s) /\
     (forall r, outKey (f r) = outKey r) /\
     (forall r, isRetryOf op Outbound (id (out_q r)) = true -> p r = true) /\
     (forall r, In r (outbound_queue s) -> p r = true ->
        retries (out_q (f r))
        = retries (out_q r)
          + (if isRetryOf op Outbound (id (out_q r)) then 1 else 0))) \/
  ((forall i, isRetryOf op Outbound i = false) /\
   ((exists new, outbound_queue (exec now op s) = outbound_queue s ++ new) \/
    (exists p, isCleanup op = true /\
       outbound_queue (exec now op s) = filter p (outbound_queue s)))).
Proof.
  intros (_ & Hout & _).
  assert (Hsame : forall tbl : list OutboundMessage,
            tbl = update_where (fun _ => false) (fun r => r) tbl).
  { intros tbl. symmetry. apply update_where_none. reflexivity. }
  assert (Hfirst : forall rowId r,
            In r (outbound_queue s) -> out_has_id rowId r = true ->
            select_first (out_has_id rowId) (outbound_queue s) = Some r).
  { intros rowId r Hr Hid.
    apply find_unique with (idf := fun m => id (out_q m)).
    - exact (proj1 Hout).
    - exact Hr.
    - intros x. unfold out_has_id. rewrite Z.eqb_eq.
      unfold out_has_id in Hid. apply Z.eqb_eq in Hid. lia. }
  destruct op; cbn [Queue.exec isRetryOf].
  - right. split; [reflexivity|]. left.
    destruct (enqueueOutbound_effect queueType params now s)
      as [->|(m & -> & _)]; [exists []|exists [m]]; cbn;
      [symmetry; apply app_nil_r|reflexivity].
  - left. exists (fun _ => false), (fun r => r).
    split; [apply Hsame|]. split; [reflexivity|].
    split; intros; discriminate.
  - left. do 2 eexists. split; [reflexivity|].
    split; [reflexivity|].
    split; [intros; discriminate|]. intros r _ _. cbn. lia.
  - left. rewrite markOutboundCompleted_table.
    do 2 eexists. split; [reflexivity|].
    split; [reflexivity|].
    split; [intros; discriminate|]. intros r Hr Hp.
    rewrite (Hfirst _ _ Hr Hp). cbn. lia.
  - left. unfold markOutboundRetry.
    destruct (hasExceededMaxRetries _);
      (do 2 eexists; split; [reflexivity|]; split; [reflexivity|];
       split;
       [intros r Hr; unfold out_has_id; rewrite Z.eqb_sym; exact Hr|];
       intros r Hr Hp; rewrite (Hfirst _ _ Hr Hp); cbn;
       unfold out_has_id in Hp; apply Z.eqb_eq in Hp; subst rowId;
       rewrite Z.eqb_refl; reflexivity).
  - right. split; [reflexivity|]. left.
    destruct (enqueueInbound_effect params now s)
      as [->|(m & -> & _)]; exists []; cbn; symmetry; apply app_nil_r.
  - left. exists (fun _ => false), (fun r => r).
    split; [apply Hsame|]. split; [reflexivity|].
    split; intros; discriminate.
  - left. exists (fun _ => false), (fun r => r).
    split; [apply Hsame|]. split; [reflexivity|].
    split; intros; discriminate.
  - left. exists (fun _ => false), (fun r => r).
    split; [apply Hsame|]. split; [reflexivity|].
    split; intros; discriminate.
  - left. exists (fun _ => false), (fun r => r).
    split; [|split; [reflexivity|split; intros; discriminate]].
    unfold markInboundRetry. split_branches; apply Hsame.
  - left. do 2 eexists. split; [reflexivity|].
    split; [reflexivity|].
    split; [intros; discriminate|]. intros r _ _. cbn. lia.
  - left. do 2 eexists. split; [reflexivity|].
    split; [reflexivity|].
    split; [intros; discriminate|]. intros r _ _. cbn. lia.
  - right. split; [reflexivity|]. right. eexists. split; reflexivity.
Qed.

Lemma outbound_row_step now (op : Op Attachment) s rowId m m' :
  uniqueIds s ->
  outboundRow rowId s = Some m ->
  outboundRow rowId (exec now op s) = Some m' ->
  outKey m' = outKey m /\
  retries (out_q m')
  = retries (out_q m) + (if isRetryOf op Outbound rowId then 1 else 0).
Proof.
  intros Hu Hm Hm'. unfold outboundRow in *.
  pose proof (find_some _ _ Hm) as [Hin Hid].
  assert (Hrow : id (out_q m) = rowId)
    by (unfold out_has_id in Hid; apply Z.eqb_eq in Hid; exact Hid).
  destruct (outbound_table_after now op s Hu)
    as [(p & f & Heq & Hkey & Hmust & Hret)
       |(Hnot & [(new & Heq)|(p & _ & Heq)])];
    rewrite Heq in Hm'.
  - unfold select_first in Hm'. rewrite find_update_where in Hm'.
    + unfold select_first in Hm. rewrite Hm in Hm'. cbn in Hm'.
      injection Hm' as <-. destruct (p m) eqn:Hp.
      * split; [apply Hkey|]. rewrite (Hret m Hin Hp), Hrow. reflexivity.
      * split; [reflexivity|].
        destruct (isRetryOf op Outbound rowId) eqn:Hr; [|lia].
        rewrite <- Hrow in Hr. rewrite (Hmust m Hr) in Hp. discriminate Hp.
    + intros r. unfold out_has_id.
      pose proof (Hkey r) as Hk. unfold outKey in Hk.
      injection Hk as Hk _ _ _ _ _ _ _. rewrite Hk. reflexivity.
  - unfold select_first in *. rewrite (find_app_found _ _ _ _ Hm) in Hm'.
    injection Hm' as <-. rewrite Hnot. split; [reflexivity|lia].
  - unfold select_first in Hm'. pose proof (find_some _ _ Hm') as [Hin' Hid'].
    apply filter_In in Hin'. destruct Hin' as [Hin' _].
    assert (Hfound : find (out_has_id rowId) (outbound_queue s) = Some m').
    { apply find_unique with (idf := fun x => id (out_q x)).
      - exact (proj1 (proj1 (proj2 Hu))).
      - exact Hin'.
      - intros x. unfold out_has_id. rewrite Z.eqb_eq.
        unfold out_has_id in Hid'. apply Z.eqb_eq in Hid'. lia. }
    unfold select_first in Hm. rewrite Hm in Hfound. injection Hfound as <-.
    rewrite Hnot. split; [reflexivity|lia].
Qed.

(** X7: On either queue: through any one operation a row that stays in its
    table keeps its id and [created_at], and its [retries] grow by one
    under [markRetry] of that row and stay as they are under everything
    else. *)
Theorem retries_move_only_by_markRetry
    (now : Z) (op : Op Attachment) (s : Store) (k : Kind) (rowId : Z)
    (q q' : QueueMessage) :
  uniqueIds s ->
  baseRow k rowId s = Some q ->
  baseRow k rowId (exec now op s) = Some q' ->
  id q' = id q /\
  created_at q' = created_at q /\
  retries q'
  = retries q + (if isRetryOf op k rowId then 1 else 0).
Proof.
  intros Hu Hq Hq'. destruct k; cbn [baseRow] in *.
  - destruct (inboundRow rowId s) as [m|] eqn:Hm; [|discriminate].
    destruct (inboundRow rowId (exec now op s)) as [m'|] eqn:Hm';
      [|discriminate].
    injection Hq as <-. injection Hq' as <-.
    destruct (inbound_row_step now op s rowId m m' Hu Hm Hm') as [Hk Hr].
    unfold inKey in Hk. injection Hk as Hid Hc _ _ _ _ _. auto.
  - destruct (outboundRow rowId s) as [m|] eqn:Hm; [|discriminate].
    destruct (outboundRow rowId (exec now op s)) as [m'|] eqn:Hm';
      [|discriminate].
    injection Hq as <-. injection Hq' as <-.
    destruct (outbound_row_step now op s rowId m m' Hu Hm Hm') as [Hk Hr].
    unfold outKey in Hk. injection Hk as Hid Hc _ _ _ _ _ _. auto.
Qed.

(** X8: No operation but [cleanup] takes a row out of its table. *)
Theorem rows_leave_only_by_cleanup
    (now : Z) (op : Op Attachment) (s : Store) (k : Kind) (rowId : Z)
    (q : QueueMessage) :
  uniqueIds s ->
  isCleanup op = false ->
  baseRow k rowId s = Some q ->
  exists q', baseRow k rowId (exec now op s) = Some q'.
Proof.
  intros Hu Hop Hq. destruct k; cbn [baseRow] in *.
  - unfold inboundRow, select_first in *.
    destruct (find _ (inbound_queue s)) as [m|] eqn:Hm; [|discriminate].
    destruct (inbound_table_after now op s Hu)
      as [(p & f & -> & Hkey & _)|(_ & [(new & ->)|(p & Hcl & _)])].
    + rewrite find_update_where, Hm; [cbn; eauto|].
      intros r. unfold in_has_id.
      pose proof (Hkey r) as Hk. unfold inKey in Hk.
      injection Hk as Hk _ _ _ _ _ _. rewrite Hk. reflexivity.
    + rewrite (find_app_found _ _ _ _ Hm). cbn. eauto.
    + rewrite Hcl in Hop. discriminate Hop.
  - unfold outboundRow, select_first in *.
    destruct (find _ (outbound_queue s)) as [m|] eqn:Hm; [|discriminate].
    destruct (outbound_table_after now op s Hu)
      as [(p & f & -> & Hkey & _)|(_ & [(new & ->)|(p & Hcl & _)])].
    + rewrite find_update_where, Hm; [cbn; eauto|].
      intros r. unfold out_has_id.
      pose proof (Hkey r) as Hk. unfold outKey in Hk.
      injection Hk as Hk _ _ _ _ _ _ _. rewrite Hk. reflexivity.
    + rewrite (find_app_found _ _ _ _ Hm). cbn. eauto.
    + rewrite Hcl in Hop. discriminate Hop.
Qed.

(** A [WHERE] clause keeps the values of a [UNIQUE] column distinct. *)
Lemma selection_keeps_keys_distinct {Row Key : Type} (key : Row -> Key)
    (keep : Row -> bool) (tbl : list Row) :
  NoDup (map key tbl) -> NoDup (map key (filter keep tbl)).
Proof.
  intros Hdistinct.
  induction tbl as [|row tbl IH]; [exact Hdistinct|].
  cbn [map] in Hdistinct. apply NoDup_cons_iff in Hdistinct.
  destruct Hdistinct as [Hfresh Hrest].
  cbn [filter]. destruct (keep row); [|exact (IH Hrest)].
  cbn [map]. apply NoDup_cons; [|exact (IH Hrest)].
  intros Hin. apply Hfresh. apply in_map_iff in Hin.
  destruct Hin as (other & Hkey & Hother). apply filter_In in Hother.
  apply in_map_iff. exists other. tauto.
Qed.

(** No two inbound rows ever share a message id. *)
Lemma message_ids_step (now : Z) (op : Op Attachment) (s : Store) :
  uniqueMessageIds s -> uniqueMessageIds (exec now op s).
Proof.
  unfold uniqueMessageIds. intros Hnd.
  destruct (isRowUpdate op) eqn:Hup.
  - pose proof (identity_step now op s Hup) as Hid.
    unfold identity in Hid. injection Hid as Hi _ _ _.
    rewrite message_ids_of_keys, Hi, <- message_ids_of_keys. exact Hnd.
  - destruct op; try discriminate Hup; cbn [Queue.exec].
    + destruct (enqueueOutbound_effect queueType params now s)
        as [->|(m & -> & _)]; exact Hnd.
    + destruct (enqueueInbound_effect params now s)
        as [->|(m & -> & _ & Hmid & _ & Hfresh & _)]; [exact Hnd|].
      project_store. rewrite map_app. cbn [map]. rewrite Hmid.
      apply NoDup_app; [exact Hnd|repeat constructor; intros []|].
      intros i Hi [<-|[]]. contradiction.
    + unfold cleanup, delete_where. project_store.
      apply selection_keeps_keys_distinct. exact Hnd.
Qed.

(** Every outbound row keeps carrying the hash of its own content. *)
Lemma hashes_step (now : Z) (op : Op Attachment) (s : Store) :
  hashesFit hashContent s -> hashesFit hashContent (exec now op s).
Proof.
  unfold hashesFit. intros Hfit.
  assert (Hkeys : forall tbl,
            Forall (fun m => content_hash m = hashContent (content m)) tbl
            <-> Forall (fun k => snd k = hashContent (snd (fst k)))
                  (map outKey tbl)).
  { intros tbl. rewrite Forall_map. reflexivity. }
  destruct (isRowUpdate op) eqn:Hup.
  - pose proof (identity_step now op s Hup) as Hid.
    unfold identity in Hid. injection Hid as _ _ Ho _.
    apply Hkeys. rewrite Ho. apply Hkeys. exact Hfit.
  - destruct op; try discriminate Hup; cbn [Queue.exec].
    + destruct (enqueueOutbound_effect queueType params now s)
        as [->|(m & -> & _ & Hc & Hh & _)]; [exact Hfit|].
      project_store. apply Forall_app. split; [exact Hfit|].
      repeat constructor. rewrite Hh, Hc. reflexivity.
    + destruct (enqueueInbound_effect params now s)
        as [->|(m & -> & _)]; exact Hfit.
    + unfold cleanup, delete_where. project_store.
      rewrite Forall_forall in *. intros m Hm. apply Hfit.
      apply filter_In in Hm. tauto.
Qed.

Lemma exhaustedOnly_unless_failed q :
  status q <> failed_permanent -> exhaustedOnly q.
Proof. intros H Hst. contradiction. Qed.

(** A row is [failed_permanent] only with at least 120 retries on its
    counter: whatever is done to a store in which that holds, it holds
    afterwards. *)
Lemma failures_step (now : Z) (op : Op Attachment) (s : Store) :
  failuresExhausted s -> failuresExhausted (exec now op s).
Proof.
  unfold failuresExhausted. cbn [baseRows]. rewrite !Forall_map.
  intros [Hin Hout].
  assert (Hpend : forall rowId t t' t'',
            exhaustedOnly (fresh_row rowId t t' t''))
    by (intros; apply exhaustedOnly_unless_failed; discriminate).
  destruct op; cbn [Queue.exec].
  - destruct (enqueueOutbound_effect queueType params now s)
      as [->|(m & -> & Hq & _)]; [tauto|].
    project_store. split; [exact Hin|].
    apply Forall_app. split; [exact Hout|].
    repeat constructor. rewrite Hq. apply Hpend.
  - tauto.
  - split; [exact Hin|]. cbn.
    apply Forall_update_where; [|exact Hout].
    intros r _. apply exhaustedOnly_unless_failed. discriminate.
  - rewrite markOutboundCompleted_table. split.
    + unfold markOutboundCompleted. split_branches; exact Hin.
    + apply Forall_update_where; [|exact Hout].
      intros r _. apply exhaustedOnly_unless_failed. discriminate.
  - unfold markOutboundRetry.
    destruct (hasExceededMaxRetries _) eqn:Hex; project_store;
      (split; [exact Hin|]);
      (apply Forall_update_where; [|exact Hout]); intros r _.
    + intros _. cbn. unfold hasExceededMaxRetries in Hex.
      apply Z.geb_le in Hex. exact Hex.
    + apply exhaustedOnly_unless_failed. discriminate.
  - destruct (enqueueInbound_effect params now s)
      as [->|(m & -> & Hq & _)]; [tauto|].
    project_store. split; [|exact Hout].
    apply Forall_app. split; [exact Hin|].
    repeat constructor. rewrite Hq. apply Hpend.
  - tauto.
  - split; [|exact Hout]. cbn.
    apply Forall_update_where; [|exact Hin].
    intros r _. apply exhaustedOnly_unless_failed. discriminate.
  - split; [|exact Hout]. cbn.
    apply Forall_update_where; [|exact Hin].
    intros r _. apply exhaustedOnly_unless_failed. discriminate.
  - unfold markInboundRetry.
    destruct (hasExceededMaxRetries _) eqn:Hex; project_store;
      (split; [|exact Hout]);
      (apply Forall_update_where; [|exact Hin]); intros r _.
    + intros _. cbn. unfold hasExceededMaxRetries in Hex.
      apply Z.geb_le in Hex. exact Hex.
    + apply exhaustedOnly_unless_failed. discriminate.
  - unfold resetStuckMessages. project_store.
    split; (apply Forall_update_where; [|assumption]); intros r _;
      apply exhaustedOnly_unless_failed; discriminate.
  - unfold recoverStuck. project_store.
    split; (apply Forall_update_where; [|assumption]); intros r _;
      apply exhaustedOnly_unless_failed; discriminate.
  - unfold cleanup, delete_where. project_store.
    rewrite Forall_forall in Hin. rewrite Forall_forall in Hout.
    split; apply Forall_forall; intros m Hm; apply filter_In in Hm;
      [apply Hin|apply Hout]; tauto.
Qed.

(** X9: The sent ledger: [markOutboundCompleted] of a row that exists adds one
    record, with the row's hash and chat id, the delivered message id and
    the time of the call; [cleanup] drops the records older than the TTL
    and keeps the others; nothing else writes to it. *)
Theorem ledger_written_only_on_completion
    (now : Z) (op : Op Attachment) (s : Store) :
  match op with
  | MarkOutboundCompleted _ rowId larkMessageId =>
      match outboundRow rowId s with
      | Some m =>
          sent_messages (exec now op s)
          = sent_messages s ++
            [ {| sent_id := sent_seq s + 1;
                 sent_content_hash := content_hash m;
                 sent_chat_id := out_chat_id m;
                 sent_lark_message_id := larkMessageId;
                 sent_created_at := now |} ]
      | None => sent_messages (exec now op s) = sent_messages s
      end
  | Cleanup _ =>
      forall r, In r (sent_messages (exec now op s)) <->
                In r (sent_messages s) /\
                now - MESSAGE_TTL_MS <= sent_created_at r
  | _ => sent_messages (exec now op s) = sent_messages s
  end.
Proof.
  destruct op;
    try (apply (sent_kept now); reflexivity).
  - cbn [Queue.exec]. unfold outboundRow, markOutboundCompleted.
    destruct (select_first _ _); reflexivity.
  - intros r. cbn [Queue.exec]. unfold cleanup. project_store.
    rewrite delete_where_In, Z.ltb_ge. reflexivity.
Qed.

(** X1: The mark calls, the dequeues and the stuck-row recoveries keep the
    rows of both queue tables in number and order, and in each row the
    id, [created_at] and everything that came with the enqueue. *)
Theorem identity_kept_by_updates (now : Z) (op : Op Attachment) (s : Store) :
  isRowUpdate op = true -> identity (exec now op s) = identity s.
Proof. apply identity_step. Qed.

(** X2: Rowids stay distinct, and at most their counter, through every
    operation. *)
Theorem ids_stay_unique (now : Z) (op : Op Attachment) (s : Store) :
  uniqueIds s -> uniqueIds (exec now op s).
Proof. apply ids_step. Qed.

(** X3: No two inbound rows ever share a message id. *)
Theorem message_ids_stay_unique (now : Z) (op : Op Attachment) (s : Store) :
  uniqueMessageIds s -> uniqueMessageIds (exec now op s).
Proof. apply message_ids_step. Qed.

(** X4: Every outbound row keeps carrying the hash of its own content. *)
Theorem hashes_stay_fitting (now : Z) (op : Op Attachment) (s : Store) :
  hashesFit hashContent s -> hashesFit hashContent (exec now op s).
Proof. apply hashes_step. Qed.

(** X5: A row is [failed_permanent] only with at least 120 retries on its
    counter: whatever is done to a store in which that holds, it holds
    afterwards. *)
Theorem failures_stay_exhausted (now : Z) (op : Op Attachment) (s : Store) :
  failuresExhausted s -> failuresExhausted (exec now op s).
Proof. apply failures_step. Qed.

(** X6: Whatever calls are made on a new database, in whatever order and at
    whatever times: rowids and message ids are distinct, every outbound
    row carries the hash of its content, and every [failed_permanent] row
    has at least 120 retries. *)
Theorem reachable_stores_well_formed (history : list (Z * Op Attachment)) :
  uniqueIds (run hashContent Attachment JSON_stringify history emptyDatabase)
  /\
  uniqueMessageIds
    (run hashContent Attachment JSON_stringify history emptyDatabase) /\
  hashesFit hashContent
    (run hashContent Attachment JSON_stringify history emptyDatabase) /\
  failuresExhausted
    (run hashContent Attachment JSON_stringify history emptyDatabase).
Proof.
  unfold run.
  assert (H0 : uniqueIds emptyDatabase /\ uniqueMessageIds emptyDatabase /\
               hashesFit hashContent emptyDatabase /\
               failuresExhausted emptyDatabase).
  { unfold uniqueIds, idsWithin, uniqueMessageIds, hashesFit,
      failuresExhausted. cbn. repeat split; constructor. }
  revert H0. generalize emptyDatabase.
  induction history as [|[now op] history IH]; intros s Hs; [exact Hs|].
  cbn [fold_left fst snd]. apply IH.
  destruct Hs as (H1 & H2 & H3 & H4).
  split; [apply ids_step; exact H1|].
  split; [apply message_ids_step; exact H2|].
  split; [apply hashes_step; exact H3|apply failures_step; exact H4].
Qed.
End Ops.

Lemma emptyStore_well_formed :
  uniqueIds Examples.emptyStore /\ uniqueMessageIds Examples.emptyStore /\
  hashesFit Examples.sampleHash Examples.emptyStore /\
  failuresExhausted Examples.emptyStore.
Proof.
  unfold uniqueIds, idsWithin, uniqueMessageIds, hashesFit,
    failuresExhausted. cbn. repeat split; constructor.
Qed.

Lemma oneInbound_unique : uniqueIds Examples.oneInbound.
Proof.
  apply (ids_step Examples.sampleHash unit Examples.sampleStringify 1000
           (EnqueueInbound unit Examples.inboundHi) Examples.emptyStore).
  apply emptyStore_well_formed.
Qed.

(** Marking the row of ["m1"] keeps its identity. *)
Lemma identity_kept_by_updates_witness :
  identity
    (exec Examples.sampleHash unit Examples.sampleStringify 3000
       (MarkInboundProcessing unit 1) Examples.oneInbound)
  = identity Examples.oneInbound.
Proof.
  apply (identity_kept_by_updates Examples.sampleHash unit
           Examples.sampleStringify 3000 (MarkInboundProcessing unit 1)
           Examples.oneInbound).
  reflexivity.
Defined.

Lemma ids_stay_unique_witness :
  uniqueIds
    (exec Examples.sampleHash unit Examples.sampleStringify 1000
       (EnqueueInbound unit Examples.inboundHi) Examples.emptyStore).
Proof.
  apply (ids_stay_unique Examples.sampleHash unit Examples.sampleStringify
           1000 (EnqueueInbound unit Examples.inboundHi)
           Examples.emptyStore).
  apply emptyStore_well_formed.
Defined.

Lemma message_ids_stay_unique_witness :
  uniqueMessageIds
    (exec Examples.sampleHash unit Examples.sampleStringify 1000
       (EnqueueInbound unit Examples.inboundHi) Examples.emptyStore).
Proof.
  apply (message_ids_stay_unique Examples.sampleHash unit
           Examples.sampleStringify 1000
           (EnqueueInbound unit Examples.inboundHi) Examples.emptyStore).
  apply emptyStore_well_formed.
Defined.

Lemma hashes_stay_fitting_witness :
  hashesFit Examples.sampleHash
    (exec Examples.sampleHash unit Examples.sampleStringify 0
       (EnqueueOutbound unit reply (Examples.outboundHi (lit "c1")))
       Examples.emptyStore).
Proof.
  apply (hashes_stay_fitting Examples.sampleHash unit
           Examples.sampleStringify 0
           (EnqueueOutbound unit reply (Examples.outboundHi (lit "c1")))
           Examples.emptyStore).
  apply emptyStore_well_formed.
Defined.

Lemma failures_stay_exhausted_witness :
  failuresExhausted
    (exec Examples.sampleHash unit Examples.sampleStringify 2000
       (MarkInboundRetry unit 1 (lit "Gateway timeout")) Examples.oneInbound).
Proof.
  apply (failures_stay_exhausted Examples.sampleHash unit
           Examples.sampleStringify 2000
           (MarkInboundRetry unit 1 (lit "Gateway timeout"))
           Examples.oneInbound).
  unfold failuresExhausted. split; repeat constructor; discriminate.
Defined.

(** One retry of the row of ["m1"] takes its counter from 0 to 1. *)
Lemma retries_move_only_by_markRetry_witness :
  exists q',
    baseRow Inbound 1
      (exec Examples.sampleHash unit Examples.sampleStringify 2000
         (MarkInboundRetry unit 1 (lit "Gateway timeout"))
         Examples.oneInbound)
    = Some q' /\ retries q' = 1.
Proof.
  eexists. split; [reflexivity|].
  apply (retries_move_only_by_markRetry Examples.sampleHash unit
           Examples.sampleStringify 2000
           (MarkInboundRetry unit 1 (lit "Gateway timeout"))
           Examples.oneInbound Inbound 1 (fresh_row 1 1000 1000 1000)).
  - apply oneInbound_unique.
  - reflexivity.
  - reflexivity.
Defined.

Lemma rows_leave_only_by_cleanup_witness :
  exists q',
    baseRow Inbound 1
      (exec Examples.sampleHash unit Examples.sampleStringify 2000
         (MarkInboundCompleted unit 1 (lit "resp")) Examples.oneInbound)
    = Some q'.
Proof.
  apply (rows_leave_only_by_cleanup Examples.sampleHash unit
           Examples.sampleStringify 2000
           (MarkInboundCompleted unit 1 (lit "resp")) Examples.oneInbound
           Inbound 1 (fresh_row 1 1000 1000 1000)).
  - apply oneInbound_unique.
  - reflexivity.
  - reflexivity.
Defined.

End InvariantFacts.

(* ================================================================== *)
(** * What a dequeue hands out after the other operations *)
(* ================================================================== *)

Module ScheduleFacts.

Import Queue Spec Props SqlFacts.

Lemma In_firstn {A : Type} (n : nat) (l : list A) (x : A) :
  In x (firstn n l) -> In x l.
Proof.
  intros H. rewrite <- (firstn_skipn n l). apply in_or_app. left. exact H.
Qed.

(** A row that [WHERE p ORDER BY key LIMIT n] returns is a row of the table
    that passes [p]. *)
Lemma selected_In {Row : Type} (visit : list Row -> Row -> Z)
    (key : Row -> Z) (p : Row -> bool) (limit : nat) (tbl : list Row)
    (m : Row) :
  In m (firstn limit (order_by key (scan visit p tbl))) ->
  In m tbl /\ p m = true.
Proof.
  intros H. apply In_firstn in H.
  apply (Permutation_in _ (Permutation_sym (order_by_perm key _))) in H.
  apply (Permutation_in _ (Permutation_sym (scan_perm visit p tbl))) in H.
  apply filter_In in H. exact H.
Qed.

(** With a limit that covers the rows that pass, all of them are
    returned. *)
Lemma selected_all {Row : Type} (visit : list Row -> Row -> Z)
    (key : Row -> Z) (p : Row -> bool) (limit : nat) (tbl : list Row)
    (m : Row) :
  (List.length (filter p tbl) <= limit)%nat ->
  In m tbl -> p m = true ->
  In m (firstn limit (order_by key (scan visit p tbl))).
Proof.
  intros Hlen Hin Hp. rewrite firstn_all2.
  - apply (Permutation_in _ (order_by_perm key _)).
    apply (Permutation_in _ (scan_perm visit p tbl)).
    apply filter_In. split; assumption.
  - rewrite <- (Permutation_length (order_by_perm key (scan visit p tbl))).
    rewrite <- (Permutation_length (scan_perm visit p tbl)).
    exact Hlen.
Qed.

Lemma In_update_where {Row : Type} (p : Row -> bool) (f : Row -> Row)
    (tbl : list Row) (m : Row) :
  In m (update_where p f tbl) ->
  exists r, In r tbl /\ m = (if p r then f r else r).
Proof.
  unfold update_where. intros H. apply in_map_iff in H.
  destruct H as (r & Hr & Hin). exists r. split; [exact Hin|].
  symmetry. exact Hr.
Qed.

Lemma filter_filter_implied {A : Type} (p q : A -> bool) (l : list A) :
  (forall x, p x = true -> q x = true) ->
  filter p (filter q l) = filter p l.
Proof.
  intros Himp. induction l as [|x l IH]; cbn; [reflexivity|].
  destruct (q x) eqn:Hq; cbn; rewrite IH; [reflexivity|].
  destruct (p x) eqn:Hp; [|reflexivity].
  rewrite (Himp x Hp) in Hq. discriminate.
Qed.

Lemma dequeueable_pending now q :
  dequeueable now q = true -> status q = pending.
Proof.
  unfold dequeueable. destruct (status q); cbn; congruence.
Qed.

(** A row of the dequeue of either queue, with its table. *)
Lemma dequeuedBase_In k plan t limit s q :
  In q (dequeuedBase k plan t limit s) ->
  In q (baseRows k s) /\ dequeueable t q = true.
Proof.
  destruct k; cbn [dequeuedBase baseRows];
    unfold dequeueInbound, stmtDequeueInbound,
      dequeueOutbound, stmtDequeueOutbound;
    intros H; apply in_map_iff in H; destruct H as (m & <- & Hm);
    apply selected_In in Hm; destruct Hm as [Hin Hp];
    (split; [apply in_map; exact Hin|exact Hp]).
Qed.

(** X10: after [markProcessing] or [markCompleted] of a row, no dequeue, at
    whatever time and with whatever limit, returns a row of that id. *)
Theorem marked_rows_are_not_dequeued
    (k : Kind) (plan : QueryPlan) (now rowId t : Z) (limit : nat)
    (result : ResultOf k) (s : Store) :
  Forall (fun q => id q <> rowId)
    (dequeuedBase k plan t limit (markProcessing k now rowId s)) /\
  Forall (fun q => id q <> rowId)
    (dequeuedBase k plan t limit (markCompleted k now rowId result s)).
Proof.
  split; apply Forall_forall; intros q Hq;
    apply dequeuedBase_In in Hq; destruct Hq as [Hin Hdue];
    apply dequeueable_pending in Hdue;
    destruct k; cbn [baseRows markProcessing markCompleted] in Hin;
    try rewrite InvariantFacts.markOutboundCompleted_table in Hin;
    apply in_map_iff in Hin; destruct Hin as (m & <- & Hm);
    apply In_update_where in Hm; destruct Hm as (r & _ & ->);
    match goal with
    | |- context [if ?c then _ else _] => destruct c eqn:Hc
    end;
    try (cbn in Hdue; discriminate Hdue);
    unfold in_has_id, out_has_id in Hc; apply Z.eqb_neq in Hc; exact Hc.
Qed.

(** X11: after [markRetry] at time [now], a dequeue returns the row only once
    the backoff has passed: a returned row of that id is pending, has fewer
    than 120 retries and a [next_retry_at] of [now + backoff] that is not
    after the time of the dequeue. *)
Theorem retried_row_waits_for_backoff
    (k : Kind) (plan : QueryPlan) (now rowId t : Z) (limit : nat)
    (errorMessage : jsstring) (s : Store) :
  Forall
    (fun q =>
       id q = rowId ->
       status q = pending /\
       retries q < MAX_RETRIES /\
       next_retry_at q = Some (now + calculateBackoff (retries q)) /\
       now + calculateBackoff (retries q) <= t)
    (dequeuedBase k plan t limit (markRetry k now rowId errorMessage s)).
Proof.
  apply Forall_forall. intros q Hq Hid.
  apply dequeuedBase_In in Hq. destruct Hq as [Hin Hdue].
  destruct k; cbn [baseRows markRetry] in Hin;
    unfold markInboundRetry, markOutboundRetry in Hin;
    destruct (hasExceededMaxRetries _) eqn:Hex;
    cbn [inbound_queue outbound_queue with_inbound with_outbound] in Hin;
    apply in_map_iff in Hin; destruct Hin as (m & <- & Hm);
    apply In_update_where in Hm; destruct Hm as (r & _ & ->);
    match type of Hdue with
    | context [if ?c then _ else _] => destruct c eqn:Hc
    end;
    try (unfold in_has_id, out_has_id in Hc; apply Z.eqb_neq in Hc;
         contradiction);
    try (cbn in Hdue; discriminate Hdue);
    unfold dequeueable, is_due in Hdue;
    cbn [retries status next_retry_at in_q out_q set_update status_eqb
         andb] in Hdue |- *;
    unfold hasExceededMaxRetries in Hex;
    rewrite Z.geb_leb in Hex; apply Z.leb_gt in Hex;
    apply Z.leb_le in Hdue;
    (split; [reflexivity|]); (split; [exact Hex|]);
    (split; [reflexivity|exact Hdue]).
Qed.

Section RoundTrip.
Variable hashContent : jsstring -> jsstring.
Variable Attachment : Type.
Variable JSON_stringify : list Attachment -> jsstring.

Lemma enqueueInbound_accepted (params : InboundParams Attachment) now s :
  enqueued (fst (enqueueInbound Attachment JSON_stringify params now s))
  = true ->
  exists m,
    enqueueInbound Attachment JSON_stringify params now s
    = (accepted (id (in_q m)),
       {| outbound_queue := outbound_queue s; outbound_seq := outbound_seq s;
          inbound_queue := inbound_queue s ++ [m];
          inbound_seq := inbound_seq s + 1;
          sent_messages := sent_messages s; sent_seq := sent_seq s |}) /\
    in_q m = fresh_row (inbound_seq s + 1) now now now /\
    message_id m = p_messageId params /\
    in_chat_id m = p_inChatId params /\
    message_text m = p_messageText params.
Proof.
  unfold enqueueInbound, stmtCheckInboundExists, stmtEnqueueInbound.
  destruct (select_first _ _) as [x|]; [cbn; discriminate|].
  cbn [option_map].
  destruct (existsb _ _); [cbn; discriminate|].
  intros _.
  exists {| in_q := fresh_row (inbound_seq s + 1) now now now;
            message_id := p_messageId params;
            in_chat_id := p_inChatId params;
            in_session_key := p_inSessionKey params;
            message_text := p_messageText params;
            attachments_json :=
              option_map JSON_stringify (p_attachments params);
            response_text := None |}.
  cbn. repeat split.
Qed.

Lemma enqueueOutbound_accepted queueType params now s :
  enqueued (fst (enqueueOutbound hashContent queueType params now s)) = true ->
  exists m,
    enqueueOutbound hashContent queueType params now s
    = (accepted (id (out_q m)),
       {| outbound_queue := outbound_queue s ++ [m];
          outbound_seq := outbound_seq s + 1;
          inbound_queue := inbound_queue s; inbound_seq := inbound_seq s;
          sent_messages := sent_messages s; sent_seq := sent_seq s |}) /\
    out_q m = fresh_row (outbound_seq s + 1) now now now /\
    queue_type m = queueType /\
    out_chat_id m = p_chatId params /\
    content m = p_content params.
Proof.
  unfold enqueueOutbound.
  destruct (stmtCheckOutboundDupe _ _ _ _); [cbn; discriminate|].
  destruct (stmtCheckSentDupe _ _ _ _); [cbn; discriminate|].
  intros _.
  exists {| out_q := fresh_row (outbound_seq s + 1) now now now;
            queue_type := queueType;
            run_id := orElse (p_runId params) [];
            out_session_key := p_sessionKey params;
            out_chat_id := p_chatId params;
            content := p_content params;
            content_hash := hashContent (p_content params);
            lark_message_id := None |}.
  cbn. repeat split.
Qed.

Lemma fresh_row_due rowId now t :
  now <= t -> dequeueable t (fresh_row rowId now now now) = true.
Proof. intros H. cbn. apply Z.leb_le. exact H. Qed.

Lemma filter_snoc_length {A : Type} (p : A -> bool) (l : list A) (x : A) :
  (List.length (filter p (l ++ [x])) <= S (List.length (filter p l)))%nat.
Proof.
  rewrite filter_app, length_app. cbn. destruct (p x); cbn; lia.
Qed.

(** X12: a message that was enqueued is handed out by the next dequeue, from
    the moment of the enqueue on, unless the limit is used up by the rows
    that are due already.  For the inbound and for the outbound queue. *)
Theorem enqueued_rows_are_dequeued :
  (forall (plan : QueryPlan) (params : InboundParams Attachment)
          (now t : Z) (limit : nat) (s : Store),
     enqueued (fst (enqueueInbound Attachment JSON_stringify params now s))
     = true ->
     now <= t ->
     (List.length
        (filter (fun m => dequeueable t (in_q m)) (inbound_queue s))
      < limit)%nat ->
     exists m,
       In m (dequeueInbound plan t limit
               (snd (enqueueInbound Attachment JSON_stringify params now s)))
       /\
       res_id (fst (enqueueInbound Attachment JSON_stringify params now s))
       = Some (id (in_q m)) /\
       message_id m = p_messageId params /\
       in_chat_id m = p_inChatId params /\
       message_text m = p_messageText params) /\
  (forall (plan : QueryPlan) (queueType : QueueType)
          (params : OutboundParams) (now t : Z) (limit : nat) (s : Store),
     enqueued (fst (enqueueOutbound hashContent queueType params now s))
     = true ->
     now <= t ->
     (List.length
        (filter (fun m => dequeueable t (out_q m)) (outbound_queue s))
      < limit)%nat ->
     exists m,
       In m (dequeueOutbound plan t limit
               (snd (enqueueOutbound hashContent queueType params now s)))
       /\
       res_id (fst (enqueueOutbound hashContent queueType params now s))
       = Some (id (out_q m)) /\
       queue_type m = queueType /\
       out_chat_id m = p_chatId params /\
       content m = p_content params).
Proof.
  split.
  - intros plan params now t limit s Hok Ht Hlimit.
    destruct (enqueueInbound_accepted params now s Hok)
      as (m & -> & Hq & Hmid & Hchat & Htext).
    exists m. cbn [fst snd res_id accepted]. repeat split; try assumption.
    unfold dequeueInbound, stmtDequeueInbound. cbn [inbound_queue].
    apply selected_all.
    + pose proof (filter_snoc_length
                    (fun x => dequeueable t (in_q x)) (inbound_queue s) m).
      lia.
    + apply in_or_app. right. left. reflexivity.
    + rewrite Hq. apply fresh_row_due. exact Ht.
  - intros plan queueType params now t limit s Hok Ht Hlimit.
    destruct (enqueueOutbound_accepted queueType params now s Hok)
      as (m & -> & Hq & Htype & Hchat & Hcontent).
    exists m. cbn [fst snd res_id accepted]. repeat split; try assumption.
    unfold dequeueOutbound, stmtDequeueOutbound. cbn [outbound_queue].
    apply selected_all.
    + pose proof (filter_snoc_length
                    (fun x => dequeueable t (out_q x)) (outbound_queue s) m).
      lia.
    + apply in_or_app. right. left. reflexivity.
    + rewrite Hq. apply fresh_row_due. exact Ht.
Qed.
End RoundTrip.

(** The message ["m1"], enqueued at 1000, is handed out at 1500. *)
Lemma enqueued_rows_are_dequeued_witness :
  exists m,
    In m (dequeueInbound Examples.newestFirst 1500 3 Examples.oneInbound)
    /\
    message_text m = lit "hi".
Proof.
  destruct (proj1 (enqueued_rows_are_dequeued Examples.sampleHash unit
                     Examples.sampleStringify)
              Examples.newestFirst Examples.inboundHi 1000 1500 3%nat
              Examples.emptyStore)
    as (m & Hin & _ & _ & _ & Htext).
  - reflexivity.
  - discriminate.
  - cbn. lia.
  - exists m. split; [exact Hin|exact Htext].
Defined.

(** X13: [cleanup] deletes nothing that a dequeue could return: with or
    without a cleanup before it, at whatever time, a dequeue returns the
    same rows. *)
Theorem cleanup_keeps_dequeues
    (plan : QueryPlan) (now t : Z) (limit : nat) (s : Store) :
  dequeueInbound plan t limit (cleanup now s) = dequeueInbound plan t limit s
  /\
  dequeueOutbound plan t limit (cleanup now s)
  = dequeueOutbound plan t limit s.
Proof.
  unfold dequeueInbound, dequeueOutbound, stmtDequeueInbound,
    stmtDequeueOutbound, scan, cleanup, delete_where.
  cbn [inbound_queue outbound_queue with_inbound with_outbound with_sent].
  split; rewrite filter_filter_implied; try reflexivity;
    intros m Hm; apply dequeueable_pending in Hm; rewrite Hm;
    apply negb_true_iff; apply andb_false_r.
Qed.

Lemma find_has_id_in rowId tbl m :
  find (in_has_id rowId) tbl = Some m -> in_has_id rowId m = true.
Proof. intros H. apply (find_some _ _ H). Qed.

Lemma find_has_id_out rowId tbl m :
  find (out_has_id rowId) tbl = Some m -> out_has_id rowId m = true.
Proof. intros H. apply (find_some _ _ H). Qed.

(** X14: [recoverStuck] and a claimed row.  A row marked processing at time
    [t] is left processing by a [recoverStuck] at [now] as long as
    [now - t] is at most five minutes, and is pending again, with a new
    [updated_at], when it is more; its [retries] stay in both cases. *)
Theorem stuck_row_recovered_after_five_minutes
    (k : Kind) (t now rowId : Z) (s : Store) (q : QueueMessage) :
  baseRow k rowId s = Some q ->
  exists q',
    baseRow k rowId (recoverStuck now (markProcessing k t rowId s)) = Some q'
    /\
    retries q' = retries q /\
    next_retry_at q' = next_retry_at q /\
    (if t <? now - STUCK_MS
     then status q' = pending /\ updated_at q' = now
     else status q' = processing /\ updated_at q' = t).
Proof.
  intros Hq. destruct k; cbn [baseRow markProcessing] in *.
  - unfold inboundRow, select_first in *.
    destruct (find _ (inbound_queue s)) as [m|] eqn:Hm; [|discriminate].
    injection Hq as <-.
    pose proof (find_has_id_in _ _ _ Hm) as Hid.
    unfold recoverStuck, markInboundProcessing, stmtMarkInboundProcessing.
    cbn [inbound_queue outbound_queue with_inbound with_outbound].
    rewrite !InvariantFacts.find_update_where by (intros; reflexivity).
    rewrite Hm. cbn [option_map]. rewrite Hid.
    eexists. split; [reflexivity|].
    cbn [in_with_q in_q set_processing status updated_at status_eqb andb].
    change (5 * 60 * 1000) with STUCK_MS.
    destruct (t <? now - STUCK_MS); cbn; auto.
  - unfold outboundRow, select_first in *.
    destruct (find _ (outbound_queue s)) as [m|] eqn:Hm; [|discriminate].
    injection Hq as <-.
    pose proof (find_has_id_out _ _ _ Hm) as Hid.
    unfold recoverStuck, markOutboundProcessing, stmtMarkOutboundProcessing.
    cbn [inbound_queue outbound_queue with_inbound with_outbound].
    rewrite !InvariantFacts.find_update_where by (intros; reflexivity).
    rewrite Hm. cbn [option_map]. rewrite Hid.
    eexists. split; [reflexivity|].
    cbn [out_with_q out_q set_processing status updated_at status_eqb andb].
    change (5 * 60 * 1000) with STUCK_MS.
    destruct (t <? now - STUCK_MS); cbn; auto.
Qed.

(** The row of ["m1"], claimed at 2000, at a recovery five minutes later
    and at one a millisecond after that. *)
Lemma stuck_row_recovered_witness :
  option_map status
    (baseRow Inbound 1
       (recoverStuck 302000 (markProcessing Inbound 2000 1 Examples.oneInbound)))
  = Some processing /\
  option_map status
    (baseRow Inbound 1
       (recoverStuck 302001 (markProcessing Inbound 2000 1 Examples.oneInbound)))
  = Some pending.
Proof.
  destruct (stuck_row_recovered_after_five_minutes Inbound 2000 302000 1
              Examples.oneInbound (fresh_row 1 1000 1000 1000) eq_refl)
    as (q1 & H1 & _ & _ & Hs1).
  destruct (stuck_row_recovered_after_five_minutes Inbound 2000 302001 1
              Examples.oneInbound (fresh_row 1 1000 1000 1000) eq_refl)
    as (q2 & H2 & _ & _ & Hs2).
  rewrite H1, H2. cbn [option_map].
  change (2000 <? 302000 - STUCK_MS) with false in Hs1.
  change (2000 <? 302001 - STUCK_MS) with true in Hs2.
  destruct Hs1 as [-> _]. destruct Hs2 as [-> _]. split; reflexivity.
Defined.

Lemma retried_row_waits_for_backoff_witness :
  Forall
    (fun q =>
       id q = 1 ->
       status q = pending /\
       retries q < MAX_RETRIES /\
       next_retry_at q = Some (2000 + calculateBackoff (retries q)) /\
       2000 + calculateBackoff (retries q) <= 4000)
    (dequeuedBase Inbound Examples.rowidOrder 4000 10
       (markRetry Inbound 2000 1 (lit "Gateway timeout") Examples.oneInbound)).
Proof.
  apply (retried_row_waits_for_backoff Inbound Examples.rowidOrder 2000 1
           4000 10
           (lit "Gateway timeout") Examples.oneInbound).
Defined.

Lemma filter_idem_implied {A : Type} (p q : A -> bool) (l : list A) :
  (forall x, p x = true -> q x = true) ->
  filter q (filter p l) = filter p l.
Proof.
  intros Himp. induction l as [|x l IH]; cbn; [reflexivity|].
  destruct (p x) eqn:Hp; cbn; [|exact IH].
  rewrite (Himp x Hp), IH. reflexivity.
Qed.

Lemma recovered_not_stuck_in t1 t2 tbl r :
  t2 <= t1 ->
  In r (update_where
          (fun m => status_eqb (status (in_q m)) processing
                    && (updated_at (in_q m) <? t1 - 5 * 60 * 1000))
          (in_with_q (set_pending t1)) tbl) ->
  status_eqb (status (in_q r)) processing
  && (updated_at (in_q r) <? t2 - 5 * 60 * 1000) = false.
Proof.
  intros Ht H. apply In_update_where in H. destruct H as (x & _ & ->).
  destruct (status_eqb (status (in_q x)) processing
            && (updated_at (in_q x) <? t1 - 5 * 60 * 1000)) eqn:E;
    [reflexivity|].
  apply andb_false_iff in E. apply andb_false_iff.
  destruct E as [E|E]; [left; exact E|right].
  apply Z.ltb_ge in E. apply Z.ltb_ge. lia.
Qed.

Lemma recovered_not_stuck_out t1 t2 tbl r :
  t2 <= t1 ->
  In r (update_where
          (fun m => status_eqb (status (out_q m)) processing
                    && (updated_at (out_q m) <? t1 - 5 * 60 * 1000))
          (out_with_q (set_pending t1)) tbl) ->
  status_eqb (status (out_q r)) processing
  && (updated_at (out_q r) <? t2 - 5 * 60 * 1000) = false.
Proof.
  intros Ht H. apply In_update_where in H. destruct H as (x & _ & ->).
  destruct (status_eqb (status (out_q x)) processing
            && (updated_at (out_q x) <? t1 - 5 * 60 * 1000)) eqn:E;
    [reflexivity|].
  apply andb_false_iff in E. apply andb_false_iff.
  destruct E as [E|E]; [left; exact E|right].
  apply Z.ltb_ge in E. apply Z.ltb_ge. lia.
Qed.

(** X15: the maintenance operations settle: once one has run, running it
    again, with the same or an earlier clock reading, changes nothing. *)
Theorem maintenance_settles (t1 t2 : Z) (s : Store) :
  t2 <= t1 ->
  resetStuckMessages t2 (resetStuckMessages t1 s) = resetStuckMessages t1 s /\
  recoverStuck t2 (recoverStuck t1 s) = recoverStuck t1 s /\
  cleanup t2 (cleanup t1 s) = cleanup t1 s.
Proof.
  intros Ht. split; [|split].
  - unfold resetStuckMessages.
    cbn [inbound_queue outbound_queue with_inbound with_outbound].
    rewrite (update_where_none _ _ (update_where _ _ (inbound_queue s)))
      by (intros r Hr; apply (FrameFacts.reset_inbound_not_processing _ _ _ Hr)).
    rewrite (update_where_none _ _ (update_where _ _ (outbound_queue s)))
      by (intros r Hr;
          apply (FrameFacts.reset_outbound_not_processing _ _ _ Hr)).
    reflexivity.
  - unfold recoverStuck.
    cbn [inbound_queue outbound_queue with_inbound with_outbound].
    rewrite (update_where_none _ _ (update_where _ _ (outbound_queue s)))
      by (intros r Hr; apply (recovered_not_stuck_out t1 t2 _ _ Ht Hr)).
    rewrite (update_where_none _ _ (update_where _ _ (inbound_queue s)))
      by (intros r Hr; apply (recovered_not_stuck_in t1 t2 _ _ Ht Hr)).
    reflexivity.
  - unfold cleanup, delete_where.
    cbn [inbound_queue outbound_queue sent_messages with_inbound
         with_outbound with_sent].
    rewrite !filter_idem_implied; [reflexivity| | |];
      intros x Hx; apply negb_true_iff in Hx; apply negb_true_iff;
      first
        [ apply Z.ltb_ge in Hx; apply Z.ltb_ge; lia
        | apply andb_false_iff in Hx; apply andb_false_iff;
          destruct Hx as [Hx|Hx]; [left|right; exact Hx];
          apply Z.ltb_ge in Hx; apply Z.ltb_ge; lia ].
Qed.

Lemma maintenance_settles_witness :
  cleanup 9000 (cleanup 9000 Examples.oneInboundCompleted)
  = cleanup 9000 Examples.oneInboundCompleted.
Proof.
  apply (maintenance_settles 9000 9000 Examples.oneInboundCompleted).
  discriminate.
Defined.

End ScheduleFacts.

(* ================================================================== *)
(** * Backoff bounds and queue statistics *)
(* ================================================================== *)

Module StatsFacts.

Import Queue Sender Spec Props Stats.

Lemma backoff_bounds (n : Z) :
  1 <= n -> 1000 <= backoff n <= 120 * 60 * 1000.
Proof.
  intros Hn. unfold backoff. split; [|apply Z.le_min_r].
  apply Z.min_glb; [|lia].
  assert (0 < 2 ^ Z.min (n - 1) 17) by (apply Z.pow_pos_nonneg; lia).
  lia.
Qed.

Lemma backoff_monotone (n m : Z) :
  1 <= n -> n <= m -> backoff n <= backoff m.
Proof.
  intros Hn Hm. unfold backoff.
  apply Z.min_le_compat_r. apply Z.mul_le_mono_nonneg_l; [lia|].
  apply Z.pow_le_mono_r; lia.
Qed.

(** X16: both backoff functions never go down as the count goes up, never
    give less than a second and never more than the 120 minutes. *)
Theorem backoffs_grow_to_the_cap (n m : Z) :
  0 <= n -> n <= m ->
  calculateBackoff n <= calculateBackoff m /\
  1000 <= calculateBackoff n <= RETRY_BACKOFF_MAX_MS /\
  calculateSendBackoff (n + 1) <= calculateSendBackoff (m + 1) /\
  1000 <= calculateSendBackoff (n + 1) <= SEND_RETRY_MAX_MS.
Proof.
  intros Hn Hm.
  rewrite (BackoffFacts.calculateBackoff_shifted n).
  rewrite (BackoffFacts.calculateBackoff_shifted m).
  change (calculateSendBackoff (n + 1)) with (backoff (n + 1)).
  change (calculateSendBackoff (m + 1)) with (backoff (m + 1)).
  change RETRY_BACKOFF_MAX_MS with (120 * 60 * 1000).
  change SEND_RETRY_MAX_MS with (120 * 60 * 1000).
  pose proof (backoff_bounds (n + 1)).
  pose proof (backoff_monotone (n + 1) (m + 1)).
  repeat split; lia.
Qed.

Lemma backoffs_grow_to_the_cap_witness :
  calculateBackoff 3 <= calculateBackoff 40.
Proof.
  apply (backoffs_grow_to_the_cap 3 40); discriminate.
Defined.

Lemma countStatus_split (rows : list QueueMessage) :
  countStatus pending rows + countStatus processing rows
  + countStatus completed rows + countStatus failed_permanent rows
  = Z.of_nat (List.length rows).
Proof.
  unfold countStatus. induction rows as [|q rows IH]; [reflexivity|].
  cbn [filter List.length]. destruct (status q); cbn [status_eqb List.length];
    lia.
Qed.

(** X17: the four counts [getStats] reports for a queue add up to the number
    of its rows created within the TTL, and none is negative. *)
Theorem stats_count_the_recent_rows (dbPath : jsstring) (now : Z) (s : Store) :
  let inb := stats_inbound (getStats dbPath now s) in
  let outb := stats_outbound (getStats dbPath now s) in
  n_pending inb + n_processing inb + n_completed inb + n_failed inb
  = Z.of_nat
      (List.length
         (filter (fun m => now - MESSAGE_TTL_MS <? created_at (in_q m))
            (inbound_queue s))) /\
  n_pending outb + n_processing outb + n_completed outb + n_failed outb
  = Z.of_nat
      (List.length
         (filter (fun m => now - MESSAGE_TTL_MS <? created_at (out_q m))
            (outbound_queue s))) /\
  0 <= n_pending inb /\ 0 <= n_processing inb /\
  0 <= n_completed inb /\ 0 <= n_failed inb /\
  0 <= n_pending outb /\ 0 <= n_processing outb /\
  0 <= n_completed outb /\ 0 <= n_failed outb.
Proof.
  cbn. unfold countsSince. cbn.
  rewrite !countStatus_split.
  assert (Hlen : forall (A : Type) (base : A -> QueueMessage) cutoff l,
            List.length (filter (fun q => cutoff <? created_at q) (map base l))
            = List.length
                (filter (fun m => cutoff <? created_at (base m)) l)).
  { intros A base cutoff l. induction l as [|x l IH]; [reflexivity|].
    cbn. destruct (cutoff <? created_at (base x)); cbn; rewrite IH;
      reflexivity. }
  rewrite !Hlen. unfold countStatus. repeat split; lia.
Qed.

Lemma countsSince_filter cutoff (p : QueueMessage -> bool)
    (rows : list QueueMessage) :
  (forall q, (cutoff <? created_at q) = true -> p q = true) ->
  countsSince cutoff (filter p rows) = countsSince cutoff rows.
Proof.
  intros Himp. unfold countsSince.
  rewrite ScheduleFacts.filter_filter_implied by exact Himp. reflexivity.
Qed.

Lemma map_filter_base {A : Type} (base : A -> QueueMessage)
    (p : QueueMessage -> bool) (l : list A) :
  map base (filter (fun m => p (base m)) l) = filter p (map base l).
Proof.
  induction l as [|x l IH]; [reflexivity|].
  cbn. destruct (p (base x)); cbn; rewrite IH; reflexivity.
Qed.

(** X18: a [cleanup] does not show in the statistics taken at the same time
    or later: what it deletes is older than what [getStats] counts. *)
Theorem cleanup_is_invisible_in_stats
    (dbPath : jsstring) (now t : Z) (s : Store) :
  now <= t ->
  getStats dbPath t (cleanup now s) = getStats dbPath t s.
Proof.
  intros Ht. unfold getStats, cleanup, delete_where.
  cbn [inbound_queue outbound_queue with_inbound with_outbound with_sent].
  rewrite (map_filter_base out_q
             (fun q => negb ((created_at q <? now - MESSAGE_TTL_MS)
                             && status_eqb (status q) completed))).
  rewrite (map_filter_base in_q
             (fun q => negb ((created_at q <? now - MESSAGE_TTL_MS)
                             && status_eqb (status q) completed))).
  rewrite !countsSince_filter; [reflexivity| |];
    intros q Hq; apply Z.ltb_lt in Hq; apply negb_true_iff;
    apply andb_false_iff; left; apply Z.ltb_ge; lia.
Qed.

Lemma cleanup_is_invisible_in_stats_witness :
  getStats (lit "lark-queue.db") 9000
    (cleanup 9000 Examples.oneInboundCompleted)
  = getStats (lit "lark-queue.db") 9000 Examples.oneInboundCompleted.
Proof.
  apply (cleanup_is_invisible_in_stats (lit "lark-queue.db") 9000 9000
           Examples.oneInboundCompleted).
  discriminate.
Defined.

End StatsFacts.

(* ================================================================== *)
(** * The retry loop of the sender, in general *)
(* ================================================================== *)

Module SenderLoopFacts.

Import Queue CardBuilder Sender Spec Props.

Section OneTransport.
Variable Card : Type.
Variable buildCard : jsstring -> option jsstring -> Card.
Variable chatTransport : nat -> SendOutcome.

Local Abbreviation answer := chatTransport.

(** src/channel.ts never ends the loop on the error text. *)
Lemma ts_attempts_loop msgType chatId content_ sessionKey todo :
  forall lastError (w : World Card),
    Channel.attempts Card buildCard chatTransport msgType chatId content_
      sessionKey todo lastError w
    = loop Card chatTransport (fun _ => false)
        (sendEvent Card buildCard msgType chatId content_ sessionKey)
        todo lastError w.
Proof.
  induction todo as [|attempt rest IH]; intros lastError w; [reflexivity|].
  cbn [Channel.attempts loop]. unfold bind at 1 2.
  rewrite SenderFacts.sendOnce_run.
  change (transportCall Card chatTransport ?e w)
    with (chatTransport (calls w), called e w).
  destruct (chatTransport (calls w)) as [res|message].
  - destruct (success res); [reflexivity|].
    unfold backoffThen. destruct (attempt <? SEND_MAX_RETRIES).
    + unfold bind, sleep. apply IH.
    + apply IH.
  - unfold backoffThen. destruct (attempt <? SEND_MAX_RETRIES).
    + unfold bind, sleep. apply IH.
    + apply IH.
Qed.

(** dist/src/channel.js ends it on a non-retryable code. *)
Lemma dist_attempts_loop msgType chatId content_ sessionKey todo :
  forall lastError (w : World Card),
    ChannelDist.attempts Card buildCard chatTransport msgType chatId content_
      sessionKey todo lastError w
    = loop Card chatTransport ChannelDist.nonRetryable
        (sendEvent Card buildCard msgType chatId content_ sessionKey)
        todo lastError w.
Proof.
  induction todo as [|attempt rest IH]; intros lastError w; [reflexivity|].
  cbn [ChannelDist.attempts loop]. unfold bind at 1 2.
  rewrite SenderFacts.sendOnce_run.
  change (transportCall Card chatTransport ?e w)
    with (chatTransport (calls w), called e w).
  destruct (chatTransport (calls w)) as [res|message].
  - destruct (success res); [reflexivity|].
    cbv zeta.
    destruct (ChannelDist.nonRetryable _); [reflexivity|].
    unfold backoffThen. destruct (attempt <? SEND_MAX_RETRIES).
    + unfold bind, sleep. apply IH.
    + apply IH.
  - unfold backoffThen. destruct (attempt <? SEND_MAX_RETRIES).
    + unfold bind, sleep. apply IH.
    + apply IH.
Qed.

Lemma afterRun_one (w : World Card) e a :
  afterRun w e a 1 = called e w.
Proof.
  unfold afterRun, called. cbn [traceFrom sleepTotal].
  rewrite Z.add_0_r, Nat.add_1_r. reflexivity.
Qed.

Lemma afterRun_more (w : World Card) e a k :
  (1 <= k)%nat ->
  afterRun (slept (calculateSendBackoff (Z.of_nat a)) (called e w)) e (S a) k
  = afterRun w e a (S k).
Proof.
  intros Hk. destruct k as [|k']; [lia|].
  unfold afterRun, slept, called.
  cbn [store clock calls events outboundConsumerRunning].
  change (traceFrom e a (S (S k')))
    with (e :: Sleep (calculateSendBackoff (Z.of_nat a))
            :: traceFrom e (S a) (S k')).
  change (sleepTotal a (S (S k')))
    with (calculateSendBackoff (Z.of_nat a) + sleepTotal (S a) (S k')).
  rewrite <- !app_assoc, <- Z.add_assoc. cbn [app].
  replace (S (calls w) + S k')%nat with (calls w + S (S k'))%nat by lia.
  reflexivity.
Qed.

Lemma loop_runs stop e :
  forall len a, (a + len = 121)%nat -> (1 <= len)%nat ->
  forall lastError (w : World Card),
    exists k, runs Card chatTransport stop e a len lastError w k.
Proof.
  induction len as [|len IH]; intros a Hsum Hlen lastError w; [lia|].
  (* what follows a failed call that does not end the loop *)
  assert (Hnext : forall err,
    failedCall (answer (calls w)) ->
    stopsWith stop (answer (calls w)) = false ->
    resultOf (answer (calls w))
    = {| skipped := false; r_messageId := None; r_error := Some err |} ->
    exists k,
      (1 <= k <= S len)%nat /\
      backoffThen (Z.of_nat a)
        (loop Card chatTransport stop e (map Z.of_nat (seq (S a) len))
           (Some err)) (called e w)
      = (resultOf (answer (calls w + k - 1)), afterRun w e a k) /\
      (forall j, (j < k - 1)%nat ->
                 failedCall (answer (calls w + j)) /\
                 stopsWith stop (answer (calls w + j)) = false) /\
      (k = S len \/
       ~ failedCall (answer (calls w + k - 1)) \/
       stopsWith stop (answer (calls w + k - 1)) = true)).
  { intros err Hfail Hgo Hres. unfold backoffThen.
    destruct (Z.of_nat a <? SEND_MAX_RETRIES) eqn:Hlt.
    - apply Z.ltb_lt in Hlt. unfold SEND_MAX_RETRIES in Hlt.
      assert (Hlen' : (1 <= len)%nat) by lia.
      unfold bind.
      change (sleep (calculateSendBackoff (Z.of_nat a)) (called e w))
        with (tt, slept (calculateSendBackoff (Z.of_nat a)) (called e w)).
      cbv iota.
      destruct (IH (S a) ltac:(lia) Hlen' (Some err)
                  (slept (calculateSendBackoff (Z.of_nat a)) (called e w)))
        as (k & Hk & Hrun & Hbefore & Hlast).
      change (calls (slept (calculateSendBackoff (Z.of_nat a)) (called e w)))
        with (S (calls w)) in *.
      exists (S k). split; [lia|].
      replace (calls w + S k - 1)%nat with (S (calls w) + k - 1)%nat by lia.
      split; [rewrite Hrun, afterRun_more by lia; reflexivity|].
      split.
      + intros j Hj. destruct j as [|j'].
        * rewrite Nat.add_0_r. auto.
        * replace (calls w + S j')%nat with (S (calls w) + j')%nat by lia.
          apply Hbefore. lia.
      + destruct Hlast as [->|Hlast]; [left; reflexivity|right; exact Hlast].
    - apply Z.ltb_ge in Hlt. unfold SEND_MAX_RETRIES in Hlt.
      assert (len = 0)%nat by lia. subst len.
      exists 1%nat. split; [lia|].
      rewrite Nat.add_sub, afterRun_one.
      split; [cbn [seq map loop]; unfold ret; rewrite Hres; reflexivity|].
      split; [intros j Hj; lia|left; reflexivity]. }
  unfold runs. cbn [seq map loop]. unfold bind at 1.
  change (transportCall Card chatTransport e w)
    with (answer (calls w), called e w).
  cbv iota.
  destruct (answer (calls w)) as [res|message] eqn:Hanswer.
  - destruct (success res) eqn:Hok.
    + exists 1%nat. split; [lia|].
      rewrite Nat.add_sub, afterRun_one, Hanswer.
      split; [unfold ret; cbn [resultOf]; rewrite Hok; reflexivity|].
      split; [intros j Hj; lia|].
      right; left. cbn [failedCall]. rewrite Hok. discriminate.
    + cbv zeta.
      destruct (stop (orElse (error res) (lit "Unknown error"))) eqn:Hstop.
      * exists 1%nat. split; [lia|].
        rewrite Nat.add_sub, afterRun_one, Hanswer.
        split; [unfold ret; cbn [resultOf]; rewrite Hok; reflexivity|].
        split; [intros j Hj; lia|].
        right; right. cbn [stopsWith errorOf]. rewrite Hok, Hstop.
        reflexivity.
      * apply Hnext.
        -- exact Hok.
        -- cbn [stopsWith errorOf]. rewrite Hok, Hstop. reflexivity.
        -- cbn [resultOf]. rewrite Hok. reflexivity.
  - apply Hnext; [exact I|reflexivity|reflexivity].
Qed.

Lemma ts_stops_never (o : SendOutcome) :
  stopsWith (fun _ => false) o = false.
Proof. destruct o as [res|message]; [apply andb_false_r|reflexivity]. Qed.

(** The two senders as runs of the loop. *)
Lemma ts_sender_runs chatId content_ sessionKey (w : World Card) :
  selectMessageType (Some content_) <> skip ->
  exists k,
    Channel.sendToLarkWithRetry Card buildCard chatTransport chatId content_
      sessionKey w
    = loop Card chatTransport (fun _ => false)
        (sendEvent Card buildCard (selectMessageType (Some content_))
           chatId content_ sessionKey)
        (map Z.of_nat (seq 1 120)) None w /\
    runs Card chatTransport (fun _ => false)
      (sendEvent Card buildCard (selectMessageType (Some content_))
         chatId content_ sessionKey) 1 120 None w k.
Proof.
  intros Hns.
  destruct (loop_runs (fun _ => false)
              (sendEvent Card buildCard (selectMessageType (Some content_))
                 chatId content_ sessionKey)
              120 1 eq_refl ltac:(lia) None w) as (k & Hk).
  exists k. split; [|exact Hk].
  unfold Channel.sendToLarkWithRetry. cbv zeta.
  destruct (selectMessageType (Some content_)); [contradiction| |];
    apply ts_attempts_loop.
Qed.

Lemma dist_sender_runs chatId content_ sessionKey (w : World Card) :
  selectMessageType (Some content_) <> skip ->
  exists k,
    ChannelDist.sendToLarkWithRetry Card buildCard chatTransport chatId
      content_ sessionKey w
    = loop Card chatTransport ChannelDist.nonRetryable
        (sendEvent Card buildCard (selectMessageType (Some content_))
           chatId content_ sessionKey)
        (map Z.of_nat (seq 1 120)) None w /\
    runs Card chatTransport ChannelDist.nonRetryable
      (sendEvent Card buildCard (selectMessageType (Some content_))
         chatId content_ sessionKey) 1 120 None w k.
Proof.
  intros Hns.
  destruct (loop_runs ChannelDist.nonRetryable
              (sendEvent Card buildCard (selectMessageType (Some content_))
                 chatId content_ sessionKey)
              120 1 eq_refl ltac:(lia) None w) as (k & Hk).
  exists k. split; [|exact Hk].
  unfold ChannelDist.sendToLarkWithRetry. cbv zeta.
  destruct (selectMessageType (Some content_)); [contradiction| |];
    apply dist_attempts_loop.
Qed.

(** X19: src/channel.ts, [sendToLarkWithRetry] on a message that is not
    skipped: it makes [k] transport calls, between 1 and 120, with the
    backoff sleep of each attempt between it and the next and no sleep
    after the last; all calls before the last one failed, and the last one
    succeeded unless it was the 120th.  The result is read off the answer
    to the last call: its [messageId] on success, its error otherwise.
    The queue is not touched. *)
Theorem ts_sender_calls_until_first_success
    chatId content_ sessionKey (w : World Card) :
  selectMessageType (Some content_) <> skip ->
  exists k,
    (1 <= k <= 120)%nat /\
    Channel.sendToLarkWithRetry Card buildCard chatTransport chatId content_
      sessionKey w
    = (resultOf (chatTransport (calls w + k - 1)),
       afterRun w
         (sendEvent Card buildCard (selectMessageType (Some content_))
            chatId content_ sessionKey) 1 k) /\
    (forall j, (j < k - 1)%nat -> failedCall (chatTransport (calls w + j))) /\
    (k = 120%nat \/ ~ failedCall (chatTransport (calls w + k - 1))).
Proof.
  intros Hns.
  destruct (ts_sender_runs chatId content_ sessionKey w Hns)
    as (k & Heq & Hk & Hrun & Hbefore & Hlast).
  exists k. split; [exact Hk|].
  split; [rewrite Heq; exact Hrun|].
  split; [intros j Hj; apply Hbefore; exact Hj|].
  destruct Hlast as [H|[H|H]]; [left; exact H|right; exact H|].
  rewrite ts_stops_never in H. discriminate.
Qed.

(** X20: dist/src/channel.js, [sendToLarkWithRetry] on a message that is not
    skipped: the same, except that a returned failure whose error text
    carries a non-retryable code also ends the run: every call before the
    last one failed without such a code, and the last one succeeded or
    carried such a code unless it was the 120th. *)
Theorem dist_sender_calls_until_success_or_fatal_code
    chatId content_ sessionKey (w : World Card) :
  selectMessageType (Some content_) <> skip ->
  exists k,
    (1 <= k <= 120)%nat /\
    ChannelDist.sendToLarkWithRetry Card buildCard chatTransport chatId
      content_ sessionKey w
    = (resultOf (chatTransport (calls w + k - 1)),
       afterRun w
         (sendEvent Card buildCard (selectMessageType (Some content_))
            chatId content_ sessionKey) 1 k) /\
    (forall j, (j < k - 1)%nat ->
               failedCall (chatTransport (calls w + j)) /\
               stopsDist (chatTransport (calls w + j)) = false) /\
    (k = 120%nat \/
     ~ failedCall (chatTransport (calls w + k - 1)) \/
     stopsDist (chatTransport (calls w + k - 1)) = true).
Proof.
  intros Hns.
  destruct (dist_sender_runs chatId content_ sessionKey w Hns)
    as (k & Heq & Hk & Hrun & Hbefore & Hlast).
  exists k. split; [exact Hk|].
  split; [rewrite Heq; exact Hrun|].
  split; [exact Hbefore|exact Hlast].
Qed.

Lemma calculateSendBackoff_nonneg (n : Z) : 0 <= calculateSendBackoff n.
Proof.
  unfold calculateSendBackoff, SEND_RETRY_BASE_MS, SEND_RETRY_MAX_MS.
  cbv zeta. apply Z.min_glb; [|lia].
  assert (0 <= 2 ^ Z.min (n - 1) 17) by (apply Z.pow_nonneg; lia).
  lia.
Qed.

Lemma sleepTotal_nonneg k : forall a, 0 <= sleepTotal a k.
Proof.
  induction k as [|k IH]; intros a; [cbn; lia|].
  destruct k as [|k']; [cbn; lia|].
  change (sleepTotal a (S (S k')))
    with (calculateSendBackoff (Z.of_nat a) + sleepTotal (S a) (S k')).
  pose proof (calculateSendBackoff_nonneg (Z.of_nat a)).
  pose proof (IH (S a)). lia.
Qed.

Lemma sleepTotal_step k : forall a, sleepTotal a k <= sleepTotal a (S k).
Proof.
  induction k as [|k IH]; intros a; [cbn; lia|].
  destruct k as [|k'].
  - change (sleepTotal a 2)
      with (calculateSendBackoff (Z.of_nat a) + sleepTotal (S a) 1).
    pose proof (calculateSendBackoff_nonneg (Z.of_nat a)).
    cbn [sleepTotal]. lia.
  - change (sleepTotal a (S (S (S k'))))
      with (calculateSendBackoff (Z.of_nat a)
            + sleepTotal (S a) (S (S k'))).
    change (sleepTotal a (S (S k')))
      with (calculateSendBackoff (Z.of_nat a) + sleepTotal (S a) (S k')).
    pose proof (IH (S a)). lia.
Qed.

Lemma sleepTotal_le a k n : (k <= n)%nat -> sleepTotal a k <= sleepTotal a n.
Proof.
  induction 1 as [|n Hle IH]; [lia|].
  pose proof (sleepTotal_step n a). lia.
Qed.

Lemma sleepTotal_all : sleepTotal 1 120 = LONGEST_WAIT_MS.
Proof. vm_compute. reflexivity. Qed.

Lemma run_bounds (w : World Card) e k :
  (k <= 120)%nat ->
  store (afterRun w e 1 k) = store w /\
  (calls w <= calls (afterRun w e 1 k) <= calls w + 120)%nat /\
  clock w <= clock (afterRun w e 1 k) <= clock w + LONGEST_WAIT_MS.
Proof.
  intros Hk. cbn [afterRun store calls clock].
  pose proof (sleepTotal_nonneg k 1).
  pose proof (sleepTotal_le 1 k 120 Hk) as Hle.
  rewrite sleepTotal_all in Hle. split; [reflexivity|]. lia.
Qed.

Lemma ts_sender_keeps_store chatId content_ sessionKey (w : World Card) :
  store (snd (Channel.sendToLarkWithRetry Card buildCard chatTransport
                chatId content_ sessionKey w)) = store w.
Proof.
  destruct (selectMessageType (Some content_)) eqn:Htype.
  - unfold Channel.sendToLarkWithRetry. rewrite Htype. reflexivity.
  - assert (Hns : selectMessageType (Some content_) <> skip)
      by (rewrite Htype; discriminate).
    destruct (ts_sender_runs chatId content_ sessionKey w Hns)
      as (k & Heq & Hk & Hrun & _).
    rewrite Heq, Hrun. reflexivity.
  - assert (Hns : selectMessageType (Some content_) <> skip)
      by (rewrite Htype; discriminate).
    destruct (ts_sender_runs chatId content_ sessionKey w Hns)
      as (k & Heq & Hk & Hrun & _).
    rewrite Heq, Hrun. reflexivity.
Qed.

Lemma dist_sender_keeps_store chatId content_ sessionKey (w : World Card) :
  store (snd (ChannelDist.sendToLarkWithRetry Card buildCard chatTransport
                chatId content_ sessionKey w)) = store w.
Proof.
  destruct (selectMessageType (Some content_)) eqn:Htype.
  - unfold ChannelDist.sendToLarkWithRetry. rewrite Htype. reflexivity.
  - assert (Hns : selectMessageType (Some content_) <> skip)
      by (rewrite Htype; discriminate).
    destruct (dist_sender_runs chatId content_ sessionKey w Hns)
      as (k & Heq & Hk & Hrun & _).
    rewrite Heq, Hrun. reflexivity.
  - assert (Hns : selectMessageType (Some content_) <> skip)
      by (rewrite Htype; discriminate).
    destruct (dist_sender_runs chatId content_ sessionKey w Hns)
      as (k & Heq & Hk & Hrun & _).
    rewrite Heq, Hrun. reflexivity.
Qed.

(** X21: Whatever the transport answers, one [sendToLarkWithRetry] call, of
    either version, makes at most 120 transport calls, sleeps at most
    771391 seconds in all, and leaves the queue as it was. *)
Theorem sender_run_is_bounded chatId content_ sessionKey (w : World Card) :
  let wTs :=
    snd (Channel.sendToLarkWithRetry Card buildCard chatTransport chatId
           content_ sessionKey w) in
  let wDist :=
    snd (ChannelDist.sendToLarkWithRetry Card buildCard chatTransport chatId
           content_ sessionKey w) in
  (store wTs = store w /\
   (calls w <= calls wTs <= calls w + 120)%nat /\
   clock w <= clock wTs <= clock w + LONGEST_WAIT_MS) /\
  (store wDist = store w /\
   (calls w <= calls wDist <= calls w + 120)%nat /\
   clock w <= clock wDist <= clock w + LONGEST_WAIT_MS).
Proof.
  cbv zeta.
  destruct (selectMessageType (Some content_)) eqn:Htype.
  - unfold Channel.sendToLarkWithRetry, ChannelDist.sendToLarkWithRetry.
    rewrite Htype. cbn [ret snd]. unfold LONGEST_WAIT_MS.
    repeat split; lia.
  - assert (Hns : selectMessageType (Some content_) <> skip)
      by (rewrite Htype; discriminate).
    destruct (ts_sender_runs chatId content_ sessionKey w Hns)
      as (k & Heq & Hk & Hrun & _).
    destruct (dist_sender_runs chatId content_ sessionKey w Hns)
      as (k' & Heq' & Hk' & Hrun' & _).
    rewrite Heq, Hrun, Heq', Hrun'. cbn [snd].
    split; apply run_bounds; lia.
  - assert (Hns : selectMessageType (Some content_) <> skip)
      by (rewrite Htype; discriminate).
    destruct (ts_sender_runs chatId content_ sessionKey w Hns)
      as (k & Heq & Hk & Hrun & _).
    destruct (dist_sender_runs chatId content_ sessionKey w Hns)
      as (k' & Heq' & Hk' & Hrun' & _).
    rewrite Heq, Hrun, Heq', Hrun'. cbn [snd].
    split; apply run_bounds; lia.
Qed.

(** X22: Against a transport none of whose answers is a success, the sender
    of src/channel.ts gives up only after the 120th call: it has then
    slept all 119 backoffs, 771391 seconds, and returns the error of the
    last answer.  The sender of dist/src/channel.js does the same when,
    in addition, none of the errors carries a non-retryable code. *)
Theorem sender_gives_up_after_120_calls
    chatId content_ sessionKey (w : World Card) :
  selectMessageType (Some content_) <> skip ->
  (forall j, failedCall (chatTransport j)) ->
  let e :=
    sendEvent Card buildCard (selectMessageType (Some content_)) chatId
      content_ sessionKey in
  let gaveUp :=
    ({| skipped := false; r_messageId := None;
        r_error := Some (errorOf (chatTransport (calls w + 119))) |},
     {| store := store w; clock := clock w + LONGEST_WAIT_MS;
        calls := calls w + 120; events := events w ++ traceFrom e 1 120;
        outboundConsumerRunning := outboundConsumerRunning w |}) in
  Channel.sendToLarkWithRetry Card buildCard chatTransport chatId content_
    sessionKey w = gaveUp /\
  ((forall j, stopsDist (chatTransport j) = false) ->
   ChannelDist.sendToLarkWithRetry Card buildCard chatTransport chatId
     content_ sessionKey w = gaveUp).
Proof.
  intros Hns Hfail e gaveUp.
  assert (Hres : resultOf (chatTransport (calls w + 120 - 1))
                 = {| skipped := false; r_messageId := None;
                      r_error :=
                        Some (errorOf (chatTransport (calls w + 119))) |}).
  { replace (calls w + 120 - 1)%nat with (calls w + 119)%nat by lia.
    pose proof (Hfail (calls w + 119)%nat) as Hf.
    destruct (chatTransport (calls w + 119)) as [res|message];
      [|reflexivity].
    cbn [failedCall] in Hf. cbn [resultOf]. rewrite Hf. reflexivity. }
  assert (Hworld : afterRun w e 1 120 = snd gaveUp).
  { unfold afterRun, gaveUp. cbn [snd]. rewrite sleepTotal_all.
    reflexivity. }
  split.
  - destruct (ts_sender_runs chatId content_ sessionKey w Hns)
      as (k & Heq & Hk & Hrun & _ & Hlast).
    assert (k = 120%nat) as ->.
    { destruct Hlast as [H|[H|H]]; [exact H| |].
      - exfalso. apply H. apply Hfail.
      - rewrite ts_stops_never in H. discriminate. }
    rewrite Heq, Hrun, Hres. fold e. rewrite Hworld. reflexivity.
  - intros Hcodes.
    destruct (dist_sender_runs chatId content_ sessionKey w Hns)
      as (k & Heq & Hk & Hrun & _ & Hlast).
    assert (k = 120%nat) as ->.
    { destruct Hlast as [H|[H|H]]; [exact H| |].
      - exfalso. apply H. apply Hfail.
      - unfold stopsDist in Hcodes. rewrite Hcodes in H. discriminate. }
    rewrite Heq, Hrun, Hres. fold e. rewrite Hworld. reflexivity.
Qed.

End OneTransport.

(** A text message against the transport that denies every call. *)
Lemma ts_sender_calls_until_first_success_witness :
  exists k,
    (1 <= k <= 120)%nat /\
    Channel.sendToLarkWithRetry unit Examples.noCard Examples.alwaysDenied
      (lit "c1") (lit "hi") None Examples.idle
    = (resultOf (Examples.alwaysDenied (0 + k - 1)),
       afterRun Examples.idle (SendText (lit "c1") (lit "hi")) 1 k) /\
    (forall j, (j < k - 1)%nat -> failedCall (Examples.alwaysDenied (0 + j))) /\
    (k = 120%nat \/ ~ failedCall (Examples.alwaysDenied (0 + k - 1))).
Proof.
  apply (ts_sender_calls_until_first_success unit Examples.noCard
           Examples.alwaysDenied (lit "c1") (lit "hi") None Examples.idle).
  discriminate.
Defined.

Lemma dist_sender_calls_until_success_or_fatal_code_witness :
  exists k,
    (1 <= k <= 120)%nat /\
    ChannelDist.sendToLarkWithRetry unit Examples.noCard
      Examples.alwaysDenied (lit "c1") (lit "hi") None Examples.idle
    = (resultOf (Examples.alwaysDenied (0 + k - 1)),
       afterRun Examples.idle (SendText (lit "c1") (lit "hi")) 1 k) /\
    (forall j, (j < k - 1)%nat ->
               failedCall (Examples.alwaysDenied (0 + j)) /\
               stopsDist (Examples.alwaysDenied (0 + j)) = false) /\
    (k = 120%nat \/
     ~ failedCall (Examples.alwaysDenied (0 + k - 1)) \/
     stopsDist (Examples.alwaysDenied (0 + k - 1)) = true).
Proof.
  apply (dist_sender_calls_until_success_or_fatal_code unit Examples.noCard
           Examples.alwaysDenied (lit "c1") (lit "hi") None Examples.idle).
  discriminate.
Defined.

(** The transport that denies every call with code 230001 stops the
    sender of src/channel.ts only after 120 calls. *)
Lemma sender_gives_up_after_120_calls_witness :
  Channel.sendToLarkWithRetry unit Examples.noCard Examples.alwaysDenied
    (lit "c1") (lit "hi") None Examples.idle
  = ({| skipped := false; r_messageId := None;
        r_error := Some (errorOf (Examples.alwaysDenied 119)) |},
     {| store := Examples.emptyStore; clock := 0 + LONGEST_WAIT_MS;
        calls := 120;
        events := [] ++ traceFrom (SendText (lit "c1") (lit "hi")) 1 120;
        outboundConsumerRunning := true |}).
Proof.
  apply (sender_gives_up_after_120_calls unit Examples.noCard
           Examples.alwaysDenied (lit "c1") (lit "hi") None Examples.idle).
  - discriminate.
  - intros j. reflexivity.
Defined.

End SenderLoopFacts.

(* ================================================================== *)
(** * The two queue consumers *)
(* ================================================================== *)

Module ConsumerFacts.

Import Queue Spec Props SqlFacts.

(** ** One row through mark-processing and then completion or retry *)

Lemma other_row_kept {Row : Type} (idf : Row -> Z) (f : Row -> Row)
    (i j : Z) (tbl : list Row) :
  (forall r, idf (f r) = idf r) ->
  i <> j ->
  find (fun r => idf r =? j) (update_where (fun r => idf r =? i) f tbl)
  = find (fun r => idf r =? j) tbl.
Proof.
  intros Hid Hne. rewrite InvariantFacts.find_update_where.
  - destruct (find (fun r => idf r =? j) tbl) as [r|] eqn:Hr; [|reflexivity].
    apply find_some in Hr. destruct Hr as [_ Hr]. apply Z.eqb_eq in Hr.
    cbn [option_map]. destruct (Z.eqb_spec (idf r) i); [lia|reflexivity].
  - intros r. rewrite Hid. reflexivity.
Qed.

Lemma same_row_rewritten {Row : Type} (idf : Row -> Z) (f : Row -> Row)
    (i : Z) (tbl : list Row) (r : Row) :
  (forall r, idf (f r) = idf r) ->
  find (fun r => idf r =? i) tbl = Some r ->
  find (fun r => idf r =? i) (update_where (fun r => idf r =? i) f tbl)
  = Some (f r).
Proof.
  intros Hid Hr. rewrite InvariantFacts.find_update_where.
  - rewrite Hr. cbn [option_map].
    apply find_some in Hr. destruct Hr as [_ Hr]. rewrite Hr. reflexivity.
  - intros x. rewrite Hid. reflexivity.
Qed.

Ltac open_marks :=
  unfold baseRow, inboundRow, outboundRow, select_first,
    markProcessing, markCompleted, markRetry,
    markInboundProcessing, markOutboundProcessing,
    markInboundCompleted, markInboundRetry, markOutboundRetry,
    stmtMarkInboundProcessing, stmtMarkOutboundProcessing,
    stmtUpdateInbound, stmtUpdateOutbound, hasExceededMaxRetries,
    in_has_id, out_has_id.

Lemma processing_row k now rowId s q :
  baseRow k rowId s = Some q ->
  baseRow k rowId (markProcessing k now rowId s)
  = Some (set_processing now q).
Proof.
  destruct k; open_marks; cbn [inbound_queue outbound_queue with_inbound
                               with_outbound]; intros H.
  - destruct (find _ (inbound_queue s)) as [m|] eqn:Hm; [|discriminate].
    injection H as <-.
    rewrite (same_row_rewritten (fun m => id (in_q m)) _ _ _ m);
      [reflexivity|reflexivity|exact Hm].
  - destruct (find _ (outbound_queue s)) as [m|] eqn:Hm; [|discriminate].
    injection H as <-.
    rewrite (same_row_rewritten (fun m => id (out_q m)) _ _ _ m);
      [reflexivity|reflexivity|exact Hm].
Qed.

Lemma completed_row k now rowId (res : ResultOf k) s q :
  baseRow k rowId s = Some q ->
  baseRow k rowId (markCompleted k now rowId res s)
  = Some (set_update completed now (retries q) None None (Some now) q).
Proof.
  destruct k; cbn [markCompleted baseRow]; intros H.
  - unfold inboundRow, select_first, markInboundCompleted, stmtUpdateInbound,
      in_has_id in *.
    cbn [inbound_queue with_inbound].
    destruct (find _ (inbound_queue s)) as [m|] eqn:Hm; [|discriminate].
    injection H as <-.
    rewrite (same_row_rewritten (fun m => id (in_q m)) _ _ _ m);
      [|reflexivity|exact Hm].
    unfold select_first. rewrite Hm. reflexivity.
  - unfold outboundRow, select_first.
    rewrite InvariantFacts.markOutboundCompleted_table.
    unfold outboundRow, select_first, stmtUpdateOutbound, out_has_id in *.
    destruct (find _ (outbound_queue s)) as [m|] eqn:Hm; [|discriminate].
    injection H as <-.
    rewrite (same_row_rewritten (fun m => id (out_q m)) _ _ _ m);
      [reflexivity|reflexivity|exact Hm].
Qed.

Lemma processing_other k now rowId j s :
  rowId <> j ->
  baseRow k j (markProcessing k now rowId s) = baseRow k j s.
Proof.
  intros Hne. destruct k; open_marks;
    cbn [inbound_queue outbound_queue with_inbound with_outbound].
  - rewrite (other_row_kept (fun m => id (in_q m))); auto.
  - rewrite (other_row_kept (fun m => id (out_q m))); auto.
Qed.

Lemma completed_other k now rowId (res : ResultOf k) j s :
  rowId <> j ->
  baseRow k j (markCompleted k now rowId res s) = baseRow k j s.
Proof.
  intros Hne. destruct k; cbn [markCompleted baseRow].
  - unfold inboundRow, select_first, markInboundCompleted, stmtUpdateInbound,
      in_has_id.
    cbn [inbound_queue with_inbound].
    rewrite (other_row_kept (fun m => id (in_q m))); auto.
  - unfold outboundRow, select_first.
    rewrite InvariantFacts.markOutboundCompleted_table.
    unfold stmtUpdateOutbound, out_has_id.
    rewrite (other_row_kept (fun m => id (out_q m))); auto.
Qed.

Lemma retry_other k now rowId err j s :
  rowId <> j ->
  baseRow k j (markRetry k now rowId err s) = baseRow k j s.
Proof.
  intros Hne. destruct k; open_marks.
  - destruct (_ >=? MAX_RETRIES);
      cbn [inbound_queue with_inbound];
      rewrite (other_row_kept (fun m => id (in_q m))); auto.
  - destruct (_ >=? MAX_RETRIES);
      cbn [outbound_queue with_outbound];
      rewrite (other_row_kept (fun m => id (out_q m))); auto.
Qed.

(** Mark-processing and then a retry. *)
Lemma settle_retried k t t' rowId err s q :
  baseRow k rowId s = Some q ->
  exists q',
    baseRow k rowId (markRetry k t' rowId err (markProcessing k t rowId s))
    = Some q' /\
    retried t' err q q'.
Proof.
  intros H. apply (processing_row k t) in H.
  destruct (RetryFacts.markRetry_row k t' rowId err _ _ H)
    as (q' & Hq' & Hret & _).
  exists q'. split; [exact Hq'|exact Hret].
Qed.

(** The dequeued rows are rows of the table, with distinct ids, whatever
    the plan. *)
Lemma selected_rows {Row : Type} (visit : list Row -> Row -> Z)
    (idf key : Row -> Z) (p : Row -> bool) (limit : nat) (tbl : list Row) :
  NoDup (map idf tbl) ->
  NoDup (map idf (firstn limit (order_by key (scan visit p tbl)))) /\
  (List.length (firstn limit (order_by key (scan visit p tbl))) <= limit)%nat
  /\
  forall m, In m (firstn limit (order_by key (scan visit p tbl))) ->
            find (fun r => idf r =? idf m) tbl = Some m.
Proof.
  intros Hnd. split; [|split].
  - assert (Hall : NoDup (map idf (order_by key (scan visit p tbl)))).
    { apply (Permutation_NoDup
               (Permutation_map idf
                  (perm_trans (scan_perm visit p tbl)
                     (order_by_perm key (scan visit p tbl))))).
      apply InvariantFacts.selection_keeps_keys_distinct. exact Hnd. }
    rewrite <- (firstn_skipn limit (order_by key (scan visit p tbl)))
      in Hall.
    rewrite map_app in Hall. apply NoDup_app_remove_r in Hall. exact Hall.
  - apply firstn_le_length.
  - intros m Hm. apply ScheduleFacts.selected_In in Hm.
    apply (InvariantFacts.find_unique idf); [exact Hnd|tauto|].
    intros x. apply Z.eqb_eq.
Qed.

(** The mark calls of one queue leave the table of the other alone. *)
Lemma marks_keep_other_queue k k' now rowId s :
  k <> k' ->
  baseRows k' (markProcessing k now rowId s) = baseRows k' s /\
  (forall res, baseRows k' (markCompleted k now rowId res s) = baseRows k' s)
  /\
  (forall err, baseRows k' (markRetry k now rowId err s) = baseRows k' s).
Proof.
  intros Hne.
  destruct k, k'; try contradiction; cbn [baseRows markProcessing
                                           markCompleted markRetry].
  - split; [reflexivity|]. split; [reflexivity|].
    intros err. unfold markInboundRetry.
    destruct (hasExceededMaxRetries _); reflexivity.
  - split; [reflexivity|]. split.
    + intros res. unfold markOutboundCompleted.
      destruct (select_first _ _); reflexivity.
    + intros err. unfold markOutboundRetry.
      destruct (hasExceededMaxRetries _); reflexivity.
Qed.

(** Mark-processing, then whatever leaves the row alone, then
    completion. *)
Lemma settle_completed_amid k t t' rowId (res : ResultOf k)
    (during : Store -> Store) s q :
  (forall s, baseRow k rowId (during s) = baseRow k rowId s) ->
  baseRow k rowId s = Some q ->
  exists q',
    baseRow k rowId
      (markCompleted k t' rowId res (during (markProcessing k t rowId s)))
    = Some q' /\
    completedAt t' q q'.
Proof.
  intros Halone H. apply (processing_row k t) in H.
  rewrite <- Halone in H.
  apply (completed_row k t' rowId res) in H.
  eexists. split; [exact H|]. reflexivity.
Qed.

(** ... or a retry. *)
Lemma settle_retried_amid k t t' rowId err (during : Store -> Store) s q :
  (forall s, baseRow k rowId (during s) = baseRow k rowId s) ->
  baseRow k rowId s = Some q ->
  exists q',
    baseRow k rowId
      (markRetry k t' rowId err (during (markProcessing k t rowId s)))
    = Some q' /\
    retried t' err q q'.
Proof.
  intros Halone H. apply (processing_row k t) in H.
  rewrite <- Halone in H.
  destruct (RetryFacts.markRetry_row k t' rowId err _ _ H)
    as (q' & Hq' & Hret & _).
  exists q'. split; [exact Hq'|exact Hret].
Qed.

(** ** [processOutboundQueue] *)

Section Outbound.
Import Sender.
Variable Card : Type.
Variable sendToLark :
  jsstring -> jsstring -> option jsstring -> M Card SendResult.
Hypothesis sender_keeps_store :
  forall c t k w, store (snd (sendToLark c t k w)) = store w.
Variable plan : QueryPlan.
Variable others : nat -> Store -> Store.

Local Abbreviation iteration :=
  (processOutboundMessageAmid Card sendToLark).
Local Abbreviation forEach := (Sender.forEach Card sendToLark others).

Ltac run_sender r w2 Hkeep :=
  unfold processOutboundMessageAmid, bind, onQueue, meanwhile;
  cbv beta iota zeta;
  match goal with
  | |- context [sendToLark ?c ?t ?k ?w1] =>
      pose proof (sender_keeps_store c t k w1) as Hkeep;
      destruct (sendToLark c t k w1) as [r w2]
  end;
  cbn [snd store] in Hkeep.

Lemma outbound_iteration_settles during msg (w : World Card) q :
  (forall s, baseRow Outbound (id (out_q msg)) (during s)
             = baseRow Outbound (id (out_q msg)) s) ->
  baseRow Outbound (id (out_q msg)) (store w) = Some q ->
  exists q',
    baseRow Outbound (id (out_q msg)) (store (snd (iteration during msg w)))
    = Some q' /\
    settledFrom q q'.
Proof.
  intros Halone Hq. run_sender r w2 Hkeep.
  destruct (skipped r); [|destruct (truthy (r_messageId r))];
    cbn [snd store clock]; rewrite Hkeep.
  - destruct (settle_completed_amid Outbound (clock w) (clock w2) _ None
                during _ _ Halone Hq) as (q' & H1 & H2).
    exists q'. split; [exact H1|]. exists (clock w2). left. exact H2.
  - destruct (settle_completed_amid Outbound (clock w) (clock w2) _
                (r_messageId r) during _ _ Halone Hq) as (q' & H1 & H2).
    exists q'. split; [exact H1|]. exists (clock w2). left. exact H2.
  - destruct (settle_retried_amid Outbound (clock w) (clock w2) _
                (orElse (r_error r) (lit "Unknown error")) during _ _
                Halone Hq) as (q' & H1 & H2).
    exists q'. split; [exact H1|]. exists (clock w2). right.
    eexists. exact H2.
Qed.

Lemma outbound_iteration_other during msg (w : World Card) j :
  (forall s, baseRow Outbound j (during s) = baseRow Outbound j s) ->
  id (out_q msg) <> j ->
  baseRow Outbound j (store (snd (iteration during msg w)))
  = baseRow Outbound j (store w).
Proof.
  intros Halone Hne. run_sender r w2 Hkeep.
  destruct (skipped r); [|destruct (truthy (r_messageId r))];
    cbn [snd store clock]; rewrite Hkeep.
  - rewrite (completed_other Outbound), Halone,
      (processing_other Outbound); auto.
  - rewrite (completed_other Outbound), Halone,
      (processing_other Outbound); auto.
  - rewrite (retry_other Outbound), Halone,
      (processing_other Outbound); auto.
Qed.

Lemma outbound_iteration_inbound during msg (w : World Card) :
  (forall s, baseRows Inbound (during s) = baseRows Inbound s) ->
  baseRows Inbound (store (snd (iteration during msg w)))
  = baseRows Inbound (store w).
Proof.
  intros Halone.
  assert (Hne : Outbound <> Inbound) by discriminate.
  run_sender r w2 Hkeep.
  destruct (skipped r); [|destruct (truthy (r_messageId r))];
    cbn [snd store clock]; rewrite Hkeep.
  - rewrite (proj1 (proj2 (marks_keep_other_queue Outbound Inbound _ _ _ Hne))).
    rewrite Halone.
    apply (marks_keep_other_queue Outbound Inbound _ _ _ Hne).
  - rewrite (proj1 (proj2 (marks_keep_other_queue Outbound Inbound _ _ _ Hne))).
    rewrite Halone.
    apply (marks_keep_other_queue Outbound Inbound _ _ _ Hne).
  - rewrite (proj2 (proj2 (marks_keep_other_queue Outbound Inbound _ _ _ Hne))).
    rewrite Halone.
    apply (marks_keep_other_queue Outbound Inbound _ _ _ Hne).
Qed.

Lemma outbound_forEach_other j :
  (forall i s, baseRow Outbound j (others i s) = baseRow Outbound j s) ->
  forall msgs i (w : World Card),
    ~ In j (map (fun m => id (out_q m)) msgs) ->
    baseRow Outbound j (store (snd (forEach i msgs w)))
    = baseRow Outbound j (store w).
Proof.
  intros Halone.
  induction msgs as [|msg rest IH]; intros i w Hj; [reflexivity|].
  cbn [Sender.forEach]. unfold bind.
  destruct (iteration (others i) msg w) as [u w1] eqn:Hw1.
  rewrite IH by (intros H; apply Hj; right; exact H).
  replace w1 with (snd (iteration (others i) msg w))
    by (rewrite Hw1; reflexivity).
  apply outbound_iteration_other; [apply Halone|].
  intros H. apply Hj. left. exact H.
Qed.

Lemma outbound_forEach_inbound :
  (forall i s, baseRows Inbound (others i s) = baseRows Inbound s) ->
  forall msgs i (w : World Card),
    baseRows Inbound (store (snd (forEach i msgs w)))
    = baseRows Inbound (store w).
Proof.
  intros Halone.
  induction msgs as [|msg rest IH]; intros i w; [reflexivity|].
  cbn [Sender.forEach]. unfold bind.
  destruct (iteration (others i) msg w) as [u w1] eqn:Hw1.
  rewrite IH.
  replace w1 with (snd (iteration (others i) msg w))
    by (rewrite Hw1; reflexivity).
  apply outbound_iteration_inbound. apply Halone.
Qed.

Lemma outbound_forEach_settles msgs : forall i (w : World Card),
  leavesAlone Outbound (map (fun m => id (out_q m)) msgs) others ->
  NoDup (map (fun m => id (out_q m)) msgs) ->
  (forall m, In m msgs ->
             baseRow Outbound (id (out_q m)) (store w) = Some (out_q m)) ->
  forall m, In m msgs ->
    exists q',
      baseRow Outbound (id (out_q m)) (store (snd (forEach i msgs w)))
      = Some q' /\
      settledFrom (out_q m) q'.
Proof.
  induction msgs as [|msg rest IH]; intros i w Halone Hnd Hrows m Hm;
    [destruct Hm|].
  cbn [map] in Hnd. inversion Hnd as [|? ? Hnot Hnd']; subst.
  assert (Hhead : forall i s,
            baseRow Outbound (id (out_q msg)) (others i s)
            = baseRow Outbound (id (out_q msg)) s).
  { intros i' s'. apply Halone. left. reflexivity. }
  assert (Htail : leavesAlone Outbound (map (fun m => id (out_q m)) rest)
                    others).
  { intros i' s' j Hj. apply Halone. right. exact Hj. }
  cbn [Sender.forEach]. unfold bind.
  destruct (iteration (others i) msg w) as [u w1] eqn:Hw1.
  assert (Ew1 : w1 = snd (iteration (others i) msg w))
    by (rewrite Hw1; reflexivity).
  destruct Hm as [<-|Hm].
  - rewrite (outbound_forEach_other _ Hhead) by exact Hnot. rewrite Ew1.
    apply outbound_iteration_settles; [apply Hhead|].
    apply Hrows. left. reflexivity.
  - apply IH; [exact Htail|exact Hnd'| |exact Hm].
    intros m' Hm'. rewrite Ew1, outbound_iteration_other.
    + apply Hrows. right. exact Hm'.
    + intros s'. apply Htail. apply in_map_iff.
      exists m'. split; [reflexivity|exact Hm'].
    + intros Heq. apply Hnot. rewrite Heq. apply in_map_iff.
      exists m'. split; [reflexivity|exact Hm'].
Qed.

(** One tick of the outbound consumer, for any sender that leaves the
    queue alone. *)
Lemma outbound_tick (w : World Card) :
  uniqueIds (store w) ->
  let msgs := dequeueOutbound plan (clock w) 5 (store w) in
  let w' := snd (processOutboundQueue Card sendToLark plan others w) in
  (outboundConsumerRunning w = false -> w' = w) /\
  (outboundConsumerRunning w = true ->
   (List.length msgs <= 5)%nat /\
   (leavesAlone Outbound (map (fun m => id (out_q m)) msgs) others ->
    forall m, In m msgs ->
      exists q',
        baseRow Outbound (id (out_q m)) (store w') = Some q' /\
        settledFrom (out_q m) q') /\
   (nothingElse others ->
    (forall j, ~ In j (map (fun m => id (out_q m)) msgs) ->
       baseRow Outbound j (store w') = baseRow Outbound j (store w)) /\
    baseRows Inbound (store w') = baseRows Inbound (store w))).
Proof.
  intros Hu msgs w'. subst w'. unfold processOutboundQueue.
  split; intros Hrun; rewrite Hrun; cbn [negb snd]; [reflexivity|].
  fold msgs.
  destruct (selected_rows (visitOutbound plan) (fun m => id (out_q m))
              (fun m => created_at (out_q m))
              (fun m => dequeueable (clock w) (out_q m)) 5
              (outbound_queue (store w))
              (proj1 (proj1 (proj2 Hu)))) as (Hnd & Hlen & Hfind).
  split; [exact Hlen|]. split.
  - intros Halone. apply outbound_forEach_settles;
      [exact Halone|exact Hnd|].
    intros m Hm. cbn [baseRow]. unfold outboundRow, select_first, out_has_id.
    rewrite (Hfind m Hm). reflexivity.
  - intros Hnone. split.
    + intros j Hj. apply outbound_forEach_other; [|exact Hj].
      intros i s. rewrite Hnone. reflexivity.
    + apply outbound_forEach_inbound.
      intros i s. rewrite Hnone. reflexivity.
Qed.

End Outbound.

(** X23: one tick of [processOutboundQueue], with the sender of
    src/channel.ts and with that of dist/src/channel.js, started on a
    store with distinct ids, under any query plan.  With the consumer
    stopped it does nothing.  Otherwise it takes at most five rows.  If
    what else runs while the tick waits for its sends leaves the rows of
    this batch alone, then when the tick returns every one of them is
    completed or has been retried once, so none is left [processing], and
    a failure of one has not kept the later ones from their turn.  If
    nothing else runs in that time, no other outbound row and no inbound
    row has changed. *)
Theorem outbound_tick_settles_what_it_dequeues
    (Card : Type) (buildCard : jsstring -> option jsstring -> Card)
    (chatTransport : nat -> Sender.SendOutcome) (plan : QueryPlan)
    (others : nat -> Store -> Store) (w : Sender.World Card)
    (w' : Sender.World Card) :
  uniqueIds (Sender.store w) ->
  w' = snd (Channel.processOutboundQueue Card buildCard chatTransport plan
              others w) \/
  w' = snd (ChannelDist.processOutboundQueue Card buildCard chatTransport
              plan others w)
  ->
  let msgs := dequeueOutbound plan (Sender.clock w) 5 (Sender.store w) in
  (Sender.outboundConsumerRunning w = false -> w' = w) /\
  (Sender.outboundConsumerRunning w = true ->
   (List.length msgs <= 5)%nat /\
   (leavesAlone Outbound (map (fun m => id (out_q m)) msgs) others ->
    forall m, In m msgs ->
      exists q',
        baseRow Outbound (id (out_q m)) (Sender.store w') = Some q' /\
        settledFrom (out_q m) q') /\
   (nothingElse others ->
    (forall j, ~ In j (map (fun m => id (out_q m)) msgs) ->
       baseRow Outbound j (Sender.store w')
       = baseRow Outbound j (Sender.store w)) /\
    baseRows Inbound (Sender.store w') = baseRows Inbound (Sender.store w))).
Proof.
  intros Hu [->| ->].
  - apply (outbound_tick Card
             (Channel.sendToLarkWithRetry Card buildCard chatTransport)
             (SenderLoopFacts.ts_sender_keeps_store Card buildCard
                chatTransport) plan others w Hu).
  - apply (outbound_tick Card
             (ChannelDist.sendToLarkWithRetry Card buildCard chatTransport)
             (SenderLoopFacts.dist_sender_keeps_store Card buildCard
                chatTransport) plan others w Hu).
Qed.

(** ** [processInboundQueue] *)

Section Inbound.
Import InboundConsumer.
Variable Attachments : Type.
Variable JSON_parse : jsstring -> Attachments + jsstring.
Variable gateway : nat -> GatewayAnswer.

Local Abbreviation processInboundMessage :=
  (InboundConsumer.processInboundMessage Attachments JSON_parse gateway).
Local Abbreviation parseAttachments :=
  (InboundConsumer.parseAttachments Attachments JSON_parse).

(** The world after one message, case by case. *)
Lemma inbound_message_run msg (w : World Attachments) :
  let rowId := id (in_q msg) in
  let marked := markInboundProcessing (clock w) rowId (store w) in
  snd (processInboundMessage msg w)
  = match parseAttachments (attachments_json msg) with
    | inr message =>
        {| store := markInboundRetry (clock w) rowId message marked;
           clock := clock w; calls := calls w; asked := asked w;
           inboundConsumerRunning := inboundConsumerRunning w |}
    | inl attachments =>
        let t := clock w + elapsed (gateway (calls w)) in
        {| store :=
             match result (gateway (calls w)) with
             | Resolved _ =>
                 markInboundCompleted t rowId (lit "delivered") marked
             | Rejected message => markInboundRetry t rowId message marked
             end;
           clock := t; calls := S (calls w);
           asked := asked w ++ [gatewayCallOf msg attachments];
           inboundConsumerRunning := inboundConsumerRunning w |}
    end.
Proof.
  cbv zeta. unfold InboundConsumer.processInboundMessage, bind, onQueue,
    askGateway.
  cbv beta iota zeta.
  destruct (parseAttachments (attachments_json msg)) as [att|message];
    [|reflexivity].
  cbn [store clock calls asked inboundConsumerRunning].
  destruct (result (gateway (calls w))); reflexivity.
Qed.

Variable plan : QueryPlan.
Variable others : nat -> Store -> Store.

Local Abbreviation iteration :=
  (processInboundMessageAmid Attachments JSON_parse gateway).
Local Abbreviation forEach :=
  (InboundConsumer.forEach Attachments JSON_parse gateway others).

(** The world after one iteration, case by case. *)
Lemma inbound_iteration_run during msg (w : World Attachments) :
  let rowId := id (in_q msg) in
  let marked := markInboundProcessing (clock w) rowId (store w) in
  snd (iteration during msg w)
  = match parseAttachments (attachments_json msg) with
    | inr message =>
        {| store := markInboundRetry (clock w) rowId message marked;
           clock := clock w; calls := calls w; asked := asked w;
           inboundConsumerRunning := inboundConsumerRunning w |}
    | inl attachments =>
        let t := clock w + elapsed (gateway (calls w)) in
        {| store :=
             match result (gateway (calls w)) with
             | Resolved _ =>
                 markInboundCompleted t rowId (lit "delivered")
                   (during marked)
             | Rejected message =>
                 markInboundRetry t rowId message (during marked)
             end;
           clock := t; calls := S (calls w);
           asked := asked w ++ [gatewayCallOf msg attachments];
           inboundConsumerRunning := inboundConsumerRunning w |}
    end.
Proof.
  cbv zeta. unfold processInboundMessageAmid, bind, onQueue, askGateway,
    meanwhile.
  cbv beta iota zeta.
  destruct (parseAttachments (attachments_json msg)) as [att|message];
    [|reflexivity].
  cbn [store clock calls asked inboundConsumerRunning].
  destruct (result (gateway (calls w))); reflexivity.
Qed.

Lemma inbound_iteration_settles during msg (w : World Attachments) q :
  (forall s, baseRow Inbound (id (in_q msg)) (during s)
             = baseRow Inbound (id (in_q msg)) s) ->
  baseRow Inbound (id (in_q msg)) (store w) = Some q ->
  exists q',
    baseRow Inbound (id (in_q msg)) (store (snd (iteration during msg w)))
    = Some q' /\
    settledFrom q q'.
Proof.
  intros Halone Hq. rewrite inbound_iteration_run. cbv zeta.
  destruct (parseAttachments (attachments_json msg)) as [att|message];
    cbn [store].
  - destruct (result (gateway (calls w))) as [reply|message].
    + destruct (settle_completed_amid Inbound (clock w)
                  (clock w + elapsed (gateway (calls w))) _
                  (lit "delivered") during _ _ Halone Hq)
        as (q' & H1 & H2).
      exists q'. split; [exact H1|]. eexists. left. exact H2.
    + destruct (settle_retried_amid Inbound (clock w)
                  (clock w + elapsed (gateway (calls w))) _
                  message during _ _ Halone Hq) as (q' & H1 & H2).
      exists q'. split; [exact H1|]. eexists. right. eexists. exact H2.
  - destruct (settle_retried Inbound (clock w) (clock w) _ message _ _ Hq)
      as (q' & H1 & H2).
    exists q'. split; [exact H1|]. eexists. right. eexists. exact H2.
Qed.

Lemma inbound_iteration_other during msg (w : World Attachments) j :
  (forall s, baseRow Inbound j (during s) = baseRow Inbound j s) ->
  id (in_q msg) <> j ->
  baseRow Inbound j (store (snd (iteration during msg w)))
  = baseRow Inbound j (store w).
Proof.
  intros Halone Hne. rewrite inbound_iteration_run. cbv zeta.
  destruct (parseAttachments (attachments_json msg)) as [att|message];
    cbn [store].
  - destruct (result (gateway (calls w))) as [reply|message].
    + rewrite (completed_other Inbound), Halone,
        (processing_other Inbound); auto.
    + rewrite (retry_other Inbound), Halone,
        (processing_other Inbound); auto.
  - rewrite (retry_other Inbound), (processing_other Inbound); auto.
Qed.

Lemma inbound_iteration_outbound during msg (w : World Attachments) :
  (forall s, baseRows Outbound (during s) = baseRows Outbound s /\
             sent_messages (during s) = sent_messages s) ->
  baseRows Outbound (store (snd (iteration during msg w)))
  = baseRows Outbound (store w) /\
  sent_messages (store (snd (iteration during msg w)))
  = sent_messages (store w).
Proof.
  intros Halone. rewrite inbound_iteration_run. cbv zeta.
  destruct (parseAttachments (attachments_json msg)) as [att|message];
    cbn [store].
  - destruct (Halone (markInboundProcessing (clock w) (id (in_q msg))
                        (store w))) as [Hout Hsent].
    destruct (result (gateway (calls w))) as [reply|message].
    + split; [exact Hout|exact Hsent].
    + unfold markInboundRetry.
      destruct (hasExceededMaxRetries _);
        (split; [exact Hout|exact Hsent]).
  - unfold markInboundRetry.
    destruct (hasExceededMaxRetries _); split; reflexivity.
Qed.

Lemma inbound_iteration_calls during msg (w : World Attachments) :
  (calls w <= calls (snd (iteration during msg w)) <= S (calls w))%nat.
Proof.
  rewrite inbound_iteration_run. cbv zeta.
  destruct (parseAttachments (attachments_json msg)); cbn [calls]; lia.
Qed.

Lemma inbound_forEach_other j :
  (forall i s, baseRow Inbound j (others i s) = baseRow Inbound j s) ->
  forall msgs i (w : World Attachments),
    ~ In j (map (fun m => id (in_q m)) msgs) ->
    baseRow Inbound j (store (snd (forEach i msgs w)))
    = baseRow Inbound j (store w).
Proof.
  intros Halone.
  induction msgs as [|msg rest IH]; intros i w Hj; [reflexivity|].
  cbn [InboundConsumer.forEach]. unfold bind.
  destruct (iteration (others i) msg w) as [u w1] eqn:Hw1.
  rewrite IH by (intros H; apply Hj; right; exact H).
  replace w1 with (snd (iteration (others i) msg w))
    by (rewrite Hw1; reflexivity).
  apply inbound_iteration_other; [apply Halone|].
  intros H. apply Hj. left. exact H.
Qed.

Lemma inbound_forEach_outbound :
  nothingElse others ->
  forall msgs i (w : World Attachments),
    baseRows Outbound (store (snd (forEach i msgs w)))
    = baseRows Outbound (store w) /\
    sent_messages (store (snd (forEach i msgs w))) = sent_messages (store w).
Proof.
  intros Hnone.
  induction msgs as [|msg rest IH]; intros i w; [split; reflexivity|].
  cbn [InboundConsumer.forEach]. unfold bind.
  destruct (iteration (others i) msg w) as [u w1] eqn:Hw1.
  destruct (IH (S i) w1) as [-> ->].
  replace w1 with (snd (iteration (others i) msg w))
    by (rewrite Hw1; reflexivity).
  apply inbound_iteration_outbound.
  intros s. rewrite Hnone. split; reflexivity.
Qed.

Lemma inbound_forEach_calls msgs : forall i (w : World Attachments),
  (calls w <= calls (snd (forEach i msgs w))
   <= calls w + List.length msgs)%nat.
Proof.
  induction msgs as [|msg rest IH]; intros i w; [cbn; lia|].
  cbn [InboundConsumer.forEach List.length]. unfold bind.
  destruct (iteration (others i) msg w) as [u w1] eqn:Hw1.
  pose proof (IH (S i) w1) as H1.
  pose proof (inbound_iteration_calls (others i) msg w) as H2.
  rewrite Hw1 in H2. cbn [snd] in H2. lia.
Qed.

Lemma inbound_forEach_settles msgs : forall i (w : World Attachments),
  leavesAlone Inbound (map (fun m => id (in_q m)) msgs) others ->
  NoDup (map (fun m => id (in_q m)) msgs) ->
  (forall m, In m msgs ->
             baseRow Inbound (id (in_q m)) (store w) = Some (in_q m)) ->
  forall m, In m msgs ->
    exists q',
      baseRow Inbound (id (in_q m)) (store (snd (forEach i msgs w)))
      = Some q' /\
      settledFrom (in_q m) q'.
Proof.
  induction msgs as [|msg rest IH]; intros i w Halone Hnd Hrows m Hm;
    [destruct Hm|].
  cbn [map] in Hnd. inversion Hnd as [|? ? Hnot Hnd']; subst.
  assert (Hhead : forall i s,
            baseRow Inbound (id (in_q msg)) (others i s)
            = baseRow Inbound (id (in_q msg)) s).
  { intros i' s'. apply Halone. left. reflexivity. }
  assert (Htail : leavesAlone Inbound (map (fun m => id (in_q m)) rest)
                    others).
  { intros i' s' j Hj. apply Halone. right. exact Hj. }
  cbn [InboundConsumer.forEach]. unfold bind.
  destruct (iteration (others i) msg w) as [u w1] eqn:Hw1.
  assert (Ew1 : w1 = snd (iteration (others i) msg w))
    by (rewrite Hw1; reflexivity).
  destruct Hm as [<-|Hm].
  - rewrite (inbound_forEach_other _ Hhead) by exact Hnot. rewrite Ew1.
    apply inbound_iteration_settles; [apply Hhead|].
    apply Hrows. left. reflexivity.
  - apply IH; [exact Htail|exact Hnd'| |exact Hm].
    intros m' Hm'. rewrite Ew1, inbound_iteration_other.
    + apply Hrows. right. exact Hm'.
    + intros s'. apply Htail. apply in_map_iff.
      exists m'. split; [reflexivity|exact Hm'].
    + intros Heq. apply Hnot. rewrite Heq. apply in_map_iff.
      exists m'. split; [reflexivity|exact Hm'].
Qed.

(** X25: one tick of [processInboundQueue], started on a store with
    distinct ids, under any query plan.  With the consumer stopped it does
    nothing.  Otherwise it takes at most three rows and asks the gateway
    at most once for each of them.  If what else runs while the tick waits
    for the gateway leaves the rows of this batch alone, then when the
    tick returns every one of them is completed or has been retried once,
    so none is left [processing], and a failure of one has not kept the
    later ones from their turn.  If nothing else runs in that time, no
    other inbound row, no outbound row and no SentRecord has changed. *)
Theorem inbound_tick_settles_what_it_dequeues (w : World Attachments) :
  uniqueIds (store w) ->
  let msgs := dequeueInbound plan (clock w) 3 (store w) in
  let w' :=
    snd (processInboundQueue Attachments JSON_parse gateway plan others w) in
  (inboundConsumerRunning w = false -> w' = w) /\
  (inboundConsumerRunning w = true ->
   (List.length msgs <= 3)%nat /\
   (calls w <= calls w' <= calls w + List.length msgs)%nat /\
   (leavesAlone Inbound (map (fun m => id (in_q m)) msgs) others ->
    forall m, In m msgs ->
      exists q',
        baseRow Inbound (id (in_q m)) (store w') = Some q' /\
        settledFrom (in_q m) q') /\
   (nothingElse others ->
    (forall j, ~ In j (map (fun m => id (in_q m)) msgs) ->
       baseRow Inbound j (store w') = baseRow Inbound j (store w)) /\
    baseRows Outbound (store w') = baseRows Outbound (store w) /\
    sent_messages (store w') = sent_messages (store w))).
Proof.
  intros Hu msgs w'. subst w'. unfold processInboundQueue.
  split; intros Hrun; rewrite Hrun; cbn [negb snd]; [reflexivity|].
  fold msgs.
  destruct (selected_rows (visitInbound plan) (fun m => id (in_q m))
              (fun m => created_at (in_q m))
              (fun m => dequeueable (clock w) (in_q m)) 3
              (inbound_queue (store w))
              (proj1 (proj1 Hu))) as (Hnd & Hlen & Hfind).
  split; [exact Hlen|]. split; [apply inbound_forEach_calls|]. split.
  - intros Halone. apply inbound_forEach_settles;
      [exact Halone|exact Hnd|].
    intros m Hm. cbn [baseRow]. unfold inboundRow, select_first, in_has_id.
    rewrite (Hfind m Hm). reflexivity.
  - intros Hnone. split.
    + intros j Hj. apply inbound_forEach_other; [|exact Hj].
      intros i s. rewrite Hnone. reflexivity.
    + apply inbound_forEach_outbound. exact Hnone.
Qed.

End Inbound.

Lemma oneOutbound_unique : uniqueIds Examples.oneOutbound.
Proof.
  apply (InvariantFacts.ids_step Examples.sampleHash unit
           Examples.sampleStringify 0
           (EnqueueOutbound unit reply (Examples.outboundHi (lit "c1")))
           Examples.emptyStore).
  apply InvariantFacts.emptyStore_well_formed.
Qed.

(** The row of [oneOutbound], against the transport that denies every
    call, with nothing else running: the sender of dist/src/channel.js
    stops at once and the row is retried. *)
Lemma outbound_tick_settles_what_it_dequeues_witness :
  exists q',
    baseRow Outbound 1
      (Sender.store
         (snd (ChannelDist.processOutboundQueue unit Examples.noCard
                 Examples.alwaysDenied Examples.newestFirst Examples.alone
                 Examples.outboundReady))) = Some q' /\
    settledFrom (fresh_row 1 0 0 0) q'.
Proof.
  refine (proj1 (proj2 (proj2
    (outbound_tick_settles_what_it_dequeues unit Examples.noCard
       Examples.alwaysDenied Examples.newestFirst Examples.alone
       Examples.outboundReady _
       oneOutbound_unique (or_intror eq_refl))
    eq_refl))
    (fun i s j _ => eq_refl)
    {| out_q := fresh_row 1 0 0 0; queue_type := reply; run_id := [];
       out_session_key := lit "s"; out_chat_id := lit "c1";
       content := lit "hi"; content_hash := lit "md5:hi";
       lark_message_id := None |} _).
  left. reflexivity.
Defined.


(** The same row through a whole tick, with nothing else running. *)
Lemma inbound_tick_settles_what_it_dequeues_witness :
  exists q',
    baseRow Inbound 1
      (InboundConsumer.store
         (snd (InboundConsumer.processInboundQueue unit Examples.parsesAll
                 Examples.answering Examples.newestFirst Examples.alone
                 Examples.inboundReady))) = Some q' /\
    settledFrom (in_q Examples.hiRow) q'.
Proof.
  refine (proj1 (proj2 (proj2 (proj2
    (inbound_tick_settles_what_it_dequeues unit Examples.parsesAll
       Examples.answering Examples.newestFirst Examples.alone
       Examples.inboundReady InvariantFacts.oneInbound_unique)
    eq_refl)))
    (fun i s j _ => eq_refl) Examples.hiRow _).
  left. reflexivity.
Defined.

End ConsumerFacts.

(* ================================================================== *)
(** * The non-retryable codes of dist/src/channel.js, and the accounts *)
(* ================================================================== *)

Module CodeFacts.

Import ChannelDist.

Lemma digit_is_word d : isDigit d = true -> isWord d = true.
Proof. intros H. unfold isWord. rewrite H. reflexivity. Qed.

Lemma takeDigits_nth s : forall i,
  (i < List.length (takeDigits s))%nat ->
  exists d, nth_error s i = Some d /\ isDigit d = true.
Proof.
  induction s as [|c s IH]; intros i Hi; cbn [takeDigits] in Hi.
  - cbn in Hi. lia.
  - destruct (isDigit c) eqn:Hc; [|cbn in Hi; lia].
    destruct i as [|i]; [exists c; split; [reflexivity|exact Hc]|].
    cbn [List.length] in Hi. apply IH. lia.
Qed.

Lemma takeDigits_length s :
  (List.length (takeDigits s) <= List.length s)%nat.
Proof.
  induction s as [|c s IH]; cbn [takeDigits]; [lia|].
  destruct (isDigit c); cbn [List.length]; lia.
Qed.

Lemma firstn_digits s n :
  (n <= List.length (takeDigits s))%nat ->
  forallb isDigit (firstn n s) = true.
Proof.
  intros Hn. apply forallb_forall. intros d Hd.
  apply In_nth_error in Hd. destruct Hd as (i & Hi).
  assert (Hlt : (i < n)%nat).
  { assert (nth_error (firstn n s) i <> None) by congruence.
    apply nth_error_Some in H. rewrite length_firstn in H. lia. }
  rewrite nth_error_firstn in Hi.
  destruct (Nat.ltb_spec i n) as [_|Hge]; [|lia].
  destruct (takeDigits_nth s i ltac:(lia)) as (d' & Hd' & Hdigit).
  congruence.
Qed.

Lemma digitsThenBoundary_sound s g : forall k,
  digitsThenBoundary k s = Some g ->
  exists n, (5 <= n <= k)%nat /\ g = firstn n s /\
            wordBoundary (nth_error s (n - 1)) (nth_error s n) = true.
Proof.
  induction k as [|k IH]; intros H.
  - cbn in H. discriminate.
  - cbn [digitsThenBoundary] in H.
    destruct ((5 <=? S k)%nat
              && wordBoundary (nth_error s (S k - 1)) (nth_error s (S k)))
      eqn:Hcond.
    + injection H as <-. apply andb_true_iff in Hcond.
      destruct Hcond as [Hfive Hb]. apply Nat.leb_le in Hfive.
      exists (S k). split; [lia|]. split; [reflexivity|exact Hb].
    + destruct (IH H) as (n & Hn & Hg & Hb).
      exists n. split; [lia|]. split; assumption.
Qed.

(** A match that starts here is a run of at least five digits with no
    word character on either side. *)
Lemma matchAt_sound before s g :
  matchAt before s = Some g ->
  exists post,
    s = g ++ post /\ (5 <= List.length g)%nat /\
    forallb isDigit g = true /\
    isWordAt before = false /\ isWordAt (hd_error post) = false.
Proof.
  unfold matchAt.
  destruct (wordBoundary before (hd_error s)) eqn:Hstart; [|discriminate].
  intros H. apply digitsThenBoundary_sound in H.
  destruct H as (n & Hn & -> & Hend).
  pose proof (takeDigits_length s) as Hlen.
  exists (skipn n s). split; [symmetry; apply firstn_skipn|].
  split; [rewrite length_firstn; lia|].
  split; [apply firstn_digits; lia|].
  destruct (takeDigits_nth s 0 ltac:(lia)) as (d0 & Hd0 & Hdigit0).
  destruct (takeDigits_nth s (n - 1) ltac:(lia)) as (d1 & Hd1 & Hdigit1).
  split.
  - assert (Hhd : hd_error s = Some d0)
      by (destruct s; [discriminate|exact Hd0]).
    rewrite Hhd in Hstart. unfold wordBoundary in Hstart.
    change (isWordAt (Some d0)) with (isWord d0) in Hstart.
    rewrite (digit_is_word _ Hdigit0) in Hstart.
    destruct (isWordAt before); [discriminate|reflexivity].
  - rewrite hd_error_skipn. rewrite Hd1 in Hend.
    unfold wordBoundary in Hend.
    change (isWordAt (Some d1)) with (isWord d1) in Hend.
    rewrite (digit_is_word _ Hdigit1) in Hend.
    destruct (isWordAt (nth_error s n)); [discriminate|reflexivity].
Qed.

Lemma last_cons_default {A : Type} (x : A) (l : list A) (d : A) :
  last (x :: l) d = last l x.
Proof.
  revert x d. induction l as [|y l IH]; intros x d; [reflexivity|].
  change (last (x :: y :: l) d) with (last (y :: l) d).
  rewrite (IH y d), (IH y x). reflexivity.
Qed.

Lemma matchFrom_sound s : forall before g,
  matchFrom before s = Some g ->
  exists pre post,
    s = pre ++ g ++ post /\ (5 <= List.length g)%nat /\
    forallb isDigit g = true /\
    isWordAt (last (map Some pre) before) = false /\
    isWordAt (hd_error post) = false.
Proof.
  induction s as [|c s IH]; intros before g H.
  - cbn [matchFrom] in H.
    destruct (matchAt before []) as [g'|] eqn:Hat; [|discriminate].
    injection H as <-. apply matchAt_sound in Hat.
    destruct Hat as (post & Hs & Hlen & Hdig & Hb & Ha).
    exists [], post. auto.
  - cbn [matchFrom] in H.
    destruct (matchAt before (c :: s)) as [g'|] eqn:Hat.
    + injection H as <-. apply matchAt_sound in Hat.
      destruct Hat as (post & Hs & Hlen & Hdig & Hb & Ha).
      exists [], post. auto.
    + apply IH in H. destruct H as (pre & post & -> & Hlen & Hdig & Hb & Ha).
      exists (c :: pre), post. split; [reflexivity|].
      split; [exact Hlen|]. split; [exact Hdig|]. split; [|exact Ha].
      cbn [map]. rewrite last_cons_default. exact Hb.
Qed.

(** X26: dist/src/channel.js treats an error text as non-retryable only when
    the text holds a run of at least five decimal digits, with no word
    character right before or right after it, whose value is one of the
    seven listed codes. *)
Theorem non_retryable_only_with_a_listed_code (lastError : jsstring) :
  nonRetryable lastError = true ->
  exists pre digits post,
    lastError = pre ++ digits ++ post /\
    (5 <= List.length digits)%nat /\
    forallb isDigit digits = true /\
    isWordAt (last (map Some pre) None) = false /\
    isWordAt (hd_error post) = false /\
    In (Number digits) NON_RETRYABLE_CODES.
Proof.
  unfold nonRetryable, codeMatch.
  destruct (matchFrom None lastError) as [g|] eqn:Hm; [|discriminate].
  intros Hhas. apply matchFrom_sound in Hm.
  destruct Hm as (pre & post & Hs & Hlen & Hdig & Hb & Ha).
  exists pre, g, post. repeat (split; [assumption|]).
  unfold has in Hhas. apply existsb_exists in Hhas.
  destruct Hhas as (code & Hin & Heq). apply Z.eqb_eq in Heq.
  rewrite Heq. exact Hin.
Qed.

Lemma non_retryable_only_with_a_listed_code_witness :
  exists pre digits post,
    Examples.permissionDeniedError = pre ++ digits ++ post /\
    (5 <= List.length digits)%nat /\
    forallb isDigit digits = true /\
    isWordAt (last (map Some pre) None) = false /\
    isWordAt (hd_error post) = false /\
    In (Number digits) NON_RETRYABLE_CODES.
Proof.
  apply (non_retryable_only_with_a_listed_code
           Examples.permissionDeniedError).
  vm_compute. reflexivity.
Defined.

End CodeFacts.

Module AccountFacts.

Import Accounts.

(** X27: [listLarkAccountIds] on a Lark section with [accounts]: the
    default account comes first and is listed exactly once, also when
    [accounts] has a key [default]; the ids are the default and the keys
    of [accounts], none twice; without a key [default] they are the
    default followed by the keys in their order. *)
Theorem default_account_listed_once (cfg : LarkChannelConfig)
    (keys : list jsstring) :
  accountKeys cfg = Some keys ->
  NoDup keys ->
  let ids := listLarkAccountIds (Some cfg) in
  hd_error ids = Some DEFAULT_ACCOUNT_ID /\
  NoDup ids /\
  (forall key, In key ids <-> key = DEFAULT_ACCOUNT_ID \/ In key keys) /\
  (~ In DEFAULT_ACCOUNT_ID keys -> ids = DEFAULT_ACCOUNT_ID :: keys).
Proof.
  intros Hkeys Hnd ids. subst ids. unfold listLarkAccountIds.
  rewrite Hkeys. split; [reflexivity|].
  assert (Hin : forall key,
            In key (filter (fun key => negb (str_eqb key DEFAULT_ACCOUNT_ID))
                      keys)
            <-> In key keys /\ key <> DEFAULT_ACCOUNT_ID).
  { intros key. rewrite filter_In, negb_true_iff.
    rewrite EnqueueFacts.str_eqb_neq. reflexivity. }
  split; [|split].
  - constructor.
    + intros H. apply Hin in H. destruct H as [_ H]. apply H. reflexivity.
    + apply NoDup_filter. exact Hnd.
  - intros key. cbn [In]. rewrite Hin.
    destruct (list_eq_dec N.eq_dec key DEFAULT_ACCOUNT_ID) as [->|Hne].
    + split; auto.
    + split.
      * intros [H|[H _]]; [left; symmetry; exact H|right; exact H].
      * intros [H|H]; [contradiction|right; split; assumption].
  - intros Hnot. f_equal.
    clear Hin Hkeys Hnd. induction keys as [|key keys IH]; [reflexivity|].
    cbn [filter].
    destruct (str_eqb key DEFAULT_ACCOUNT_ID) eqn:Heq.
    + apply EnqueueFacts.str_eqb_eq in Heq. exfalso. apply Hnot.
      left. exact Heq.
    + cbn [negb]. f_equal. apply IH. intros H. apply Hnot. right. exact H.
Qed.

(** [accounts] with the keys [default] and [work]. *)
Lemma default_account_listed_once_witness :
  listLarkAccountIds
    (Some {| accountKeys := Some [lit "default"; lit "work"] |})
  = [lit "default"; lit "work"] /\
  NoDup
    (listLarkAccountIds
       (Some {| accountKeys := Some [lit "default"; lit "work"] |})).
Proof.
  split; [reflexivity|].
  apply (default_account_listed_once
           {| accountKeys := Some [lit "default"; lit "work"] |}
           [lit "default"; lit "work"] eq_refl).
  constructor.
  - intros [H|[]]. discriminate H.
  - constructor; [intros []|constructor].
Defined.

End AccountFacts.

(* ================================================================== *)
(** * The chunker of the outbound adapter *)
(* ================================================================== *)

Module ChunkerFacts.

Import Chunker Props.

Lemma splitLF_lines (t : jsstring) :
  Forall (fun line => ~ In LF line) (splitLF t).
Proof.
  induction t as [|c t IH]; cbn [splitLF].
  - constructor; [intros []|constructor].
  - destruct (N.eqb_spec c LF) as [->|Hne].
    + constructor; [intros []|exact IH].
    + destruct (splitLF t) as [|piece pieces].
      * constructor; [|constructor]. intros [H|[]]. congruence.
      * inversion IH as [|? ? Hpiece Hpieces]; subst.
        constructor; [|exact Hpieces].
        intros [H|H]; [congruence|contradiction].
Qed.

Lemma splitLF_joined (a b : jsstring) :
  splitLF (a ++ [LF] ++ b) = splitLF a ++ splitLF b.
Proof.
  induction a as [|c a IH]; [reflexivity|].
  cbn [app splitLF] in *. destruct (N.eqb c LF).
  - rewrite IH. reflexivity.
  - rewrite IH. pose proof (SenderFacts.splitLF_length a) as Hlen.
    destruct (splitLF a) as [|piece pieces]; [discriminate Hlen|].
    reflexivity.
Qed.

Lemma splitLF_one_line (line : jsstring) :
  ~ In LF line -> splitLF line = [line].
Proof.
  induction line as [|c line IH]; intros Hno; [reflexivity|].
  cbn [splitLF]. destruct (N.eqb_spec c LF) as [->|Hne].
  - exfalso. apply Hno. left. reflexivity.
  - rewrite IH by (intros H; apply Hno; right; exact H). reflexivity.
Qed.

Lemma strLength_joined (a b : jsstring) :
  strLength (a ++ [LF] ++ b) = strLength a + strLength b + 1.
Proof.
  unfold strLength. rewrite !length_app. cbn [List.length]. lia.
Qed.

(** What the loop keeps true of [chunks] and [current]. *)
Lemma chunkLine_shape limit (chunks : list jsstring)
    (current line : jsstring) :
  ~ In LF line ->
  Forall (fun c => c <> [] /\ fitsOrOneLine limit c) chunks ->
  current = [] \/ fitsOrOneLine limit current ->
  Forall (fun c => c <> [] /\ fitsOrOneLine limit c)
    (fst (chunkLine limit (chunks, current) line)) /\
  (snd (chunkLine limit (chunks, current) line) = [] \/
   fitsOrOneLine limit (snd (chunkLine limit (chunks, current) line))).
Proof.
  intros Hline Hchunks Hcurrent. unfold chunkLine.
  rewrite Z.gtb_ltb.
  destruct (Z.ltb_spec limit (strLength current + strLength line + 1))
    as [Hover|Hfits].
  - cbn [fst snd]. split; [|right; right; exact Hline].
    destruct current as [|c current]; cbn [nonEmpty]; [exact Hchunks|].
    apply Forall_app. split; [exact Hchunks|].
    constructor; [|constructor]. split; [discriminate|].
    destruct Hcurrent as [H|H]; [discriminate|exact H].
  - cbn [fst snd]. split; [exact Hchunks|]. right. left.
    destruct current as [|c current]; cbn [nonEmpty].
    + unfold strLength in *. cbn [List.length] in Hfits. lia.
    + rewrite strLength_joined. lia.
Qed.

Lemma chunkLine_lines limit (chunks : list jsstring)
    (current line : jsstring) :
  ~ In LF line ->
  filter nonEmpty
    (flat_map splitLF (fst (chunkLine limit (chunks, current) line))
     ++ splitLF (snd (chunkLine limit (chunks, current) line)))
  = filter nonEmpty (flat_map splitLF chunks ++ splitLF current)
    ++ filter nonEmpty [line].
Proof.
  intros Hline. unfold chunkLine.
  destruct (strLength current + strLength line + 1 >? limit);
    cbn [fst snd]; destruct current as [|c current]; cbn [nonEmpty].
  - rewrite (splitLF_one_line line Hline), !filter_app. cbn [splitLF].
    cbn [filter nonEmpty]. rewrite app_nil_r. reflexivity.
  - rewrite flat_map_app, (splitLF_one_line line Hline). cbn [flat_map].
    rewrite app_nil_r, !filter_app. reflexivity.
  - rewrite (splitLF_one_line line Hline), !filter_app. cbn [splitLF].
    cbn [filter nonEmpty]. rewrite app_nil_r. reflexivity.
  - rewrite splitLF_joined, (splitLF_one_line line Hline), !filter_app.
    rewrite app_assoc. reflexivity.
Qed.

Lemma loop_shape limit (lines : list jsstring) :
  forall (chunks : list jsstring) (current : jsstring),
  Forall (fun line => ~ In LF line) lines ->
  Forall (fun c => c <> [] /\ fitsOrOneLine limit c) chunks ->
  current = [] \/ fitsOrOneLine limit current ->
  Forall (fun c => c <> [] /\ fitsOrOneLine limit c)
    (fst (fold_left (chunkLine limit) lines (chunks, current))) /\
  (snd (fold_left (chunkLine limit) lines (chunks, current)) = [] \/
   fitsOrOneLine limit
     (snd (fold_left (chunkLine limit) lines (chunks, current)))).
Proof.
  induction lines as [|line lines IH]; intros chunks current Hl Hc Hcur;
    [split; assumption|].
  inversion Hl as [|? ? Hline Hlines]; subst. cbn [fold_left].
  destruct (chunkLine_shape limit chunks current line Hline Hc Hcur)
    as [Hc' Hcur'].
  revert Hc' Hcur'.
  destruct (chunkLine limit (chunks, current) line) as [chunks' current'].
  cbn [fst snd]. intros Hc' Hcur'. apply IH; assumption.
Qed.

Lemma loop_lines limit (lines : list jsstring) :
  forall (chunks : list jsstring) (current : jsstring),
  Forall (fun line => ~ In LF line) lines ->
  filter nonEmpty
    (flat_map splitLF
       (fst (fold_left (chunkLine limit) lines (chunks, current)))
     ++ splitLF (snd (fold_left (chunkLine limit) lines (chunks, current))))
  = filter nonEmpty (flat_map splitLF chunks ++ splitLF current)
    ++ filter nonEmpty lines.
Proof.
  induction lines as [|line lines IH]; intros chunks current Hl.
  - cbn [fold_left fst snd filter]. rewrite app_nil_r. reflexivity.
  - inversion Hl as [|? ? Hline Hlines]; subst. cbn [fold_left].
    pose proof (chunkLine_lines limit chunks current line Hline) as Hstep.
    revert Hstep.
    destruct (chunkLine limit (chunks, current) line) as [chunks' current'].
    cbn [fst snd]. intros Hstep. rewrite (IH chunks' current' Hlines), Hstep.
    rewrite <- app_assoc, <- filter_app. reflexivity.
Qed.

Lemma chunker_result (text_ : jsstring) (limit : Z) :
  exists (chunks : list jsstring) (current : jsstring),
    fold_left (chunkLine limit) (splitLF text_) ([], []) = (chunks, current)
    /\
    chunker text_ limit
    = if nonEmpty current then chunks ++ [current] else chunks.
Proof.
  unfold chunker.
  destruct (fold_left (chunkLine limit) (splitLF text_) ([], []))
    as [chunks current].
  exists chunks, current. split; reflexivity.
Qed.

(** X28: [chunker(text, limit)], for any text and limit: no chunk is
    empty, and a chunk is longer than the limit only when it is one single
    line of the text: lines are joined up to the limit, and a line that is
    longer than the limit is passed on whole, not split. *)
Theorem chunks_fit_or_are_one_line (text_ : jsstring) (limit : Z) :
  Forall (fun chunk => chunk <> [] /\ fitsOrOneLine limit chunk)
    (chunker text_ limit).
Proof.
  destruct (chunker_result text_ limit) as (chunks & current & Hloop & ->).
  destruct (loop_shape limit (splitLF text_) [] [] (splitLF_lines text_)
              (Forall_nil _) (or_introl eq_refl)) as [Hchunks Hcurrent].
  change (Forall (fun c => c <> [] /\ fitsOrOneLine limit c)
            (fst (fold_left (chunkLine limit) (splitLF text_) ([], []))))
    in Hchunks.
  change (snd (fold_left (chunkLine limit) (splitLF text_) ([], [])) = [] \/
          fitsOrOneLine limit
            (snd (fold_left (chunkLine limit) (splitLF text_) ([], []))))
    in Hcurrent.
  rewrite Hloop in Hchunks, Hcurrent. cbn [fst snd] in Hchunks, Hcurrent.
  destruct current as [|c current]; cbn [nonEmpty]; [exact Hchunks|].
  apply Forall_app. split; [exact Hchunks|].
  constructor; [|constructor]. split; [discriminate|].
  destruct Hcurrent as [H|H]; [discriminate|exact H].
Qed.

(** X29: [chunker(text, limit)] loses no text: the non-empty lines of the
    chunks, taken in order, are the non-empty lines of the text.  Only
    empty lines can go missing, and nothing is reordered or cut. *)
Theorem chunks_keep_the_written_lines (text_ : jsstring) (limit : Z) :
  filter nonEmpty (flat_map splitLF (chunker text_ limit))
  = writtenLines text_.
Proof.
  destruct (chunker_result text_ limit) as (chunks & current & Hloop & ->).
  pose proof (loop_lines limit (splitLF text_) [] [] (splitLF_lines text_))
    as Hlines.
  change (filter nonEmpty
            (flat_map splitLF
               (fst (fold_left (chunkLine limit) (splitLF text_) ([], [])))
             ++ splitLF
                  (snd (fold_left (chunkLine limit) (splitLF text_)
                          ([], []))))
          = filter nonEmpty (splitLF text_)) in Hlines.
  rewrite Hloop in Hlines. cbn [fst snd] in Hlines.
  unfold writtenLines. rewrite <- Hlines.
  destruct current as [|c current]; cbn [nonEmpty].
  - rewrite filter_app. cbn [splitLF filter nonEmpty].
    rewrite app_nil_r. reflexivity.
  - rewrite flat_map_app. cbn [flat_map]. rewrite app_nil_r. reflexivity.
Qed.

End ChunkerFacts.
